(** * WeChat Channels pipeline: acquire, deobfuscate, size-constrained transcode

    A shallow embedding of [scripts/tikhub_wechat_channels.py] and
    [scripts/compress_video_to_size.py], and the properties of their
    catalog client, selectors, downloader, XOR deobfuscation and
    bitrate estimator / retry loop.

    Conventions of the embedding:
    - Python exceptions are values of [exn]; a function that may raise
      returns a [result].  The scripts raise [RuntimeError] with a
      formatted message only: the message is kept as a constructor of
      [message] that carries the interpolated values.
    - [bytes] are lists of [Byte.byte]; iterating over them yields the
      integers [Byte.to_N b], and the [bytes(...)] constructor checks the
      range again.
    - Files live in a [disk], a finite map from paths to contents; code
      inside a [with ... open(...)] block runs in the state monad [IO].
    - Python [float]s are IEEE 754 binary64 numbers, the [spec_float] of
      the standard library: signed zeros, infinities, NaN, and signed
      mantissas with an exponent.  Every operation on them gives the float
      nearest to the exact result, ties to even, as the machine does.
      The numbers of a JSON body are kept as rationals ([JFloat]). *)

From Stdlib Require Import ZArith NArith QArith Qround Qminmax Qpower Qabs Lia Lqa.
From Stdlib Require Import Floats.SpecFloat.
From Stdlib Require Import Strings.Byte Strings.Ascii.
From stdpp Require Import gmap strings list.

Set Warnings "-register-all".

(** ** Python values, exceptions and results *)

Module Py.

(** Values produced by [json.loads] / [Response.json()]. *)
Inductive json :=
  | JNull
  | JBool (b : bool)
  | JInt (z : Z)
  | JFloat (q : Q)
  | JStr (s : string)
  | JArr (l : list json)
  | JObj (d : gmap string json).

(** The messages of the [RuntimeError]s the two scripts raise. *)
Inductive message :=
  | HTTP_status (status_code : Z) (text_500 : string)
      (* f"HTTP {resp.status_code} {resp.text[:500]}" *)
  | API_error (data : json)                  (* f"API error: {data}" *)
  | No_users_found                           (* "No users found" *)
  | User_index_out_of_range (index : Z)      (* f"User index out of range: {index}" *)
  | No_videos_found                          (* "No videos found in home page response" *)
  | Encrypted_file_is_empty                  (* "Encrypted file is empty" *)
  | Target_size_too_small                    (* "Target size too small for chosen audio bitrate" *)
  | Failed_to_reach_target (target_mb : spec_float) (out_path : string).
      (* f"Failed to reach target size {args.target_mb} MB. Last output: {out_path}" *)

Inductive exn :=
  | RuntimeError (m : message)
  | HTTPError (status_code : Z)         (* requests: Response.raise_for_status *)
  | TransportError                      (* requests: a connection or read failure *)
  | JSONDecodeError                     (* Response.json() on a body that is not JSON *)
  | AttributeError                      (* .get on a value that is not a dict *)
  | ValueError                          (* bytes(): element not in range(0, 256); int(nan) *)
  | OverflowError                       (* int(inf); an int too large for a float *)
  | ZeroDivisionError                   (* x / 0 *)
  | IndexError                          (* l[i] out of range *)
  | KeyError (k : string)               (* d[k] on an absent key *)
  | FileNotFoundError (path : string)
  | CalledProcessError.                 (* subprocess.run(check=True), non-zero exit *)

(** The outcome of running a piece of code.  [OutOfFuel] is not a Python
    outcome: it marks a [while] loop of the model that was cut short. *)
Inductive result (A : Type) :=
  | Ok (a : A)
  | Raise (e : exn)
  | OutOfFuel.
Arguments Ok {A} a.
Arguments Raise {A} e.
Arguments OutOfFuel {A}.

(** State and exceptions: the state survives a raise (what was written to
    a file stays written). *)
Definition IO (S A : Type) : Type := S → result A * S.

Definition io_ret {S A} (a : A) : IO S A := λ s, (Ok a, s).

Definition io_bind {S A B} (f : A → IO S B) (m : IO S A) : IO S B :=
  λ s, match m s with
       | (Ok a, s') => f a s'
       | (Raise e, s') => (Raise e, s')
       | (OutOfFuel, s') => (OutOfFuel, s')
       end.

Definition raise {S A} (e : exn) : IO S A := λ s, (Raise e, s).
Definition out_of_fuel {S A} : IO S A := λ s, (OutOfFuel, s).
Definition modify {S} (f : S → S) : IO S unit := λ s, (Ok tt, f s).
Definition lift {S A} (r : result A) : IO S A := λ s, (r, s).

#[global] Instance IO_ret {S} : MRet (IO S) := λ A, io_ret.
#[global] Instance IO_bind {S} : MBind (IO S) := λ A B, io_bind.

(** [bytes]: immutable sequences of integers in [range(256)]. *)
Abbreviation bytes := (list byte).

(** [b[:n]] and [b[n:]] for a non-negative [n]. *)
Fixpoint slice_to {A} (n : N) (l : list A) : list A :=
  match l with
  | [] => []
  | x :: l' => if (n =? 0)%N then [] else x :: slice_to (N.pred n) l'
  end.

Fixpoint slice_from {A} (n : N) (l : list A) : list A :=
  match l with
  | [] => []
  | x :: l' => if (n =? 0)%N then l else slice_from (N.pred n) l'
  end.

(** [len(b)] *)
Definition len {A} (l : list A) : N := N.of_nat (length l).

(** [bytes(iterable_of_ints)]: [ValueError] unless every integer is in
    [range(0, 256)]. *)
Definition bytes_of_ints (l : list N) : result bytes :=
  match mapM Byte.of_N l with
  | Some b => Ok b
  | None => Raise ValueError
  end.

(** [not x] for a sequence: true on the empty one. *)
Definition is_empty {A} (l : list A) : bool :=
  match l with [] => true | _ => false end.

(** *** Files *)

Abbreviation path := string.

(** The files of the machine, by path. *)
Abbreviation disk := (gmap string bytes).

(** The state of a [with src.open("rb") as fin, dst.open("wb") as fout]
    block: the disk, the two paths the handles refer to, and the read
    offset of [fin]. *)
Record handles := Handles {
  files : disk;
  fin_path : path;
  fin_pos : N;
  fout_path : path;
}.

Definition content (d : disk) (p : path) : bytes := default [] (d !! p).

(** [f.write(buf)] on a file opened for writing at [p]: append. *)
Definition append_file (p : path) (buf : bytes) (d : disk) : disk :=
  <[p := content d p ++ buf]> d.

(** [fin.read(n)]: at most [n] bytes from the current offset; the empty
    [bytes] at end of file. *)
Definition fin_read (n : N) : IO handles bytes :=
  λ h, let buf := slice_to n (slice_from (fin_pos h) (content (files h) (fin_path h))) in
       (Ok buf, Handles (files h) (fin_path h) (fin_pos h + len buf) (fout_path h)).

(** [fout.write(buf)]: append to the file being written. *)
Definition fout_write (buf : bytes) : IO handles unit :=
  modify (λ h, Handles (append_file (fout_path h) buf (files h))
                       (fin_path h) (fin_pos h) (fout_path h)).

(** *** Lists and dicts *)

(** [l[i]]: a negative index counts from the end; [IndexError] out of
    range. *)
Definition list_getitem {A} (l : list A) (i : Z) : result A :=
  let j := if (i <? 0)%Z then (i + Z.of_N (len l))%Z else i in
  if (j <? 0)%Z then Raise IndexError
  else match l !! Z.to_nat j with
       | Some x => Ok x
       | None => Raise IndexError
       end.

(** [k in d] and [d[k]] *)
Definition dict_contains {V} (d : gmap string V) (k : string) : bool :=
  bool_decide (is_Some (d !! k)).

Definition dict_getitem {V} (d : gmap string V) (k : string) : result V :=
  match d !! k with
  | Some v => Ok v
  | None => Raise (KeyError k)
  end.

(** [v == n] for a JSON value [v] and an integer literal [n]: numbers
    compare by value ([bool] is a subclass of [int]), anything else is
    different from an integer. *)
Definition eq_int (v : json) (n : Z) : bool :=
  match v with
  | JInt z => (z =? n)%Z
  | JBool b => ((if b then 1 else 0) =? n)%Z
  | JFloat q => Qeq_bool q (inject_Z n)
  | _ => false
  end.

(** What a call evaluates to, where the caller could expect a number:
    [None] (a function that ends without [return]) or an [int]. *)
Inductive pyval :=
  | PyNone
  | PyInt (n : Z).

End Py.
Import Py.

(** ** Python floats: IEEE 754 binary64 *)

Module Float.

Local Open Scope Q_scope.

(** A Python [float] is an IEEE 754 binary64 number: a signed zero, a
    signed infinity, NaN, or [(-1)^s * m * 2^e]. *)
Abbreviation float := spec_float.

(** The real value of a finite float; 0 for the others. *)
Definition F2Q (x : float) : Q :=
  match x with
  | S754_finite s m e => (if s then -1 else 1) * inject_Z (Z.pos m) * 2 ^ e
  | _ => 0
  end.

(** Zero or finite. *)
Definition is_finite (x : float) : bool :=
  match x with
  | S754_zero _ | S754_finite _ _ _ => true
  | _ => false
  end.

(** [floor(log2(a))] for a positive rational. *)
Definition Qlog2 (a : Q) : Z :=
  let g := (Z.log2 (Qnum a) - Z.log2 (Z.pos (Qden a)))%Z in
  if Qle_bool (2 ^ g) a then g else (g - 1)%Z.

(** The integer nearest to [x], the even one of two equally near. *)
Definition rne (x : Q) : Z :=
  let f := Qfloor x in
  match Qcompare (x - inject_Z f) (1 # 2) with
  | Lt => f
  | Gt => (f + 1)%Z
  | Eq => if Z.even f then f else (f + 1)%Z
  end.

(** The exponent of the binary64 numbers around a positive real [a]: 53
    bits of mantissa, and no exponent below -1074 (subnormal numbers). *)
Definition exponent (a : Q) : Z := Z.max (Qlog2 a - 52) (-1074).

(** Rounding to nearest, ties to even, of a positive real [a] to the
    binary64 format: mantissa and exponent, the exponent not yet bounded
    above. *)
Definition round_mag (a : Q) : Z * Z :=
  let e := exponent a in
  let m := rne (a / 2 ^ e) in
  if (m =? 2 ^ 53)%Z then (2 ^ 52, e + 1)%Z else (m, e).

(** The float of sign [s] nearest to the positive real [a]: a zero on
    underflow, an infinity when the rounded value is 2^1024 or more. *)
Definition round_pos (s : bool) (a : Q) : float :=
  let '(m, e) := round_mag a in
  match m with
  | Z.pos p => if (971 <? e)%Z then S754_infinity s else S754_finite s p e
  | _ => S754_zero s
  end.

(** The float nearest to a real: a literal, [float("...")]. *)
Definition of_Q (q : Q) : float :=
  match Qcompare q 0 with
  | Eq => S754_zero false
  | Lt => round_pos true (- q)
  | Gt => round_pos false q
  end.

(** [x * y] on floats *)
Definition fmul (x y : float) : float :=
  match x, y with
  | S754_nan, _ | _, S754_nan => S754_nan
  | S754_infinity sx, S754_infinity sy => S754_infinity (xorb sx sy)
  | S754_infinity sx, S754_finite sy _ _ => S754_infinity (xorb sx sy)
  | S754_finite sx _ _, S754_infinity sy => S754_infinity (xorb sx sy)
  | S754_infinity _, S754_zero _ => S754_nan
  | S754_zero _, S754_infinity _ => S754_nan
  | S754_finite sx _ _, S754_zero sy => S754_zero (xorb sx sy)
  | S754_zero sx, S754_finite sy _ _ => S754_zero (xorb sx sy)
  | S754_zero sx, S754_zero sy => S754_zero (xorb sx sy)
  | S754_finite sx mx ex, S754_finite sy my ey =>
      round_pos (xorb sx sy) (Qabs (F2Q x) * Qabs (F2Q y))
  end.

(** The quotient of two floats, for a divisor other than zero. *)
Definition quotient (x y : float) : float :=
  match x, y with
  | S754_nan, _ | _, S754_nan => S754_nan
  | S754_infinity sx, S754_infinity sy => S754_nan
  | S754_infinity sx, S754_finite sy _ _ => S754_infinity (xorb sx sy)
  | S754_finite sx _ _, S754_infinity sy => S754_zero (xorb sx sy)
  | S754_infinity sx, S754_zero sy => S754_infinity (xorb sx sy)
  | S754_zero sx, S754_infinity sy => S754_zero (xorb sx sy)
  | S754_finite sx _ _, S754_zero sy => S754_infinity (xorb sx sy)
  | S754_zero sx, S754_finite sy _ _ => S754_zero (xorb sx sy)
  | S754_zero sx, S754_zero sy => S754_nan
  | S754_finite sx mx ex, S754_finite sy my ey =>
      round_pos (xorb sx sy) (Qabs (F2Q x) / Qabs (F2Q y))
  end.

(** [x / y] on floats: [ZeroDivisionError] on a zero divisor. *)
Definition fdiv (x y : float) : result float :=
  match y with
  | S754_zero _ => Raise ZeroDivisionError
  | _ => Ok (quotient x y)
  end.

(** [x - y] on floats *)
Definition fsub (x y : float) : float :=
  match x, y with
  | S754_nan, _ | _, S754_nan => S754_nan
  | S754_infinity sx, S754_infinity sy => if xorb sx sy then x else S754_nan
  | S754_infinity _, _ => x
  | _, S754_infinity sy => S754_infinity (negb sy)
  | S754_zero sx, S754_zero sy => if xorb sx sy then x else S754_zero false
  | S754_zero _, S754_finite sy my ey => S754_finite (negb sy) my ey
  | _, S754_zero _ => x
  | S754_finite _ _ _, S754_finite _ _ _ => of_Q (F2Q x - F2Q y)
  end.

(** The order of two floats; [None] when one of them is NaN. *)
Definition fcompare (x y : float) : option comparison :=
  match x, y with
  | S754_nan, _ | _, S754_nan => None
  | S754_infinity sx, S754_infinity sy =>
      Some (if sx then (if sy then Eq else Lt) else (if sy then Gt else Eq))
  | S754_infinity sx, _ => Some (if sx then Lt else Gt)
  | _, S754_infinity sy => Some (if sy then Gt else Lt)
  | _, _ => Some (Qcompare (F2Q x) (F2Q y))
  end.

(** [x < y] and [x <= y] on floats: false when one of them is NaN. *)
Definition fltb (x y : float) : bool :=
  match fcompare x y with Some Lt => true | _ => false end.

Definition fleb (x y : float) : bool :=
  match fcompare x y with Some (Lt | Eq) => true | _ => false end.

(** [max(a, b)]: [a] unless [b] is greater. *)
Definition py_max (a b : float) : float := if fltb a b then b else a.

(** [int(x)] for a float: truncation toward zero; [ValueError] on NaN,
    [OverflowError] on an infinity. *)
Definition py_int (x : float) : result Z :=
  match x with
  | S754_nan => Raise ValueError
  | S754_infinity _ => Raise OverflowError
  | S754_zero _ => Ok 0%Z
  | S754_finite s m e =>
      let n := if (0 <=? e)%Z then (Z.pos m * 2 ^ e)%Z else (Z.pos m / 2 ^ (- e))%Z in
      Ok (if s then - n else n)%Z
  end.

(** An infinity as the [OverflowError] of a conversion or division of
    integers. *)
Definition checked (x : float) : result float :=
  match x with
  | S754_infinity _ => Raise OverflowError
  | _ => Ok x
  end.

(** [float(n)], also where an [int] meets a [float] in an operation: the
    nearest float; [OverflowError] when that is out of range. *)
Definition of_int (n : Z) : result float := checked (of_Q (inject_Z n)).

(** [a / b] on integers: the float nearest to the quotient. *)
Definition int_truediv (a b : Z) : result float :=
  if (b =? 0)%Z then Raise ZeroDivisionError
  else if (a =? 0)%Z then Ok (S754_zero (b <? 0)%Z)
  else checked (round_pos (xorb (a <? 0)%Z (b <? 0)%Z)
                          (inject_Z (Z.abs a) / inject_Z (Z.abs b))).

(** Sequencing of computations that may raise. *)
Definition result_bind {A B} (f : A → result B) (r : result A) : result B :=
  match r with
  | Ok a => f a
  | Raise e => Raise e
  | OutOfFuel => OutOfFuel
  end.

#[global] Instance result_ret : MRet result := λ A, Ok.
#[global] Instance result_mbind : MBind result := λ A B, result_bind.

(** [x * n], [n * x] and [x - n] for a float [x] and an integer [n]: the
    integer is converted first. *)
Definition fmul_int (x : float) (n : Z) : result float := y ← of_int n; Ok (fmul x y).
Definition int_fmul (n : Z) (x : float) : result float := y ← of_int n; Ok (fmul y x).
Definition fsub_int (x : float) (n : Z) : result float := y ← of_int n; Ok (fsub x y).

(** *** The notions the properties below are stated with *)

(** The rounded magnitude as a real. *)
Definition Rnd (a : Q) : Q := inject_Z (round_mag a).1 * 2 ^ (round_mag a).2.

(** A mantissa and an exponent of the format. *)
Definition bounded (x : float) : Prop :=
  match x with
  | S754_finite _ m e => (Z.pos m < 2 ^ 53)%Z ∧ (-1074 ≤ e ≤ 971)%Z
  | _ => True
  end.

Definition sign_of (s : bool) : Q := if s then -1 else 1.

(** The integer part of a real. *)
Definition Qtrunc (q : Q) : Z := if Qle_bool 0 q then Qfloor q else (- Qfloor (- q))%Z.

(** A positive number of the format. *)
Definition representable (q : Q) : Prop :=
  ∃ m e, (0 < m < 2 ^ 53)%Z ∧ (-1074 ≤ e)%Z ∧ q == inject_Z m * 2 ^ e.

(** The float of value [2^k]. *)
Definition pow2_float (k : Z) : float := S754_finite false 4503599627370496 (k - 52).

(** A float that is a zero or positive. *)
Definition plus_shaped (x : float) : Prop :=
  match x with
  | S754_zero _ | S754_finite false _ _ => True
  | _ => False
  end.

(** Floats that are not negative, and those that are neither negative
    nor zero. *)
Definition not_negative (x : float) : Prop :=
  match x with
  | S754_finite s _ _ | S754_infinity s => s = false
  | _ => True
  end.

Definition not_negative_or_zero (x : float) : Prop :=
  match x with
  | S754_finite s _ _ | S754_infinity s => s = false
  | S754_zero _ => False
  | S754_nan => True
  end.

End Float.
Import Float.

(** ** scripts/tikhub_wechat_channels.py *)

Module Channels.

(** The chunk size of every bounded read: [1024 * 1024]. *)
Definition CHUNK : N := 1024 * 1024.

(** The copy loop of [_decrypt_file]:
<<
        while True:
            buf = fin.read(1024 * 1024)
            if not buf:
                break
            fout.write(buf)
>>
    [fuel] bounds the number of iterations. *)
Fixpoint copy_loop (fuel : nat) : IO handles unit :=
  match fuel with
  | O => out_of_fuel
  | S fuel' =>
      buf ← fin_read CHUNK;
      if is_empty buf then mret tt
      else fout_write buf;; copy_loop fuel'
  end.

(** The body of the [with] block of [_decrypt_file]. *)
Definition decrypt_body (keystream : bytes) (fuel : nat) : IO handles unit :=
  head ← fin_read (len keystream);
  if is_empty head then raise (RuntimeError Encrypted_file_is_empty)
  else
    dec_head ← lift (bytes_of_ints
                       (zip_with (λ a b, N.lxor (Byte.to_N a) (Byte.to_N b)) head keystream));
    fout_write dec_head;;
    copy_loop fuel.

(** [_decrypt_file(enc_path, out_path, keystream)].  Opening [enc_path]
    for reading fails when there is no such file; opening [out_path] with
    ["wb"] creates it or truncates it.  Every iteration of the copy loop
    that does not leave it consumes at least one byte, so one more
    iteration than the file has bytes is enough fuel. *)
Definition _decrypt_file (enc_path out_path : path) (keystream : bytes)
    (d : disk) : result unit * disk :=
  match d !! enc_path with
  | None => (Raise (FileNotFoundError enc_path), d)
  | Some enc =>
      let d1 := <[out_path := []]> d in
      let '(r, h) := decrypt_body keystream (S (length enc))
                       (Handles d1 enc_path 0 out_path) in
      (r, files h)
  end.

(** What [requests] hands back for a catalog request: the status code,
    the body as text, and what [resp.json()] gives ([None] here when the
    body is not JSON, where [json()] raises). *)
Record response := Response {
  status_code : Z;
  text : string;
  json_body : option json;
}.

(** [_api_get(api_key, path, params)], from the response [resp] that
    [requests.get] returned:
<<
    if resp.status_code != 200:
        raise RuntimeError(f"HTTP {resp.status_code} {resp.text[:500]}")
    data = resp.json()
    if data.get("code") != 200:
        raise RuntimeError(f"API error: {data}")
    return data
>> *)
Definition _api_get (resp : response) : result (gmap string json) :=
  if negb (status_code resp =? 200)%Z then
    Raise (RuntimeError (HTTP_status (status_code resp) (String.substring 0 500 (text resp))))
  else
    match json_body resp with
    | None => Raise JSONDecodeError
    | Some (JObj data) =>
        (* data.get("code") is None when the key is absent, and None != 200 *)
        if negb (from_option (λ v, eq_int v 200) false (data !! "code")) then
          Raise (RuntimeError (API_error (JObj data)))
        else Ok data
    | Some _ => Raise AttributeError
    end.

(** [_select_user(data, index)] *)
Definition _select_user {A} (data : list A) (index : Z) : result A :=
  if is_empty data then Raise (RuntimeError No_users_found)
  else if (index <? 0)%Z || (index >=? Z.of_N (len data))%Z then
    Raise (RuntimeError (User_index_out_of_range index))
  else list_getitem data index.

(** [_get_object_list(home_data)] *)
Definition _get_object_list (home_data : gmap string json) : result json :=
  if dict_contains home_data "object_list" then dict_getitem home_data "object_list"
  else if dict_contains home_data "object" then dict_getitem home_data "object"
  else Ok (JArr []).

(** *** Selecting the latest video *)

(** The [createtime] entry of a media record: absent, [null], or an
    integer (the script annotates it [Optional[int]] in [_human_time]). *)
Inductive timestamp :=
  | Absent
  | Null
  | Stamp (t : Z).

(** A media record of the timeline, as far as the selection reads it. *)
Record video := Video {
  video_id : string;
  createtime : timestamp;
}.

(** [x.get("createtime")]: [None] for an absent key and for [null]. *)
Definition get_createtime (x : video) : option Z :=
  match createtime x with
  | Stamp t => Some t
  | Absent | Null => None
  end.

(** [v or 0]: [v] when it is truthy, that is an integer other than 0. *)
Definition or_0 (v : option Z) : Z :=
  match v with
  | Some t => if (t =? 0)%Z then 0%Z else t
  | None => 0%Z
  end.

(** The loop of the builtin [max(iterable, key=...)]: the running maximum
    is replaced only by an item whose key is strictly greater. *)
Fixpoint max_from {A} (key : A → Z) (best : A) (l : list A) : A :=
  match l with
  | [] => best
  | x :: l' => max_from key (if (key best <? key x)%Z then x else best) l'
  end.

(** [max(l, key=key)]; [ValueError] on an empty sequence. *)
Definition py_max_key {A} (key : A → Z) (l : list A) : result A :=
  match l with
  | [] => Raise ValueError
  | x :: l' => Ok (max_from key x l')
  end.

(** The selection of the latest video in [main]:
<<
    if not videos:
        raise RuntimeError("No videos found in home page response")
    latest = max(videos, key=lambda x: x.get("createtime") or 0)
>> *)
Definition select_latest (videos : list video) : result video :=
  if is_empty videos then Raise (RuntimeError No_videos_found)
  else py_max_key (λ x, or_0 (get_createtime x)) videos.

(** *** Download *)

(** The reply to the streaming request of [_download_file]: the status
    code and what [resp.iter_content(chunk_size=1024 * 1024)] yields, a
    sequence of chunks that may end in a transport failure. *)
Record stream_response := StreamResponse {
  stream_status : Z;
  chunks : list bytes;
  broken : bool;
}.

(** [resp.raise_for_status()] of [requests]: [HTTPError] for a client or
    server error status, 400 to 599. *)
Definition raise_for_status (status : Z) : result unit :=
  if (400 <=? status)%Z && (status <? 600)%Z then Raise (HTTPError status) else Ok tt.

(** The loop over the chunks:
<<
            for chunk in resp.iter_content(chunk_size=1024 * 1024):
                if chunk:
                    f.write(chunk)
>> *)
Fixpoint write_chunks (out_path : path) (l : list bytes) : IO disk unit :=
  match l with
  | [] => mret tt
  | chunk :: l' =>
      (if is_empty chunk then mret tt else modify (append_file out_path chunk));;
      write_chunks out_path l'
  end.

(** [_download_file(url, out_path)], from the response [resp] to the
    streaming request.  The function has no [return]: it evaluates to
    [None]. *)
Definition _download_file (resp : stream_response) (out_path : path) : IO disk pyval :=
  lift (raise_for_status (stream_status resp));;
  modify (<[out_path := []]>);;          (* out_path.open("wb") *)
  write_chunks out_path (chunks resp);;
  if broken resp then raise TransportError else mret PyNone.

(** *** The notions the properties below are stated with *)

(** The byte whose value is the XOR of the values of [a] and [b]. *)
Definition xor_byte (a b : byte) : byte :=
  default x00%byte (Byte.of_N (N.lxor (Byte.to_N a) (Byte.to_N b))).

(** [bytes(x ^ y for x, y in zip(head, keystream))] as a total function. *)
Definition xor_bytes (head keystream : bytes) : bytes :=
  zip_with xor_byte head keystream.

(** What the deobfuscation leaves in the output file, as a function of the
    ciphertext and the keystream. *)
Definition deobfuscated (C K : bytes) : bytes :=
  xor_bytes (take (length K) C) K ++ drop (length K) C.

(** The application-level status of a parsed body is the success
    sentinel: the entry ["code"] is the number 200. *)
Definition code_is_200 (data : gmap string json) : Prop :=
  ∃ v, data !! "code" = Some v ∧ (v = JInt 200 ∨ ∃ q, v = JFloat q ∧ (q == 200)%Q).

(** The creation timestamp the selection compares: the integer under
    ["createtime"], and 0 when the entry is absent or [null]. *)
Definition timestamp_of (x : video) : Z :=
  match createtime x with
  | Stamp t => t
  | Absent | Null => 0
  end.

End Channels.
Import Channels.

(** ** scripts/compress_video_to_size.py *)

Module Compress.

(** [_calc_bitrates(target_mb, duration_s, audio_kbps, safety)] *)
Definition _calc_bitrates (target_mb duration_s : float) (audio_kbps : Z) (safety : float)
    : result Z :=
  x ← fmul_int target_mb 1024;
  target_bytes ← fmul_int x 1024;
  x ← fmul_int target_bytes 8;
  total_bps ← fdiv x (py_max duration_s (of_Q 0.001));
  let total_bps := fmul total_bps safety in
  let audio_bps := (audio_kbps * 1000)%Z in
  x ← fsub_int total_bps audio_bps;
  video_bps ← py_int x;
  if (video_bps <=? 0)%Z then Raise (RuntimeError Target_size_too_small)
  else Ok (Z.max video_bps 200000).

(** The command line options [main] reads in its retry loop. *)
Record args := Args {
  target_mb : float;
  audio_bitrate : Z;
  preset : string;
  retries : Z;
  safety : float;
}.

(** The [ffmpeg] command of one attempt, by its variable parts: input,
    [-b:v], [-maxrate] and [-bufsize] (in thousands of bits per second),
    [-preset], [-b:a], output. *)
Record ffmpeg_cmd := Ffmpeg {
  cmd_input : path;
  b_v : Z;
  maxrate : Z;
  bufsize : Z;
  cmd_preset : string;
  b_a : Z;
  cmd_output : path;
}.

(** The encoder is outside the program: [encoder n cmd] is what the
    [n]-th run (from 0) of [ffmpeg] does with [cmd], either a non-zero
    exit ([None]) or the size in bytes of the file it leaves at the
    output path. *)
Abbreviation encoder_model := (nat → ffmpeg_cmd → option N).

(** The state of the retry loop's surroundings: the commands run so far,
    oldest first, and the size of the output file if there is one. *)
Record world := World {
  runs : list ffmpeg_cmd;
  out_size : option N;
}.

Section Main.
Variable encoder : encoder_model.
Variable a : args.
Variables in_path out_path : path.
Variable duration : float.

(** [_run(cmd)]: [subprocess.run(cmd, check=True)] *)
Definition _run (cmd : ffmpeg_cmd) : IO world unit :=
  λ w, match encoder (length (runs w)) cmd with
       | Some size => (Ok tt, World (runs w ++ [cmd]) (Some size))
       | None => (Raise CalledProcessError, World (runs w ++ [cmd]) (out_size w))
       end.

(** [out_path.stat().st_size] *)
Definition stat_size : IO world N :=
  λ w, match out_size w with
       | Some size => (Ok size, w)
       | None => (Raise (FileNotFoundError out_path), w)
       end.

(** The command of an attempt at video bitrate [video_bps]:
<<
        video_k = int(video_bps / 1000)
        maxrate_k = int(video_k * 1.07)
        bufsize_k = int(video_k * 2)
>> *)
Definition build_cmd (video_bps : Z) : result ffmpeg_cmd :=
  x ← int_truediv video_bps 1000;
  video_k ← py_int x;
  x ← int_fmul video_k (of_Q 1.07);
  maxrate_k ← py_int x;
  let bufsize_k := (video_k * 2)%Z in
  Ok (Ffmpeg in_path video_k maxrate_k bufsize_k (preset a) (audio_bitrate a) out_path).

(** The retry loop of [main], over the attempts still to make
    ([for attempt in range(args.retries + 1)]) and the current safety
    factor.  Leaving the loop by [return] gives the measured size in MB;
    running out of attempts reaches the [raise] after the loop. *)
Fixpoint retry_loop (attempts : list nat) (safety : float) : IO world float :=
  match attempts with
  | [] => raise (RuntimeError (Failed_to_reach_target (target_mb a) out_path))
  | attempt :: attempts' =>
      video_bps ← lift (_calc_bitrates (target_mb a) duration (audio_bitrate a) safety);
      cmd ← lift (build_cmd video_bps);
      _run cmd;;
      st_size ← stat_size;
      size_mb ← lift (int_truediv (Z.of_N st_size) (1024 * 1024));
      if fleb size_mb (target_mb a) then mret size_mb
      else retry_loop attempts' (fmul safety (of_Q 0.9))
  end.

(** [main] from [safety = args.safety] on. *)
Definition main_loop : IO world float :=
  retry_loop (seq 0 (Z.to_nat (retries a + 1))) (safety a).

(** *** A run of the loop, attempt by attempt *)

(** The size in MB the loop compares with the target:
    [st_size / (1024 * 1024)]. *)
Definition size_mb (size : N) : result float := int_truediv (Z.of_N size) (1024 * 1024).

(** The safety factor after [k] decays, from the safety factor [s]. *)
Definition decayed (s : float) (k : nat) : float := Nat.iter k (λ x, fmul x (of_Q 0.9)) s.

(** What attempt [k] of a loop started at safety [s], [base] runs of
    the encoder having been made before, estimates, runs and measures. *)
Definition estimate_at (s : float) (k : nat) : result Z :=
  _calc_bitrates (target_mb a) duration (audio_bitrate a) (decayed s k).

Definition cmd_at (s : float) (k : nat) : option ffmpeg_cmd :=
  match estimate_at s k ≫= build_cmd with
  | Ok cmd => Some cmd
  | _ => None
  end.

Definition measured_at (s : float) (base k : nat) : option N :=
  cmd_at s k ≫= encoder (base + k).

(** The output of attempt [k] exceeds the target. *)
Definition oversized_at (s : float) (base k : nat) : Prop :=
  ∃ size q, measured_at s base k = Some size ∧ size_mb size = Ok q ∧
            fltb (target_mb a) q = true.

(** The output of attempt [k], of [size] bytes and [q] MB, is within the
    target. *)
Definition fits_at (s : float) (base k : nat) (size : N) (q : float) : Prop :=
  measured_at s base k = Some size ∧ size_mb size = Ok q ∧ fleb q (target_mb a) = true.

End Main.

(** *** The notions the properties below are stated with *)

(** The total bitrate the estimator allows, before the audio bitrate
    is subtracted. *)
Definition total_bps (target_mb duration_s safety : float) : float :=
  fmul (quotient (fmul (fmul (fmul target_mb (of_Q 1024)) (of_Q 1024)) (of_Q 8))
                 (py_max duration_s (of_Q 0.001)))
       safety.

End Compress.

(** ** More of Python: further exceptions, truthiness, [bytes.fromhex] *)

Module PyMore.

(** The messages of the [RuntimeError]s raised by the code below. *)
Inductive message' :=
  | No_keystream_in_response (data : json)  (* f"No keystream in response: {data}" *)
  | Latest_video_has_no_media               (* "Latest video has no media" *)
  | Missing_url_or_decode_key               (* "Missing url or decode_key in latest media" *)
  | Encrypted_file_not_found (enc_path : path)
      (* f"Encrypted file not found: {enc_path}" *)
  | Selected_user_has_no_username.          (* "Selected user has no username" *)

(** What the code below may raise: an exception of [exn], a
    [RuntimeError] with one of the messages above, a [TypeError], or the
    [KeyError] of an integer key. *)
Inductive failure :=
  | Exn (e : exn)
  | RuntimeError' (m : message')
  | TypeError
  | KeyError_int (k : Z).

Inductive outcome (A : Type) :=
  | Done (a : A)
  | Fail (f : failure).
Arguments Done {A} a.
Arguments Fail {A} f.

(** [x.m()] after [y = ...]: sequencing of calls that may raise. *)
Definition and_then {A B} (r : outcome A) (k : A → outcome B) : outcome B :=
  match r with
  | Done a => k a
  | Fail f => Fail f
  end.

#[global] Instance outcome_ret : MRet outcome := λ A, Done.
#[global] Instance outcome_bind : MBind outcome := λ A B k r, and_then r k.

(** [bool(v)] of a JSON value: [None], [False], zero, and the empty
    string, list and dict are false. *)
Definition truthy (v : json) : bool :=
  match v with
  | JNull => false
  | JBool b => b
  | JInt z => negb (z =? 0)%Z
  | JFloat q => negb (Qeq_bool q 0)
  | JStr s => negb (String.eqb s "")
  | JArr l => negb (is_empty l)
  | JObj d => negb (bool_decide (size d = 0))
  end.

(** [v or w] *)
Definition py_or (v w : json) : json := if truthy v then v else w.

(** [v.get(k, default)]: only a dict has [get]. *)
Definition py_get (v : json) (k : string) (default : json) : outcome json :=
  match v with
  | JObj d => Done (from_option id default (d !! k))
  | _ => Fail (Exn AttributeError)
  end.

(** The characters [Py_ISSPACE] accepts: space, and tab to carriage
    return. *)
Definition is_space (c : Ascii.ascii) : bool :=
  let n := Ascii.N_of_ascii c in
  (n =? 32)%N || ((9 <=? n)%N && (n <=? 13)%N).

(** The value of a hexadecimal digit, of either case. *)
Definition hex_value (c : Ascii.ascii) : option N :=
  let n := Ascii.N_of_ascii c in
  if (48 <=? n)%N && (n <=? 57)%N then Some (n - 48)%N
  else if (97 <=? n)%N && (n <=? 102)%N then Some (n - 87)%N
  else if (65 <=? n)%N && (n <=? 70)%N then Some (n - 55)%N
  else None.

(** [bytes.fromhex(s)] (Python 3.7 and later): two hexadecimal digits per
    byte, runs of ASCII whitespace being skipped before a byte but not
    inside one; [None] stands for its [ValueError]. *)
Fixpoint fromhex (s : string) : option bytes :=
  match s with
  | EmptyString => Some []
  | String c s' =>
      if is_space c then fromhex s'
      else
        match hex_value c, s' with
        | Some top, String c' s'' =>
            match hex_value c' with
            | Some bot =>
                b ← Byte.of_N (16 * top + bot);
                rest ← fromhex s'';
                Some (b :: rest)
            | None => None
            end
        | _, _ => None
        end
  end.

End PyMore.
Import PyMore.

(** ** More of scripts/tikhub_wechat_channels.py *)

Module ChannelsMore.

(** [_fetch_keystream(decrypt_api, decode_key)], from the response [resp]
    that [requests.post] returned:
<<
    resp.raise_for_status()
    data = resp.json()
    keystream_hex = data.get("keystream")
    if not keystream_hex:
        raise RuntimeError(f"No keystream in response: {data}")
    return bytes.fromhex(keystream_hex)
>> *)
Definition _fetch_keystream (resp : response) : outcome bytes :=
  match raise_for_status (status_code resp) with
  | Raise e => Fail (Exn e)
  | _ =>
      match json_body resp with
      | None => Fail (Exn JSONDecodeError)
      | Some data =>
          keystream_hex ← py_get data "keystream" JNull;
          if negb (truthy keystream_hex) then
            Fail (RuntimeError' (No_keystream_in_response data))
          else
            match keystream_hex with
            | JStr s =>
                match fromhex s with
                | Some keystream => Done keystream
                | None => Fail (Exn ValueError)
                end
            | _ => Fail TypeError    (* fromhex() argument must be str *)
            end
      end
  end.

(** *** The notions the properties below are stated with *)

(** The two hexadecimal digits of a byte, in lower case, as [bytes.hex()]
    writes them. *)
Definition hex_digit (n : N) : Ascii.ascii :=
  Ascii.ascii_of_N (if (n <? 10)%N then n + 48 else n + 87).

Definition hex_of_byte (b : byte) (rest : string) : string :=
  String (hex_digit (Byte.to_N b / 16)) (String (hex_digit (Byte.to_N b mod 16)) rest).

(** [K.hex()] *)
Definition hex (K : bytes) : string := foldr hex_of_byte EmptyString K.

(** The characters of a string that are not whitespace. *)
Fixpoint digits (s : string) : list Ascii.ascii :=
  match s with
  | EmptyString => []
  | String c s' => if is_space c then digits s' else c :: digits s'
  end.

End ChannelsMore.
Import ChannelsMore.

(** ** The media of the latest video, in [main] of tikhub_wechat_channels.py *)

Module Media.

(** [s.replace("\n", " ")] *)
Fixpoint replace_newlines (s : string) : string :=
  match s with
  | EmptyString => EmptyString
  | String c s' =>
      String (if Ascii.eqb c "010"%char then " "%char else c) (replace_newlines s')
  end.

(** [v.replace("\n", " ")]: only a string has [replace]. *)
Definition py_replace_newlines (v : json) : outcome json :=
  match v with
  | JStr s => Done (JStr (replace_newlines s))
  | _ => Fail (Exn AttributeError)
  end.

(** [v[0]]: the first item of a list, the first character of a string;
    [KeyError] on a dict, whose keys are strings; [TypeError] on a value
    that cannot be subscripted. *)
Definition getitem_0 (v : json) : outcome json :=
  match v with
  | JArr (x :: _) => Done x
  | JArr [] => Fail (Exn IndexError)
  | JStr (String c _) => Done (JStr (String c EmptyString))
  | JStr EmptyString => Fail (Exn IndexError)
  | JObj _ => Fail (KeyError_int 0)
  | JNull | JBool _ | JInt _ | JFloat _ => Fail TypeError
  end.

(** A JSON number as an integer ([bool] is a subclass of [int]), or as a
    float. *)
Definition as_int (v : json) : option Z :=
  match v with
  | JBool b => Some (if b then 1 else 0)%Z
  | JInt z => Some z
  | _ => None
  end.

Definition as_number (v : json) : option Q :=
  match v with
  | JFloat q => Some q
  | _ => inject_Z <$> as_int v
  end.

(** [v + w]: concatenation of two strings or of two lists, addition of
    two numbers, [TypeError] otherwise. *)
Definition py_add (v w : json) : outcome json :=
  match v, w with
  | JStr a, JStr b => Done (JStr (a +:+ b))
  | JArr a, JArr b => Done (JArr (a ++ b))
  | _, _ =>
      match as_int v, as_int w with
      | Some x, Some y => Done (JInt (x + y))
      | _, _ =>
          match as_number v, as_number w with
          | Some x, Some y => Done (JFloat (x + y))
          | _, _ => Fail TypeError
          end
      end
  end.

(** What [main] reads off the latest video. *)
Record selection := Selection {
  sel_latest_id : json;
  sel_desc : json;
  sel_createtime : json;
  sel_url : json;
  sel_url_token : json;
  sel_decode_key : json;
  sel_full_url : json;
}.

(** The lines of [main] from [latest_id = latest.get("id")] to
    [full_url = url + url_token]:
<<
    latest_id = latest.get("id")
    desc = (latest.get("object_desc", {}).get("description") or "").replace("\n", " ")
    createtime = latest.get("createtime")
    media = (latest.get("object_desc", {}) or {}).get("media", [])
    if not media:
        raise RuntimeError("Latest video has no media")
    url = media[0].get("url")
    url_token = media[0].get("url_token") or ""
    decode_key = media[0].get("decode_key")
    if not url or not decode_key:
        raise RuntimeError("Missing url or decode_key in latest media")
    full_url = url + url_token
>> *)
Definition select_media (latest : json) : outcome selection :=
  latest_id ← py_get latest "id" JNull;
  object_desc ← py_get latest "object_desc" (JObj ∅);
  description ← py_get object_desc "description" JNull;
  desc ← py_replace_newlines (py_or description (JStr ""));
  createtime ← py_get latest "createtime" JNull;
  object_desc ← py_get latest "object_desc" (JObj ∅);
  media ← py_get (py_or object_desc (JObj ∅)) "media" (JArr []);
  if negb (truthy media) then Fail (RuntimeError' Latest_video_has_no_media)
  else
    first ← getitem_0 media;
    url ← py_get first "url" JNull;
    first ← getitem_0 media;
    token ← py_get first "url_token" JNull;
    let url_token := py_or token (JStr "") in
    first ← getitem_0 media;
    decode_key ← py_get first "decode_key" JNull;
    if negb (truthy url) || negb (truthy decode_key) then
      Fail (RuntimeError' Missing_url_or_decode_key)
    else
      full_url ← py_add url url_token;
      Done (Selection latest_id desc createtime url url_token decode_key full_url).

(** *** The notions the properties below are stated with *)

(** ["\n" in s] *)
Fixpoint has_newline (s : string) : bool :=
  match s with
  | EmptyString => false
  | String c s' => Ascii.eqb c "010"%char || has_newline s'
  end.

End Media.
Import Media.

(** ** [pathlib]: names, stems and suffixes *)

Module Pathlib.

(** A path by what [with_name] and [with_suffix] keep, the anchor and the
    parent directories, and what they replace, the final component
    [name] (empty for a root and for the path [.]). *)
Record pure_path := PurePath {
  parents : string;
  name : string;
}.

(** [s.rfind('.')]; [None] stands for -1. *)
Fixpoint rfind_dot (s : string) : option nat :=
  match s with
  | EmptyString => None
  | String c s' =>
      match rfind_dot s' with
      | Some i => Some (S i)
      | None => if Ascii.eqb c "."%char then Some 0 else None
      end
  end.

(** The index at which the suffix of a name starts
    ([i = name.rfind('.')] when [0 < i < len(name) - 1]), if it has
    one. *)
Definition suffix_start (n : string) : option nat :=
  match rfind_dot n with
  | Some i => if (0 <? i) && (i <? String.length n - 1) then Some i else None
  | None => None
  end.

(** [p.suffix] and [p.stem] (pathlib up to Python 3.13). *)
Definition suffix (p : pure_path) : string :=
  match suffix_start (name p) with
  | Some i => String.substring i (String.length (name p) - i) (name p)
  | None => ""
  end.

Definition stem (p : pure_path) : string :=
  match suffix_start (name p) with
  | Some i => String.substring 0 i (name p)
  | None => name p
  end.

(** ['/' in s] *)
Fixpoint has_sep (s : string) : bool :=
  match s with
  | EmptyString => false
  | String c s' => Ascii.eqb c "/"%char || has_sep s'
  end.

(** [p.with_name(n)]: [ValueError] for an invalid name, and for a path
    that has no name to replace. *)
Definition with_name (p : pure_path) (n : string) : result pure_path :=
  if String.eqb n "" || has_sep n || String.eqb n "." then Raise ValueError
  else if String.eqb (name p) "" then Raise ValueError
  else Ok (PurePath (parents p) n).

(** [p.with_suffix(sfx)]: [ValueError] for an invalid suffix, and for a
    path without a name; the suffix replaces the one of the name, or is
    added to a name that has none. *)
Definition with_suffix (p : pure_path) (sfx : string) : result pure_path :=
  if has_sep sfx
     || (negb (String.eqb sfx "") && negb (String.prefix "." sfx))
     || String.eqb sfx "."
  then Raise ValueError
  else if String.eqb (name p) "" then Raise ValueError
  else Ok (PurePath (parents p) (stem p +:+ sfx)).

End Pathlib.
Import Pathlib.

(** ** scripts/extract_audio.py *)

Module ExtractAudio.

(** The extension of a codec:
    [{"aac": "m4a", "mp3": "mp3", "flac": "flac", "opus": "opus"}.get(codec, "m4a")] *)
Definition extension (codec : string) : string :=
  if String.eqb codec "aac" then "m4a"
  else if String.eqb codec "mp3" then "mp3"
  else if String.eqb codec "flac" then "flac"
  else if String.eqb codec "opus" then "opus"
  else "m4a".

(** [_default_output(input_path, codec)] *)
Definition _default_output (input_path : pure_path) (codec : string) : result pure_path :=
  let ext := extension codec in
  with_suffix input_path ("." +:+ ext).

End ExtractAudio.

(** ** More of scripts/compress_video_to_size.py *)

Module CompressMore.
Import Compress.

(** What a command of the retry loop is expected to ask of the encoder,
    for the options [a] and the paths of the call: a video bitrate of at
    least 200k, a maximum rate not below it, a buffer of twice the video
    bitrate, and the options' audio bitrate and preset. *)
Definition well_formed_cmd (a : args) (in_path out_path : path) (cmd : ffmpeg_cmd) : Prop :=
  (200 ≤ b_v cmd)%Z ∧ (b_v cmd ≤ maxrate cmd)%Z ∧ bufsize cmd = (2 * b_v cmd)%Z ∧
  b_a cmd = audio_bitrate a ∧ cmd_preset cmd = preset a ∧
  cmd_input cmd = in_path ∧ cmd_output cmd = out_path.

(** [_default_output(input_path)] *)
Definition _default_output (input_path : pure_path) : result pure_path :=
  with_name input_path (stem input_path +:+ "_compressed.mp4").

End CompressMore.

(** ** The tail of [main] of tikhub_wechat_channels.py: download, metadata,
       deobfuscation *)

Module Pipeline.

(** How a run of the tail ends: [main] returns, it raises, or (not a
    Python outcome) a loop of the model was cut short. *)
Inductive ending :=
  | Returned
  | Raised (f : failure)
  | Cut.

Definition ending_of {A} (r : result A) : ending :=
  match r with
  | Ok _ => Returned
  | Raise e => Raised (Exn e)
  | OutOfFuel => Cut
  end.

(** The two switches of the command line that the tail reads. *)
Record options := Options {
  skip_download : bool;
  skip_decrypt : bool;
}.

Section Tail.

(** Outside the program: the text of a value in an f-string; the path
    [outdir / name]; [datetime.fromtimestamp(ts, tz=timezone.utc)] followed
    by [strftime], which raises on a value that is not a number or is out
    of range; and [json.dumps(meta, ensure_ascii=False, indent=2)] in
    UTF-8. *)
Variable format_value : json → string.
Variable in_outdir : string → path.
Variable strftime_utc : json → outcome string.
Variable dumps : list (string * json) → bytes.

(** [_human_time(ts)] *)
Definition _human_time (ts : json) : outcome string :=
  if negb (truthy ts) then Done "" else strftime_utc ts.

(** [outdir / f"{latest_id}_encrypted.mp4"] and the two other paths. *)
Definition enc_path (m : selection) : path :=
  in_outdir (format_value (sel_latest_id m) +:+ "_encrypted.mp4").

Definition dec_path (m : selection) : path :=
  in_outdir (format_value (sel_latest_id m) +:+ "_decrypted.mp4").

Definition meta_path (m : selection) : path :=
  in_outdir (format_value (sel_latest_id m) +:+ "_meta.json").

(** The dict [meta], in the order of its keys. *)
Definition meta (username : json) (m : selection) (createtime_utc : string)
    : list (string * json) :=
  [("username", username);
   ("latest_id", sel_latest_id m);
   ("description", sel_desc m);
   ("createtime", sel_createtime m);
   ("createtime_utc", JStr createtime_utc);
   ("decode_key", sel_decode_key m);
   ("url", sel_url m);
   ("url_token", sel_url_token m)].

(** The download step:
<<
    if args.skip_download:
        if not enc_path.exists():
            raise RuntimeError(f"Encrypted file not found: {enc_path}")
    else:
        _download_file(full_url, enc_path)
>>
    [download] is the reply to the streaming request for [full_url]. *)
Definition fetch_step (o : options) (m : selection) (download : stream_response)
    (d : disk) : ending * disk :=
  if skip_download o then
    if negb (dict_contains d (enc_path m))
    then (Raised (RuntimeError' (Encrypted_file_not_found (enc_path m))), d)
    else (Returned, d)
  else
    let '(r, d1) := _download_file download (enc_path m) d in
    (ending_of r, d1).

(** [main] from the report on the latest video to its end: the creation
    time is formatted for the report, the file is downloaded or looked up,
    the metadata are written with [meta_path.write_text], and unless
    [--skip-decrypt] is given the keystream is requested ([keystream_resp]
    is the reply) and the file deobfuscated into [dec_path].  What is
    printed is left out. *)
Definition main_tail (o : options) (username : json) (m : selection)
    (download : stream_response) (keystream_resp : response) (d : disk)
    : ending * disk :=
  match _human_time (sel_createtime m) with
  | Fail f => (Raised f, d)
  | Done _ =>
      match fetch_step o m download d with
      | (Returned, d1) =>
          match _human_time (sel_createtime m) with
          | Fail f => (Raised f, d1)
          | Done createtime_utc =>
              let d2 := <[meta_path m := dumps (meta username m createtime_utc)]> d1 in
              if skip_decrypt o then (Returned, d2)
              else
                match _fetch_keystream keystream_resp with
                | Fail f => (Raised f, d2)
                | Done keystream =>
                    let '(r, d3) := _decrypt_file (enc_path m) (dec_path m) keystream d2 in
                    (ending_of r, d3)
                end
          end
      | (stopped, d1) => (stopped, d1)
      end
  end.

End Tail.

End Pipeline.

(** ** The search of [main] of tikhub_wechat_channels.py: from the results
       to the username *)

Module Search.

(** A [result] as an [outcome]; [None] for a loop cut short. *)
Definition outcome_of {A} (r : result A) : option (outcome A) :=
  match r with
  | Ok a => Some (Done a)
  | Raise e => Some (Fail (Exn e))
  | OutOfFuel => None
  end.

(** The body of the loop that lists the results, without what it prints:
<<
            contact = item.get("contact", {})
            nickname = contact.get("nickname")
            uname = contact.get("username")
            signature = (contact.get("signature") or "").replace("\n", " ")[:60]
>> *)
Definition list_entry (item : json) : outcome unit :=
  contact ← py_get item "contact" (JObj ∅);
  nickname ← py_get contact "nickname" JNull;
  uname ← py_get contact "username" JNull;
  signature ← py_get contact "signature" JNull;
  signature ← py_replace_newlines (py_or signature (JStr ""));
  Done tt.

(** [for i, item in enumerate(items): ...] *)
Fixpoint list_entries (items : list json) : outcome unit :=
  match items with
  | [] => Done tt
  | item :: items' => list_entry item;; list_entries items'
  end.

(** The search of [main] from the list [data] of the results to the
    username:
<<
        for i, item in enumerate(data[:10]):
            ...
        user = _select_user(data, args.user_index)
        username = user.get("contact", {}).get("username")
        if not username:
            raise RuntimeError("Selected user has no username")
>> *)
Definition select_username (data : list json) (user_index : Z) : option (outcome json) :=
  match list_entries (take 10 data) with
  | Fail f => Some (Fail f)
  | Done _ =>
      user ← outcome_of (_select_user data user_index);
      Some (user ← user;
            contact ← py_get user "contact" (JObj ∅);
            username ← py_get contact "username" JNull;
            if negb (truthy username)
            then Fail (RuntimeError' Selected_user_has_no_username)
            else Done username)
  end.

(** *** The notions the properties below are stated with *)

(** An entry that the listing can print: an object whose ["contact"] is
    absent or an object, the ["signature"] of which is absent, falsy or a
    string. *)
Definition listable (item : json) : Prop :=
  ∃ entry, item = JObj entry ∧
    (entry !! "contact" = None ∨
     ∃ contact, entry !! "contact" = Some (JObj contact) ∧
       ∀ signature, contact !! "signature" = Some signature →
         truthy signature = true → ∃ s, signature = JStr s).

End Search.

(** * Properties *)

(** ** Slices, bytes and XOR *)

Section Slices.
Context {A : Type}.
Implicit Types l : list A.

Lemma slice_to_take (n : N) l : slice_to n l = take (N.to_nat n) l.
Proof.
  revert n; induction l as [|x l IH]; intros n; simpl.
  - by rewrite take_nil.
  - destruct (N.eqb_spec n 0) as [->|Hn]; [done|].
    replace (N.to_nat n) with (S (N.to_nat (N.pred n))) by lia.
    simpl. by rewrite IH.
Qed.

Lemma slice_from_drop (n : N) l : slice_from n l = drop (N.to_nat n) l.
Proof.
  revert n; induction l as [|x l IH]; intros n; simpl.
  - by rewrite drop_nil.
  - destruct (N.eqb_spec n 0) as [->|Hn]; [done|].
    replace (N.to_nat n) with (S (N.to_nat (N.pred n))) by lia.
    simpl. by rewrite IH.
Qed.

Lemma is_empty_true l : is_empty l = true ↔ l = [].
Proof. by destruct l. Qed.

Lemma is_empty_false l : is_empty l = false ↔ l ≠ [].
Proof. by destruct l. Qed.

Lemma len_to_nat l : N.to_nat (len l) = length l.
Proof. unfold len. lia. Qed.
End Slices.

Lemma lxor_byte_bound (a b : byte) : (N.lxor (Byte.to_N a) (Byte.to_N b) ≤ 255)%N.
Proof.
  pose proof (Byte.to_N_bounded a) as Ha. pose proof (Byte.to_N_bounded b) as Hb.
  set (x := Byte.to_N a) in *. set (y := Byte.to_N b) in *.
  destruct (N.eq_dec (N.lxor x y) 0%N) as [->|Hne]; [lia|].
  assert (N.log2 (N.lxor x y) < 8)%N as Hlog.
  { pose proof (N.log2_lxor x y) as Hl.
    assert (N.log2 x < 8)%N.
    { destruct (N.eq_dec x 0%N) as [->|?]; [done|]. apply N.log2_lt_pow2; lia. }
    assert (N.log2 y < 8)%N.
    { destruct (N.eq_dec y 0%N) as [->|?]; [done|]. apply N.log2_lt_pow2; lia. }
    lia. }
  apply N.log2_lt_pow2 in Hlog; lia.
Qed.

Lemma of_N_lxor (a b : byte) :
  Byte.of_N (N.lxor (Byte.to_N a) (Byte.to_N b)) = Some (xor_byte a b).
Proof.
  unfold xor_byte.
  pose proof (Byte.to_of_N_option_map (N.lxor (Byte.to_N a) (Byte.to_N b))) as H.
  pose proof (lxor_byte_bound a b) as Hb.
  destruct (N.leb_spec (N.lxor (Byte.to_N a) (Byte.to_N b)) 255); [|lia].
  destruct (Byte.of_N _); [done | discriminate].
Qed.

Lemma to_N_xor_byte (a b : byte) :
  Byte.to_N (xor_byte a b) = N.lxor (Byte.to_N a) (Byte.to_N b).
Proof. apply Byte.to_of_N, of_N_lxor. Qed.

Lemma xor_byte_involutive (a b : byte) : xor_byte (xor_byte a b) b = a.
Proof.
  pose proof (of_N_lxor (xor_byte a b) b) as H.
  rewrite to_N_xor_byte, N.lxor_assoc, N.lxor_nilpotent, N.lxor_0_r, Byte.of_to_N in H.
  congruence.
Qed.

(** The [bytes] constructor never fails on the XOR of two [bytes]. *)
Lemma bytes_of_ints_xor (head keystream : bytes) :
  bytes_of_ints (zip_with (λ a b, N.lxor (Byte.to_N a) (Byte.to_N b)) head keystream)
  = Ok (xor_bytes head keystream).
Proof.
  unfold bytes_of_ints, xor_bytes.
  replace (mapM Byte.of_N (zip_with (λ a b, N.lxor (Byte.to_N a) (Byte.to_N b)) head keystream))
    with (Some (zip_with xor_byte head keystream)); [done|].
  symmetry. apply mapM_Some.
  revert keystream; induction head as [|a head IH]; intros [|b keystream]; simpl;
    try constructor; auto using of_N_lxor.
Qed.

Lemma xor_bytes_length (head keystream : bytes) :
  length (xor_bytes head keystream) = length head `min` length keystream.
Proof. apply length_zip_with. Qed.

Lemma xor_bytes_involutive (head keystream : bytes) :
  length head ≤ length keystream →
  xor_bytes (xor_bytes head keystream) keystream = head.
Proof.
  unfold xor_bytes.
  revert keystream; induction head as [|a head IH]; intros [|b keystream] Hlen;
    simpl in *; try done; try lia.
  rewrite xor_byte_involutive, IH; [done | lia].
Qed.

(** ** The deobfuscation of a file *)

Lemma CHUNK_pos : 0 < N.to_nat CHUNK.
Proof. unfold CHUNK. lia. Qed.

Lemma take_nil_inv {A} (n : nat) (l : list A) : 0 < n → take n l = [] → l = [].
Proof. destruct n, l; simpl; intros; (done || lia). Qed.

Lemma drop_length_take {A} (n : nat) (l : list A) : drop (length (take n l)) l = drop n l.
Proof.
  rewrite length_take. destruct (Nat.le_gt_cases n (length l)).
  - by rewrite Nat.min_l.
  - rewrite Nat.min_r by lia. by rewrite !drop_ge by lia.
Qed.

(** The monad's bind, and the two file operations on a state whose files
    are known. *)
Lemma bind_run {S A B} (m : IO S A) (f : A → IO S B) (s : S) :
  (m ≫= f) s = match m s with
               | (Ok a, s') => f a s'
               | (Raise e, s') => (Raise e, s')
               | (OutOfFuel, s') => (OutOfFuel, s')
               end.
Proof. reflexivity. Qed.

Lemma fin_read_run (n : N) (d : disk) (enc out : path) (pos : N) (C : bytes) :
  d !! enc = Some C →
  fin_read n (Handles d enc pos out)
  = (Ok (take (N.to_nat n) (drop (N.to_nat pos) C)),
     Handles d enc (pos + len (take (N.to_nat n) (drop (N.to_nat pos) C))) out).
Proof.
  intros Henc. unfold fin_read, content. cbn [files fin_path fin_pos fout_path].
  rewrite Henc. cbn [default]. by rewrite slice_to_take, slice_from_drop.
Qed.

Lemma fout_write_run (buf : bytes) (d : disk) (enc out : path) (pos : N) (W : bytes) :
  d !! out = Some W →
  fout_write buf (Handles d enc pos out) = (Ok tt, Handles (<[out := W ++ buf]> d) enc pos out).
Proof.
  intros Hout. unfold fout_write, modify, append_file, content.
  cbn [files fin_path fin_pos fout_path]. by rewrite Hout.
Qed.

(** The copy loop appends everything from the read offset on to the
    output file, whatever the chunk size, once the fuel exceeds the number
    of bytes left. *)
Lemma copy_loop_spec (fuel : nat) :
  ∀ (d : disk) (enc out : path) (pos : N) (C W : bytes),
    enc ≠ out → d !! enc = Some C → d !! out = Some W →
    length (drop (N.to_nat pos) C) < fuel →
    ∃ pos', copy_loop fuel (Handles d enc pos out)
            = (Ok tt, Handles (<[out := W ++ drop (N.to_nat pos) C]> d) enc pos' out).
Proof.
  induction fuel as [|fuel IH]; intros d enc out pos C W Hne Henc Hout Hfuel; [lia|].
  cbn [copy_loop]. rewrite bind_run, (fin_read_run _ _ _ _ _ C Henc).
  pose proof CHUNK_pos as Hn. revert Hn. generalize (N.to_nat CHUNK) as n. intros n Hn.
  destruct (take n (drop (N.to_nat pos) C)) as [|b buf] eqn:Hbuf.
  - apply take_nil_inv in Hbuf; [|done]. rewrite Hbuf, app_nil_r.
    cbn. eexists. by rewrite insert_id.
  - cbn [is_empty]. rewrite bind_run, (fout_write_run _ _ _ _ _ W Hout).
    assert (drop (N.to_nat pos) C = (b :: buf) ++ drop (N.to_nat (pos + len (b :: buf))) C) as Hsplit.
    { rewrite N2Nat.inj_add, len_to_nat, <- drop_drop, <- Hbuf.
      by rewrite drop_length_take, take_drop. }
    destruct (IH (<[out := W ++ b :: buf]> d) enc out (pos + len (b :: buf))%N C (W ++ b :: buf))
      as [pos' Hloop].
    + done.
    + by rewrite lookup_insert_ne.
    + by rewrite lookup_insert_eq.
    + rewrite Hsplit in Hfuel. rewrite length_app in Hfuel. simpl in Hfuel. lia.
    + exists pos'. rewrite Hloop. rewrite insert_insert_eq.
      rewrite (Hsplit : drop (N.to_nat pos) C = _), <- app_assoc. done.
Qed.

(** [_decrypt_file] on an existing ciphertext file and a distinct output
    path: the two outcomes, and the disk it leaves. *)
Lemma decrypt_file_spec (d : disk) (enc out : path) (K C : bytes) :
  d !! enc = Some C → enc ≠ out →
  _decrypt_file enc out K d =
    if is_empty (take (length K) C)
    then (Raise (RuntimeError Encrypted_file_is_empty), <[out := []]> d)
    else (Ok tt, <[out := deobfuscated C K]> d).
Proof.
  intros Henc Hne. unfold _decrypt_file. rewrite Henc.
  assert (<[out := []]> d !! enc = Some C) as Henc' by by rewrite lookup_insert_ne.
  unfold decrypt_body. rewrite bind_run, (fin_read_run _ _ _ _ _ C Henc').
  rewrite len_to_nat. change (N.to_nat 0) with 0%nat. rewrite drop_0.
  destruct (take (length K) C) as [|b head] eqn:Hhead; [reflexivity|].
  cbn [is_empty]. rewrite bind_run. unfold lift. rewrite bytes_of_ints_xor.
  rewrite bind_run, (fout_write_run _ _ _ _ _ []) by by rewrite lookup_insert_eq.
  cbn [app]. rewrite insert_insert_eq.
  assert (drop (N.to_nat (0 + len (b :: head))) C = drop (length K) C) as Hpos.
  { by rewrite N.add_0_l, len_to_nat, <- Hhead, drop_length_take. }
  destruct (copy_loop_spec (S (length C)) (<[out := xor_bytes (b :: head) K]> d) enc out
              (0 + len (b :: head)) C (xor_bytes (b :: head) K)) as [pos' Hloop].
  - done.
  - by rewrite lookup_insert_ne.
  - by rewrite lookup_insert_eq.
  - rewrite length_drop. lia.
  - rewrite Hloop. cbn [files]. rewrite insert_insert_eq, Hpos. by rewrite <- Hhead.
Qed.

(** With the output path equal to the input path, opening the output
    truncates the file before the first read. *)
Lemma decrypt_file_same_path (d : disk) (p : path) (K C : bytes) :
  d !! p = Some C →
  _decrypt_file p p K d = (Raise (RuntimeError Encrypted_file_is_empty), <[p := []]> d).
Proof.
  intros Henc. unfold _decrypt_file. rewrite Henc.
  unfold decrypt_body. rewrite bind_run, (fin_read_run _ _ _ _ _ []) by by rewrite lookup_insert_eq.
  change (N.to_nat 0) with 0%nat. rewrite drop_0, take_nil. done.
Qed.

(** [_decrypt_file] always ends: the fuel of its copy loop never runs out. *)
Lemma decrypt_file_total (d : disk) (enc out : path) (K : bytes) :
  (_decrypt_file enc out K d).1 ≠ OutOfFuel.
Proof.
  destruct (d !! enc) as [C|] eqn:Henc.
  - destruct (decide (enc = out)) as [<-|Hne].
    + by rewrite (decrypt_file_same_path d enc K C).
    + rewrite (decrypt_file_spec d enc out K C) by done.
      by destruct (is_empty _).
  - unfold _decrypt_file. by rewrite Henc.
Qed.

Lemma deobfuscated_covered (C K : bytes) :
  length K ≤ length C →
  take (length K) (deobfuscated C K) = xor_bytes (take (length K) C) K ∧
  drop (length K) (deobfuscated C K) = drop (length K) C.
Proof.
  intros Hlen. unfold deobfuscated.
  assert (length (xor_bytes (take (length K) C) K) = length K) as Hx.
  { rewrite xor_bytes_length, length_take. lia. }
  split.
  - rewrite <- Hx at 1. by rewrite take_app_length.
  - rewrite <- Hx at 1. by rewrite drop_app_length.
Qed.

Lemma deobfuscated_twice (C K : bytes) :
  length K ≤ length C → deobfuscated (deobfuscated C K) K = C.
Proof.
  intros Hlen. destruct (deobfuscated_covered C K Hlen) as [Htake Hdrop].
  unfold deobfuscated at 1. rewrite Htake, Hdrop.
  rewrite xor_bytes_involutive by (rewrite length_take; lia).
  apply take_drop.
Qed.

Lemma deobfuscated_short (C K : bytes) :
  length C ≤ length K → deobfuscated C K = xor_bytes C K.
Proof.
  intros Hlen. unfold deobfuscated.
  rewrite take_ge, drop_ge by lia. apply app_nil_r.
Qed.

Lemma deobfuscated_length (C K : bytes) : length (deobfuscated C K) = length C.
Proof.
  unfold deobfuscated. rewrite length_app, xor_bytes_length, length_take, length_drop. lia.
Qed.

(** C1: for an existing ciphertext file at least as long as a non-empty
    keystream, two passes of [_decrypt_file] with that keystream (the
    second one reading the output of the first) both succeed; the result of
    the second pass agrees with the ciphertext on the first [len(K)] bytes
    (it is the ciphertext), and each pass copies the bytes from offset
    [len(K)] on unchanged. *)
Theorem decrypt_twice_restores (d : disk) (enc mid out : path) (C K : bytes) :
  d !! enc = Some C → enc ≠ mid → mid ≠ out →
  0 < length K → length K ≤ length C →
  ∃ P C' : bytes,
    _decrypt_file enc mid K d = (Ok tt, <[mid := P]> d) ∧
    _decrypt_file mid out K (<[mid := P]> d) = (Ok tt, <[out := C']> (<[mid := P]> d)) ∧
    take (length K) C' = take (length K) C ∧
    drop (length K) P = drop (length K) C ∧
    drop (length K) C' = drop (length K) P ∧
    C' = C.
Proof.
  intros Henc Hne1 Hne2 HK Hlen.
  exists (deobfuscated C K), C.
  assert (∀ X : bytes, length K ≤ length X → is_empty (take (length K) X) = false) as Hhead.
  { intros X HX. apply is_empty_false. intros Hnil.
    apply (f_equal length) in Hnil. rewrite length_take in Hnil. simpl in Hnil. lia. }
  destruct (deobfuscated_covered C K Hlen) as [_ Hdrop].
  repeat split; try done.
  - rewrite (decrypt_file_spec d enc mid K C Henc Hne1). by rewrite Hhead.
  - rewrite (decrypt_file_spec _ mid out K (deobfuscated C K)); [|by rewrite lookup_insert_eq|done].
    rewrite Hhead by (rewrite deobfuscated_length; lia).
    by rewrite deobfuscated_twice.
Qed.

Lemma decrypt_twice_restores_witness :
  ∃ P C' : bytes,
    _decrypt_file "v_encrypted.mp4" "v_decrypted.mp4" [x5a; xc3]%byte
      {["v_encrypted.mp4" := [x00; xff; x10; x20]%byte]}
    = (Ok tt, <["v_decrypted.mp4" := P]> {["v_encrypted.mp4" := [x00; xff; x10; x20]%byte]}) ∧
    _decrypt_file "v_decrypted.mp4" "v_again.mp4" [x5a; xc3]%byte
      (<["v_decrypted.mp4" := P]> {["v_encrypted.mp4" := [x00; xff; x10; x20]%byte]})
    = (Ok tt, <["v_again.mp4" := C']>
                (<["v_decrypted.mp4" := P]> {["v_encrypted.mp4" := [x00; xff; x10; x20]%byte]})) ∧
    take 2 C' = take 2 [x00; xff; x10; x20]%byte ∧
    drop 2 P = drop 2 [x00; xff; x10; x20]%byte ∧
    drop 2 C' = drop 2 P ∧
    C' = [x00; xff; x10; x20]%byte.
Proof.
  apply (decrypt_twice_restores
           {["v_encrypted.mp4" := [x00; xff; x10; x20]%byte]}
           "v_encrypted.mp4" "v_decrypted.mp4" "v_again.mp4"
           [x00; xff; x10; x20]%byte [x5a; xc3]%byte).
  - reflexivity.
  - discriminate.
  - discriminate.
  - simpl; lia.
  - simpl; lia.
Defined.

(** C2, as stated, fails on the empty file: it is strictly shorter than
    any non-empty keystream, and [_decrypt_file] raises on it. *)
Lemma decrypt_short_file_counterexample :
  length ([] : bytes) < length [x5a]%byte ∧
  _decrypt_file "v_encrypted.mp4" "v_decrypted.mp4" [x5a]%byte {["v_encrypted.mp4" := []]}
  = (Raise (RuntimeError Encrypted_file_is_empty),
     {["v_encrypted.mp4" := []; "v_decrypted.mp4" := []]}).
Proof. split; [simpl; lia | vm_compute; reflexivity]. Qed.

(** C2 (amended): for a non-empty ciphertext file strictly shorter than
    the keystream, [_decrypt_file] raises nothing and writes an output of
    exactly the length of the ciphertext, whose byte at each position is
    the XOR of the ciphertext byte and the keystream byte at that
    position. *)
Theorem decrypt_short_file (d : disk) (enc out : path) (C K : bytes) :
  d !! enc = Some C → enc ≠ out →
  C ≠ [] → length C < length K →
  ∃ P : bytes,
    _decrypt_file enc out K d = (Ok tt, <[out := P]> d) ∧
    length P = length C ∧
    ∀ i, i < length C →
      ∃ a k p, C !! i = Some a ∧ K !! i = Some k ∧ P !! i = Some p ∧
               Byte.to_N p = N.lxor (Byte.to_N a) (Byte.to_N k).
Proof.
  intros Henc Hne HC Hlen. exists (xor_bytes C K). split; [|split].
  - rewrite (decrypt_file_spec d enc out K C Henc Hne).
    rewrite take_ge by lia. apply is_empty_false in HC. rewrite HC.
    by rewrite deobfuscated_short by lia.
  - rewrite xor_bytes_length. lia.
  - intros i Hi.
    destruct (lookup_lt_is_Some_2 C i Hi) as [a Ha].
    destruct (lookup_lt_is_Some_2 K i ltac:(lia)) as [k Hk].
    exists a, k, (xor_byte a k). repeat split; try done.
    + unfold xor_bytes. rewrite lookup_zip_with, Ha. simpl. by rewrite Hk.
    + apply to_N_xor_byte.
Qed.

Lemma decrypt_short_file_witness :
  ∃ P : bytes,
    _decrypt_file "v_encrypted.mp4" "v_decrypted.mp4" [x5a; xc3; x0f]%byte
      {["v_encrypted.mp4" := [x11; x22]%byte]}
    = (Ok tt, <["v_decrypted.mp4" := P]> {["v_encrypted.mp4" := [x11; x22]%byte]}) ∧
    length P = 2 ∧
    ∀ i, i < 2 →
      ∃ a k p, [x11; x22]%byte !! i = Some a ∧ [x5a; xc3; x0f]%byte !! i = Some k ∧
               P !! i = Some p ∧ Byte.to_N p = N.lxor (Byte.to_N a) (Byte.to_N k).
Proof.
  apply (decrypt_short_file {["v_encrypted.mp4" := [x11; x22]%byte]}
           "v_encrypted.mp4" "v_decrypted.mp4" [x11; x22]%byte [x5a; xc3; x0f]%byte).
  - reflexivity.
  - discriminate.
  - discriminate.
  - simpl; lia.
Defined.

(** C10: on an existing ciphertext file and a distinct output path,
    [_decrypt_file] raises "Encrypted file is empty" exactly when the
    first read, of [len(keystream)] bytes, returns no byte, which is
    exactly when the file is empty or the keystream is; so a non-empty
    file with an empty keystream fails and is not copied through; and
    when it fails the output file has been created and is empty, the rest
    of the disk being as before. *)
Theorem decrypt_empty_input (d : disk) (enc out : path) (C K : bytes) :
  d !! enc = Some C → enc ≠ out →
  let first_read := fst (fin_read (len K) (Handles (<[out := []]> d) enc 0 out)) in
  let outcome := _decrypt_file enc out K d in
  (outcome.1 = Raise (RuntimeError Encrypted_file_is_empty) ↔ first_read = Ok []) ∧
  (first_read = Ok [] ↔ C = [] ∨ K = []) ∧
  (C ≠ [] → K = [] →
     outcome = (Raise (RuntimeError Encrypted_file_is_empty), <[out := []]> d)) ∧
  (outcome.1 = Raise (RuntimeError Encrypted_file_is_empty) → outcome.2 = <[out := []]> d) ∧
  (outcome.1 ≠ Raise (RuntimeError Encrypted_file_is_empty) →
     outcome = (Ok tt, <[out := deobfuscated C K]> d)).
Proof.
  intros Henc Hne first_read outcome.
  assert (first_read = Ok (take (length K) C)) as Hread.
  { unfold first_read. rewrite (fin_read_run _ _ _ _ _ C) by by rewrite lookup_insert_ne.
    by rewrite len_to_nat. }
  assert (take (length K) C = [] ↔ C = [] ∨ K = []) as Hnil.
  { destruct C as [|c C], K as [|k K]; simpl; split; intros H; try done; auto;
      by destruct H. }
  assert (outcome = if is_empty (take (length K) C)
                    then (Raise (RuntimeError Encrypted_file_is_empty), <[out := []]> d)
                    else (Ok tt, <[out := deobfuscated C K]> d)) as Hout
    by (apply decrypt_file_spec; done).
  rewrite Hread, Hout. clear Hread Hout first_read outcome.
  destruct (take (length K) C) as [|b head] eqn:Hhead; cbn [is_empty fst snd].
  - repeat split; try done. intros _. by apply Hnil.
  - repeat split; try done.
    + intros [-> | ->]; [by rewrite take_nil in Hhead | by rewrite take_0 in Hhead].
    + intros _ ->. by rewrite take_0 in Hhead.
Qed.

Lemma decrypt_empty_input_witness :
  let d : disk := {["v_encrypted.mp4" := [x11; x22]%byte]} in
  let first_read := fst (fin_read (len (@nil byte))
                      (Handles (<["v_decrypted.mp4" := []]> d) "v_encrypted.mp4" 0 "v_decrypted.mp4")) in
  let outcome := _decrypt_file "v_encrypted.mp4" "v_decrypted.mp4" [] d in
  (outcome.1 = Raise (RuntimeError Encrypted_file_is_empty) ↔ first_read = Ok []) ∧
  (first_read = Ok [] ↔ [x11; x22]%byte = [] ∨ @nil byte = []) ∧
  ([x11; x22]%byte ≠ [] → @nil byte = [] →
     outcome = (Raise (RuntimeError Encrypted_file_is_empty), <["v_decrypted.mp4" := []]> d)) ∧
  (outcome.1 = Raise (RuntimeError Encrypted_file_is_empty) →
     outcome.2 = <["v_decrypted.mp4" := []]> d) ∧
  (outcome.1 ≠ Raise (RuntimeError Encrypted_file_is_empty) →
     outcome = (Ok tt, <["v_decrypted.mp4" := deobfuscated [x11; x22]%byte []]> d)).
Proof.
  apply (decrypt_empty_input {["v_encrypted.mp4" := [x11; x22]%byte]}
           "v_encrypted.mp4" "v_decrypted.mp4" [x11; x22]%byte []).
  - reflexivity.
  - discriminate.
Defined.

(** ** The catalog client *)

Lemma eq_int_200 (v : json) :
  eq_int v 200 = true ↔ v = JInt 200 ∨ ∃ q, v = JFloat q ∧ (q == 200)%Q.
Proof.
  destruct v as [|[]|z|q|s|l|d]; simpl; split; try done.
  all: try (intros [H | (q' & H & _)]; discriminate).
  - intros H%Z.eqb_eq. left. by subst.
  - intros [[= ->] | (q' & H & _)]; [done | discriminate].
  - intros H%Qeq_bool_iff. right. by exists q.
  - intros [H | (q' & [= ->] & H)]; [discriminate | by apply Qeq_bool_iff].
Qed.

Lemma code_check (data : gmap string json) :
  from_option (λ v, eq_int v 200) false (data !! "code") = true ↔ code_is_200 data.
Proof.
  unfold code_is_200. destruct (data !! "code") as [v|]; simpl.
  - rewrite eq_int_200. split; [intros H; by exists v | by intros (v' & [= <-] & H)].
  - split; [done | by intros (v' & ? & _)].
Qed.

Lemma substring_prefix (n : nat) (s : string) :
  String.length (String.substring 0 n s) ≤ n ∧
  ∃ rest, s = String.substring 0 n s +:+ rest.
Proof.
  revert s; induction n as [|n IH]; intros s.
  - destruct s; simpl; (split; [lia | by eexists]).
  - destruct s as [|c s]; simpl.
    + split; [lia | by exists ""].
    + destruct (IH s) as [Hl [rest Hr]]. split; [lia|].
      exists rest. rewrite Hr at 1. reflexivity.
Qed.

(** C7: whatever the response to a catalog request, [_api_get] raises
    with the status code and the first 500 characters of the body when
    the HTTP status is not 200; raises, carrying the parsed body, when the
    status is 200 and the body is a JSON object whose ["code"] is not 200;
    and returns the parsed body only when the status is 200 and the
    ["code"] of the body is 200. *)
Theorem api_get_spec (resp : response) :
  (status_code resp ≠ 200%Z →
     _api_get resp
     = Raise (RuntimeError (HTTP_status (status_code resp) (String.substring 0 500 (text resp))))
     ∧ String.length (String.substring 0 500 (text resp)) ≤ 500
     ∧ ∃ rest, text resp = String.substring 0 500 (text resp) +:+ rest) ∧
  (status_code resp = 200%Z →
     ∀ data, json_body resp = Some (JObj data) → ¬ code_is_200 data →
       _api_get resp = Raise (RuntimeError (API_error (JObj data)))) ∧
  (∀ data, _api_get resp = Ok data ↔
     status_code resp = 200%Z ∧ json_body resp = Some (JObj data) ∧ code_is_200 data) ∧
  ((∃ e, _api_get resp = Raise e) ∨ (∃ data, _api_get resp = Ok data)).
Proof.
  unfold _api_get. destruct (Z.eqb_spec (status_code resp) 200) as [Hs|Hs]; cbn [negb].
  - split; [done|]. split; [|split].
    + intros _ data -> Hcode. rewrite <- code_check in Hcode.
      apply not_true_iff_false in Hcode. by rewrite Hcode.
    + intros data. destruct (json_body resp) as [[| | | | | |d]|] eqn:Hj;
        try (split; [done | by intros (_ & [=] & _)]).
      destruct (from_option _ false (d !! "code")) eqn:Hc; cbn [negb].
      * apply code_check in Hc. split; [by intros [= <-] | by intros (_ & [= <-] & _)].
      * split; [done|]. intros (_ & [= <-] & Hcode). apply code_check in Hcode. congruence.
    + destruct (json_body resp) as [[| | | | | |d]|]; try (left; by eexists).
      destruct (negb _); [left | right]; by eexists.
  - split_and!.
    + intros _. split; [done|]. apply substring_prefix.
    + done.
    + intros data. split; [done | by intros [? _]].
    + left. by eexists.
Qed.

(** C8: [_get_object_list] returns the value under ["object_list"] when
    that key is present, else the value under ["object"] when that key is
    present, else the empty list; it raises in no case. *)
Theorem get_object_list_spec (home_data : gmap string json) :
  (∀ v, home_data !! "object_list" = Some v → _get_object_list home_data = Ok v) ∧
  (home_data !! "object_list" = None →
     ∀ v, home_data !! "object" = Some v → _get_object_list home_data = Ok v) ∧
  (home_data !! "object_list" = None → home_data !! "object" = None →
     _get_object_list home_data = Ok (JArr [])) ∧
  (∃ v, _get_object_list home_data = Ok v).
Proof.
  unfold _get_object_list, dict_contains, dict_getitem.
  destruct (home_data !! "object_list") as [v1|] eqn:H1;
    [rewrite bool_decide_eq_true_2 by by eexists
    |rewrite bool_decide_eq_false_2 by by intros [? ?]].
  - repeat split; try done; [by intros v [= ->] | by exists v1].
  - destruct (home_data !! "object") as [v2|] eqn:H2;
      [rewrite bool_decide_eq_true_2 by by eexists
      |rewrite bool_decide_eq_false_2 by by intros [? ?]].
    + repeat split; try done; [by intros _ v [= ->] | by exists v2].
    + repeat split; try done. by eexists.
Qed.

(** ** Selection *)

(** C6, as stated, fails on the empty list: index 0 is not below its
    length, but the error raised is "No users found", not the
    out-of-range one. *)
Lemma select_user_counterexample :
  (Z.of_nat (length (@nil (gmap string json))) ≤ 0)%Z ∧
  _select_user (@nil (gmap string json)) 0 = Raise (RuntimeError No_users_found) ∧
  _select_user (@nil (gmap string json)) 0 ≠ Raise (RuntimeError (User_index_out_of_range 0)).
Proof. split; [simpl; lia | split; [reflexivity | discriminate]]. Qed.

(** C6 (amended): [_select_user] fails exactly when the index is negative
    or not below the length of the list.  On a non-empty list the failure
    is the out-of-range error, carrying the index, and otherwise the
    record at that index is returned; on the empty list the failure is
    "No users found" for every index.  Index 5 on a 3-element list raises
    the out-of-range error, and index -1 raises on any list. *)
Theorem select_user_spec {A} (data : list A) (index : Z) :
  ((∃ e, _select_user data index = Raise e) ↔
     (index < 0 ∨ Z.of_nat (length data) ≤ index)%Z) ∧
  (data ≠ [] → (index < 0 ∨ Z.of_nat (length data) ≤ index)%Z →
     _select_user data index = Raise (RuntimeError (User_index_out_of_range index))) ∧
  ((0 ≤ index < Z.of_nat (length data))%Z →
     ∃ x, data !! Z.to_nat index = Some x ∧ _select_user data index = Ok x) ∧
  (data = [] → _select_user data index = Raise (RuntimeError No_users_found)) ∧
  (∀ x y z : A, _select_user [x; y; z] 5 = Raise (RuntimeError (User_index_out_of_range 5))) ∧
  (∃ e, _select_user data (-1) = Raise e).
Proof.
  assert (∀ i, (0 ≤ i < Z.of_nat (length data))%Z →
            ∃ x, data !! Z.to_nat i = Some x ∧ _select_user data i = Ok x) as Hin.
  { intros i Hi.
    destruct (lookup_lt_is_Some_2 data (Z.to_nat i)) as [x Hx]; [lia|].
    exists x. split; [done|].
    unfold _select_user, list_getitem, len.
    replace (is_empty data) with false by (by destruct data).
    replace (i <? 0)%Z with false by (symmetry; apply Z.ltb_ge; lia).
    replace (i >=? Z.of_N (N.of_nat (length data)))%Z with false
      by (symmetry; rewrite Z.geb_leb; apply Z.leb_gt; lia).
    cbn [orb]. replace (i <? 0)%Z with false by (symmetry; apply Z.ltb_ge; lia).
    by rewrite Hx. }
  assert (∀ i, data ≠ [] → (i < 0 ∨ Z.of_nat (length data) ≤ i)%Z →
            _select_user data i = Raise (RuntimeError (User_index_out_of_range i))) as Hout.
  { intros i Hd Hi. unfold _select_user, len.
    replace (is_empty data) with false by (by destruct data).
    replace ((i <? 0)%Z || (i >=? Z.of_N (N.of_nat (length data)))%Z) with true; [done|].
    symmetry. apply orb_true_iff. rewrite Z.geb_leb, Z.ltb_lt, Z.leb_le. lia. }
  assert (data = [] → ∀ i, _select_user data i = Raise (RuntimeError No_users_found)) as Hnil.
  { intros Hd i. by rewrite Hd. }
  split_and!; [split|..].
  - intros [e He].
    destruct (Z.lt_ge_cases index 0); [lia|].
    destruct (Z.lt_ge_cases index (Z.of_nat (length data))); [|lia].
    destruct (Hin index) as (x & _ & Hx); [lia|]. congruence.
  - intros Hi. destruct (decide (data = [])) as [Hd|Hd].
    + eexists. by apply Hnil.
    + eexists. by apply Hout.
  - apply Hout.
  - apply Hin.
  - intros Hd. by apply Hnil.
  - intros x y z. reflexivity.
  - destruct (decide (data = [])) as [Hd|Hd].
    + eexists. by apply Hnil.
    + eexists. apply Hout; [done | lia].
Qed.

Lemma key_timestamp (x : video) : or_0 (get_createtime x) = timestamp_of x.
Proof.
  unfold or_0, get_createtime, timestamp_of.
  destruct (createtime x) as [| |t]; try done.
  destruct (Z.eqb_spec t 0); by subst.
Qed.

(** The running maximum ends on the first item of greatest key. *)
Lemma max_from_spec {A} (key : A → Z) (l : list A) :
  ∀ best : A,
    ∃ i, (best :: l) !! i = Some (max_from key best l) ∧
         (∀ j y, (best :: l) !! j = Some y → (key y ≤ key (max_from key best l))%Z) ∧
         (∀ j y, j < i → (best :: l) !! j = Some y → (key y < key (max_from key best l))%Z).
Proof.
  induction l as [|x l IH]; intros best.
  - exists 0. split_and!; [done| |intros; lia].
    intros [|j] y Hy; simplify_eq/=; lia.
  - cbn [max_from]. destruct (Z.ltb_spec (key best) (key x)) as [Hlt|Hge].
    + destruct (IH x) as (i & Hi & Hall & Hbefore). exists (S i). split_and!.
      * done.
      * intros [|j] y Hy; simplify_eq/=.
        -- specialize (Hall 0 x eq_refl). lia.
        -- by apply (Hall j).
      * intros [|j] y Hj Hy; simplify_eq/=.
        -- specialize (Hall 0 x eq_refl). lia.
        -- apply (Hbefore j); [lia | done].
    + destruct (IH best) as (i & Hi & Hall & Hbefore).
      exists (match i with 0 => 0 | S i' => S (S i') end). split_and!.
      * by destruct i.
      * intros [|[|j]] y Hy; simplify_eq/=.
        -- by apply (Hall 0).
        -- specialize (Hall 0 best eq_refl). lia.
        -- by apply (Hall (S j)).
      * intros [|[|j]] y Hj Hy; destruct i as [|i]; simplify_eq/=; try lia.
        -- apply (Hbefore 0); [lia | done].
        -- specialize (Hbefore 0 best ltac:(lia) eq_refl). lia.
        -- apply (Hbefore (S j)); [lia | done].
Qed.

(** C5: on a non-empty list [select_latest] returns the first record of
    greatest timestamp, an absent, [null] or zero [createtime] counting
    as 0; over the timestamps 5, 9, 3 this is the record of timestamp 9;
    when every timestamp is zero or missing it is the first record; on
    the empty list it raises "No videos found". *)
Theorem select_latest_spec :
  (∀ (v : video) (vs : list video),
     ∃ i x, (v :: vs) !! i = Some x ∧ select_latest (v :: vs) = Ok x ∧
            (∀ j y, (v :: vs) !! j = Some y → (timestamp_of y ≤ timestamp_of x)%Z) ∧
            (∀ j y, j < i → (v :: vs) !! j = Some y → (timestamp_of y < timestamp_of x)%Z)) ∧
  (∀ x, createtime x = Absent ∨ createtime x = Null ∨ createtime x = Stamp 0 →
        timestamp_of x = 0%Z) ∧
  (∀ a b c, select_latest [Video a (Stamp 5); Video b (Stamp 9); Video c (Stamp 3)]
            = Ok (Video b (Stamp 9))) ∧
  (∀ (v : video) (vs : list video),
     (∀ y, y ∈ v :: vs → createtime y = Absent ∨ createtime y = Null ∨ createtime y = Stamp 0) →
     select_latest (v :: vs) = Ok v) ∧
  select_latest [] = Raise (RuntimeError No_videos_found).
Proof.
  assert (∀ (v : video) (vs : list video),
     ∃ i x, (v :: vs) !! i = Some x ∧ select_latest (v :: vs) = Ok x ∧
            (∀ j y, (v :: vs) !! j = Some y → (timestamp_of y ≤ timestamp_of x)%Z) ∧
            (∀ j y, j < i → (v :: vs) !! j = Some y → (timestamp_of y < timestamp_of x)%Z))
    as Hmax.
  { intros v vs.
    destruct (max_from_spec (λ x, or_0 (get_createtime x)) vs v) as (i & Hi & Hall & Hbefore).
    exists i, (max_from (λ x, or_0 (get_createtime x)) v vs). split_and!; [done..| |].
    - intros j y Hy. rewrite <- !key_timestamp. by apply (Hall j).
    - intros j y Hj Hy. rewrite <- !key_timestamp. by apply (Hbefore j). }
  assert (∀ x, createtime x = Absent ∨ createtime x = Null ∨ createtime x = Stamp 0 →
               timestamp_of x = 0%Z) as Hzero.
  { intros x. unfold timestamp_of. by intros [-> | [-> | ->]]. }
  split_and!; [done | done | done | | done].
  intros v vs Hall.
  destruct (Hmax v vs) as (i & x & Hi & -> & _ & Hbefore).
  destruct i as [|i]; [by simplify_eq/=|].
  specialize (Hbefore 0 v ltac:(lia) eq_refl).
  assert (x ∈ v :: vs) as Hx by by eapply list_elem_of_lookup_2.
  assert (v ∈ v :: vs) as Hv0 by constructor.
  pose proof (Hzero v (Hall v Hv0)) as Hv.
  pose proof (Hzero x (Hall x Hx)) as Hx0. lia.
Qed.

(** ** Download *)

Lemma write_chunks_spec (out : path) (l : list bytes) :
  ∀ (d : disk) (W : bytes),
    d !! out = Some W →
    write_chunks out l d = (Ok tt, <[out := W ++ concat l]> d).
Proof.
  induction l as [|chunk l IH]; intros d W Hout; cbn [write_chunks concat].
  - rewrite app_nil_r, insert_id by done. done.
  - rewrite bind_run. destruct chunk as [|b chunk]; cbn [is_empty].
    + cbn. by apply IH.
    + unfold modify, append_file, content. rewrite Hout. cbn [default].
      rewrite (IH _ (W ++ b :: chunk)) by by rewrite lookup_insert_eq.
      by rewrite insert_insert_eq, <- app_assoc.
Qed.

(** C9, as stated, fails: a successful transfer of three bytes evaluates
    to [None], not to the byte count 3. *)
Lemma download_file_counterexample :
  _download_file (StreamResponse 200 [[x01; x02; x03]%byte] false) "v_encrypted.mp4" ∅
  = (Ok PyNone, {["v_encrypted.mp4" := [x01; x02; x03]%byte]}) ∧
  Ok PyNone ≠ Ok (PyInt 3).
Proof. split; [vm_compute; reflexivity | discriminate]. Qed.

(** C9 (amended): [_download_file] returns [None] after a successful
    transfer, having made the destination the concatenation of the chunks
    received (so that its size is the number of bytes written, which the
    caller reads from the file); it fails with [HTTPError], before touching
    the destination, exactly on a status from 400 to 599. *)
Theorem download_file_spec (resp : stream_response) (out_path : path) (d : disk) :
  let written := concat (chunks resp) in
  ((400 ≤ stream_status resp < 600)%Z →
     _download_file resp out_path d = (Raise (HTTPError (stream_status resp)), d)) ∧
  (¬ (400 ≤ stream_status resp < 600)%Z → broken resp = false →
     _download_file resp out_path d = (Ok PyNone, <[out_path := written]> d)) ∧
  (¬ (400 ≤ stream_status resp < 600)%Z → broken resp = true →
     _download_file resp out_path d = (Raise TransportError, <[out_path := written]> d)) ∧
  length written = sum_list (length <$> chunks resp) ∧
  (∀ e, (_download_file resp out_path d).1 = Raise (HTTPError e) ↔
        e = stream_status resp ∧ (400 ≤ e < 600)%Z).
Proof.
  intros written.
  assert (¬ (400 ≤ stream_status resp < 600)%Z →
          _download_file resp out_path d
          = (if broken resp then Raise TransportError else Ok PyNone, <[out_path := written]> d))
    as Hok.
  { intros Hs. unfold _download_file. rewrite bind_run. unfold lift, raise_for_status.
    replace ((400 <=? stream_status resp)%Z && (stream_status resp <? 600)%Z) with false
      by (symmetry; apply andb_false_iff; rewrite Z.leb_gt, Z.ltb_ge; lia).
    rewrite bind_run. unfold modify. rewrite !bind_run.
    rewrite (write_chunks_spec out_path (chunks resp) _ []) by by rewrite lookup_insert_eq.
    rewrite insert_insert_eq. cbn [app]. by destruct (broken resp). }
  assert ((400 ≤ stream_status resp < 600)%Z →
          _download_file resp out_path d = (Raise (HTTPError (stream_status resp)), d))
    as Herr.
  { intros Hs. unfold _download_file. rewrite bind_run. unfold lift, raise_for_status.
    replace ((400 <=? stream_status resp)%Z && (stream_status resp <? 600)%Z) with true
      by (symmetry; apply andb_true_iff; rewrite Z.leb_le, Z.ltb_lt; lia).
    done. }
  split_and!.
  - done.
  - intros Hs Hb. rewrite Hok by done. by rewrite Hb.
  - intros Hs Hb. rewrite Hok by done. by rewrite Hb.
  - unfold written. clear. induction (chunks resp) as [|c l IH]; [done|].
    cbn. rewrite length_app. lia.
  - intros e. destruct (decide (400 ≤ stream_status resp < 600)%Z) as [Hs|Hs].
    + rewrite Herr by done. cbn. split; [by intros [= <-] | by intros [-> _]].
    + rewrite Hok by done. cbn. split; [by destruct (broken resp) | intros [-> ?]; lia].
Qed.

(** ** Binary64 arithmetic *)

Section Binary64.
Local Open Scope Q_scope.

Lemma pow2_pos (e : Z) : 0 < 2 ^ e.
Proof. by apply Qpower_0_lt. Qed.

Lemma pow2_add (a b : Z) : 2 ^ (a + b) == 2 ^ a * 2 ^ b.
Proof. by apply Qpower_plus. Qed.

Lemma pow2_succ (a : Z) : 2 ^ (a + 1) == 2 * 2 ^ a.
Proof. rewrite pow2_add. change (2 ^ 1) with 2. ring. Qed.

Lemma pow2_le (a b : Z) : (a ≤ b)%Z → 2 ^ a <= 2 ^ b.
Proof. intros H. by apply Qpower_le_compat_l. Qed.

Lemma pow2_lt (a b : Z) : (a < b)%Z → 2 ^ a < 2 ^ b.
Proof. intros H. by apply Qpower_lt_compat_l. Qed.

Lemma pow2_lt_inv (a b : Z) : 2 ^ a < 2 ^ b → (a < b)%Z.
Proof. intros H. by apply Qpower_lt_compat_l_inv in H. Qed.

Lemma pow2_Z (n : Z) : (0 ≤ n)%Z → 2 ^ n == inject_Z (2 ^ n).
Proof. intros H. by rewrite Zpower_Qpower. Qed.

Lemma inject_le_pow2 (z k : Z) : (0 ≤ k)%Z → (z ≤ 2 ^ k)%Z → inject_Z z <= 2 ^ k.
Proof. intros Hk H. rewrite (pow2_Z k Hk). by rewrite <- Zle_Qle. Qed.

Lemma inject_lt_pow2 (z k : Z) : (0 ≤ k)%Z → (z < 2 ^ k)%Z → inject_Z z < 2 ^ k.
Proof. intros Hk H. rewrite (pow2_Z k Hk). by rewrite <- Zlt_Qlt. Qed.

Lemma pow2_le_inject (z k : Z) : (0 ≤ k)%Z → (2 ^ k ≤ z)%Z → 2 ^ k <= inject_Z z.
Proof. intros Hk H. rewrite (pow2_Z k Hk). by rewrite <- Zle_Qle. Qed.

Lemma inject_lt_pow2_inv (z k : Z) : (0 ≤ k)%Z → inject_Z z < 2 ^ k → (z < 2 ^ k)%Z.
Proof. intros Hk H. rewrite (pow2_Z k Hk) in H. by rewrite <- Zlt_Qlt in H. Qed.

Lemma pow2_div (a b : Z) : 2 ^ a / 2 ^ b == 2 ^ (a - b).
Proof. by rewrite Qpower_minus. Qed.

(** *** The binary logarithm *)

Lemma Qlog2_spec (a : Q) : 0 < a → 2 ^ Qlog2 a <= a ∧ a < 2 ^ (Qlog2 a + 1).
Proof.
  intros Ha. unfold Qlog2. destruct a as [n d]. cbn [Qnum Qden].
  assert (0 < n)%Z as Hn by (unfold Qlt in Ha; simpl in Ha; lia).
  set (ln := Z.log2 n). set (ld := Z.log2 (Z.pos d)).
  destruct (Z.log2_spec n Hn) as [Hn1 Hn2]. fold ln in Hn1, Hn2.
  destruct (Z.log2_spec (Z.pos d) ltac:(lia)) as [Hd1 Hd2]. fold ld in Hd1, Hd2.
  assert (0 ≤ ln)%Z as Hln by apply Z.log2_nonneg.
  assert (0 ≤ ld)%Z as Hld by apply Z.log2_nonneg.
  assert (n # d == inject_Z n / inject_Z (Z.pos d)) as Heq by apply Qmake_Qdiv.
  assert (0 < inject_Z (Z.pos d)) as Hdpos by (rewrite <- (Zlt_Qlt 0); lia).
  assert (2 ^ ln <= inject_Z n) as Qn1 by (rewrite pow2_Z, <- Zle_Qle; lia).
  assert (inject_Z n < 2 ^ (ln + 1)) as Qn2.
  { rewrite pow2_Z by lia. rewrite <- Zlt_Qlt. by rewrite <- Z.add_1_r in Hn2. }
  assert (2 ^ ld <= inject_Z (Z.pos d)) as Qd1 by (rewrite pow2_Z, <- Zle_Qle; lia).
  assert (inject_Z (Z.pos d) < 2 ^ (ld + 1)) as Qd2.
  { rewrite pow2_Z by lia. rewrite <- Zlt_Qlt. by rewrite <- Z.add_1_r in Hd2. }
  assert (∀ g, 2 ^ g <= n # d ↔ 2 ^ g * inject_Z (Z.pos d) <= inject_Z n) as Hle.
  { intros g. rewrite Heq. split; intros H.
    - apply (Qmult_le_r _ _ (/ inject_Z (Z.pos d))); [by apply Qinv_lt_0_compat|].
      rewrite <- Qmult_assoc, Qmult_inv_r, Qmult_1_r; [exact H|]. lra.
    - apply (Qmult_le_r _ _ (inject_Z (Z.pos d))); [done|].
      unfold Qdiv. rewrite <- Qmult_assoc, (Qmult_comm (/ _)), Qmult_inv_r, Qmult_1_r; [exact H|].
      lra. }
  assert (∀ g, n # d < 2 ^ g ↔ inject_Z n < 2 ^ g * inject_Z (Z.pos d)) as Hlt.
  { intros g. split; intros H.
    - apply Qnot_le_lt. rewrite <- Hle. by apply Qlt_not_le.
    - apply Qnot_le_lt. rewrite Hle. by apply Qlt_not_le. }
  destruct (Qle_bool (2 ^ (ln - ld)) (n # d)) eqn:Hb.
  - apply Qle_bool_iff in Hb. split; [done|]. apply Hlt.
    replace (ln - ld + 1)%Z with ((ln + 1) + - ld)%Z by lia.
    rewrite pow2_add, Qpower_opp.
    pose proof (pow2_pos ld) as Hp. pose proof (pow2_pos (ln + 1)) as Hp'.
    apply Qlt_le_trans with (2 ^ (ln + 1)); [done|].
    rewrite <- (Qmult_1_r (2 ^ (ln + 1))) at 1. rewrite <- Qmult_assoc.
    apply Qmult_le_l; [done|].
    apply (Qmult_le_l _ _ (2 ^ ld)); [done|].
    rewrite Qmult_assoc, Qmult_inv_r, Qmult_1_l, Qmult_1_r; [done|]. lra.
  - assert (n # d < 2 ^ (ln - ld)) as Hb'.
    { apply Qnot_le_lt. intros H%Qle_bool_iff. congruence. }
    replace (ln - ld - 1 + 1)%Z with (ln - ld)%Z by lia. split; [|done]. apply Hle.
    replace (ln - ld - 1)%Z with (ln + - (ld + 1))%Z by lia.
    rewrite pow2_add, Qpower_opp.
    pose proof (pow2_pos (ld + 1)) as Hp. pose proof (pow2_pos ln) as Hp'.
    apply Qle_trans with (2 ^ ln); [|done].
    rewrite <- (Qmult_1_r (2 ^ ln)) at 2. rewrite <- Qmult_assoc.
    apply Qmult_le_l; [done|].
    apply (Qmult_le_l _ _ (2 ^ (ld + 1))); [done|].
    rewrite Qmult_assoc, Qmult_inv_r, Qmult_1_l, Qmult_1_r; [lra|]. lra.
Qed.

Lemma Qlog2_unique (a : Q) (l : Z) : 2 ^ l <= a → a < 2 ^ (l + 1) → Qlog2 a = l.
Proof.
  intros H1 H2.
  assert (0 < a) as Ha by (pose proof (pow2_pos l); lra).
  destruct (Qlog2_spec a Ha) as [H3 H4].
  assert (2 ^ l < 2 ^ (Qlog2 a + 1)) as H5 by lra.
  assert (2 ^ Qlog2 a < 2 ^ (l + 1)) as H6 by lra.
  apply pow2_lt_inv in H5, H6. lia.
Qed.

Lemma Qlog2_mono (a b : Q) : 0 < a → a <= b → (Qlog2 a ≤ Qlog2 b)%Z.
Proof.
  intros Ha Hab.
  destruct (Qlog2_spec a Ha) as [H1 _].
  destruct (Qlog2_spec b ltac:(lra)) as [_ H2].
  assert (2 ^ Qlog2 a < 2 ^ (Qlog2 b + 1)) as H by lra.
  apply pow2_lt_inv in H. lia.
Qed.

Lemma Qlog2_proper (a b : Q) : 0 < a → a == b → Qlog2 a = Qlog2 b.
Proof.
  intros Ha Hab. symmetry. destruct (Qlog2_spec a Ha) as [H1 H2].
  apply Qlog2_unique; by rewrite <- Hab.
Qed.

(** *** Rounding to the nearest integer *)

Lemma rne_proper (x y : Q) : x == y → rne x = rne y.
Proof.
  intros H. unfold rne. rewrite (Qfloor_comp _ _ H).
  assert (x - inject_Z (Qfloor y) == y - inject_Z (Qfloor y)) as H' by (by rewrite H).
  by rewrite (Qcompare_comp _ _ H' (1 # 2) (1 # 2) (Qeq_refl _)).
Qed.

Lemma rne_Z (z : Z) : rne (inject_Z z) = z.
Proof.
  unfold rne. rewrite Qfloor_Z.
  replace (Qcompare (inject_Z z - inject_Z z) (1 # 2)) with Lt; [done|].
  symmetry. rewrite <- Qlt_alt. lra.
Qed.

Lemma rne_floor (x : Q) : (Qfloor x ≤ rne x ≤ Qfloor x + 1)%Z.
Proof. unfold rne. destruct (Qcompare _ _); [destruct (Z.even _)|..]; lia. Qed.

Lemma rne_mono (x y : Q) : x <= y → (rne x ≤ rne y)%Z.
Proof.
  intros Hxy. pose proof (Qfloor_resp_le x y Hxy) as Hf.
  pose proof (rne_floor x) as Hx. pose proof (rne_floor y) as Hy.
  destruct (decide (Qfloor x = Qfloor y)) as [Heq|Hne]; [|lia].
  unfold rne in *. rewrite <- Heq in *. set (f := Qfloor x) in *.
  destruct (Qcompare_spec (x - inject_Z f) (1 # 2));
    destruct (Qcompare_spec (y - inject_Z f) (1 # 2));
    try (destruct (Z.even f)); try lia; exfalso; lra.
Qed.

Lemma rne_nonneg (x : Q) : 0 <= x → (0 ≤ rne x)%Z.
Proof. intros H. rewrite <- (rne_Z 0). by apply rne_mono. Qed.

(** *** Rounding to the format *)

Lemma exponent_ge (a : Q) : (-1074 ≤ exponent a)%Z ∧ (Qlog2 a - 52 ≤ exponent a)%Z.
Proof. unfold exponent. lia. Qed.

Lemma exponent_mono (a b : Q) : 0 < a → a <= b → (exponent a ≤ exponent b)%Z.
Proof. intros Ha Hab. pose proof (Qlog2_mono a b Ha Hab). unfold exponent. lia. Qed.

Lemma div_pow2_lt (a : Q) (e k : Z) : a < 2 ^ (e + k) → a / 2 ^ e < 2 ^ k.
Proof.
  intros H. pose proof (pow2_pos e) as Hp.
  apply (Qmult_lt_r _ _ (2 ^ e)); [done|].
  unfold Qdiv. rewrite <- Qmult_assoc, (Qmult_comm (/ _)), Qmult_inv_r, Qmult_1_r by lra.
  by rewrite <- pow2_add, Z.add_comm.
Qed.

Lemma div_pow2_le (a : Q) (e k : Z) : 2 ^ (e + k) <= a → 2 ^ k <= a / 2 ^ e.
Proof.
  intros H. pose proof (pow2_pos e) as Hp.
  apply (Qmult_le_r _ _ (2 ^ e)); [done|].
  unfold Qdiv. rewrite <- Qmult_assoc, (Qmult_comm (/ _)), Qmult_inv_r, Qmult_1_r by lra.
  by rewrite <- pow2_add, Z.add_comm.
Qed.

Lemma scaled_lt (a : Q) : 0 < a → a / 2 ^ exponent a < 2 ^ 53.
Proof.
  intros Ha. apply div_pow2_lt. destruct (Qlog2_spec a Ha) as [_ H].
  eapply Qlt_le_trans; [exact H|]. apply pow2_le. pose proof (exponent_ge a). lia.
Qed.

Lemma scaled_ge (a : Q) : 0 < a → exponent a ≠ (-1074)%Z → 2 ^ 52 <= a / 2 ^ exponent a.
Proof.
  intros Ha He. apply div_pow2_le. destruct (Qlog2_spec a Ha) as [H _].
  eapply Qle_trans; [|exact H]. apply pow2_le. unfold exponent in *. lia.
Qed.

Lemma scaled_mantissa (a : Q) :
  0 < a →
  (0 ≤ rne (a / 2 ^ exponent a) ≤ 2 ^ 53)%Z ∧
  (exponent a ≠ (-1074)%Z → (2 ^ 52 ≤ rne (a / 2 ^ exponent a))%Z).
Proof.
  intros Ha. pose proof (pow2_pos (exponent a)) as Hp. split_and!.
  - apply rne_nonneg. apply Qlt_le_weak, Qlt_shift_div_l; [done|]. lra.
  - rewrite <- (rne_Z (2 ^ 53)). apply rne_mono. rewrite <- (pow2_Z 53) by done.
    apply Qlt_le_weak. by apply scaled_lt.
  - intros He. rewrite <- (rne_Z (2 ^ 52)). apply rne_mono. rewrite <- (pow2_Z 52) by done.
    by apply scaled_ge.
Qed.

Lemma Rnd_raw (a : Q) : Rnd a == inject_Z (rne (a / 2 ^ exponent a)) * 2 ^ exponent a.
Proof.
  unfold Rnd, round_mag. cbv zeta. destruct (Z.eqb_spec (rne (a / 2 ^ exponent a)) (2 ^ 53)) as [->|_].
  - cbn [fst snd]. rewrite pow2_succ, <- (pow2_Z 52), <- (pow2_Z 53) by done.
    change (2 ^ 53) with (2 * 2 ^ 52). ring.
  - reflexivity.
Qed.

Lemma round_mag_range (a : Q) :
  0 < a →
  (0 ≤ (round_mag a).1 < 2 ^ 53)%Z ∧ (-1074 ≤ (round_mag a).2)%Z ∧
  ((round_mag a).2 = (-1074)%Z ∨ (2 ^ 52 ≤ (round_mag a).1)%Z).
Proof.
  intros Ha. destruct (scaled_mantissa a Ha) as [[H0 H1] H2].
  pose proof (exponent_ge a) as [He _].
  unfold round_mag. cbv zeta.
  destruct (Z.eqb_spec (rne (a / 2 ^ exponent a)) (2 ^ 53)) as [Heq|Hne]; cbn [fst snd].
  - split_and!; [lia..|right; lia].
  - split_and!; [lia..|].
    destruct (decide (exponent a = (-1074)%Z)) as [->|He']; [by left | right; by apply H2].
Qed.

Lemma Rnd_nonneg (a : Q) : 0 < a → 0 <= Rnd a.
Proof.
  intros Ha. destruct (round_mag_range a Ha) as [[H _] _]. unfold Rnd.
  apply Qmult_le_0_compat; [|apply Qlt_le_weak, pow2_pos].
  by rewrite <- (Zle_Qle 0).
Qed.

Lemma Rnd_proper (a b : Q) : 0 < a → a == b → round_mag a = round_mag b.
Proof.
  intros Ha Hab. unfold round_mag, exponent. rewrite (Qlog2_proper a b Ha Hab).
  by rewrite (rne_proper (a / _) (b / _)) by (by rewrite Hab).
Qed.

(** Rounding is monotone. *)
Lemma Rnd_mono (a b : Q) : 0 < a → a <= b → Rnd a <= Rnd b.
Proof.
  intros Ha Hab. assert (0 < b) as Hb by lra.
  rewrite !Rnd_raw.
  pose proof (exponent_mono a b Ha Hab) as He.
  destruct (scaled_mantissa a Ha) as [[Ha0 Ha1] _].
  destruct (scaled_mantissa b Hb) as [[Hb0 Hb1] Hb2].
  pose proof (pow2_pos (exponent a)) as Hpa. pose proof (pow2_pos (exponent b)) as Hpb.
  destruct (decide (exponent a = exponent b)) as [Heq|Hne].
  - rewrite Heq. apply Qmult_le_compat_r; [|lra].
    rewrite <- Zle_Qle. apply rne_mono. rewrite <- Heq.
    apply Qmult_le_compat_r; [done|]. apply Qlt_le_weak. by apply Qinv_lt_0_compat.
  - assert (exponent b ≠ (-1074)%Z) as Hb' by (pose proof (exponent_ge a); lia).
    specialize (Hb2 Hb').
    apply Qle_trans with (2 ^ 53 * 2 ^ exponent a).
    + apply Qmult_le_compat_r; [|lra]. by apply inject_le_pow2.
    + apply Qle_trans with (2 ^ 52 * 2 ^ exponent b).
      * rewrite <- !pow2_add. apply pow2_le. lia.
      * apply Qmult_le_compat_r; [|lra]. by apply pow2_le_inject.
Qed.

(** Rounding keeps the numbers of the format. *)
Lemma Rnd_id (m e0 : Z) :
  (0 < m < 2 ^ 53)%Z → (-1074 ≤ e0)%Z →
  Rnd (inject_Z m * 2 ^ e0) == inject_Z m * 2 ^ e0 ∧
  ((round_mag (inject_Z m * 2 ^ e0)).2 ≤ e0)%Z.
Proof.
  intros Hm He0. set (a := inject_Z m * 2 ^ e0).
  pose proof (pow2_pos e0) as Hp0.
  assert (0 < inject_Z m) as Hm' by (rewrite <- (Zlt_Qlt 0); lia).
  assert (0 < a) as Ha by (unfold a; by apply Qmult_lt_0_compat).
  destruct (Z.log2_spec m ltac:(lia)) as [Hl1 Hl2].
  pose proof (Z.log2_nonneg m) as Hl0.
  assert (Z.log2 m < 53)%Z as Hl53 by (apply Z.log2_lt_pow2; lia).
  assert (Qlog2 a = (Z.log2 m + e0)%Z) as Hlog.
  { apply Qlog2_unique; unfold a.
    - rewrite pow2_add. apply Qmult_le_compat_r; [|lra]. by apply pow2_le_inject.
    - replace (Z.log2 m + e0 + 1)%Z with (Z.succ (Z.log2 m) + e0)%Z by lia.
      rewrite pow2_add. apply Qmult_lt_r; [done|]. apply inject_lt_pow2; lia. }
  assert (exponent a ≤ e0)%Z as Hexp by (unfold exponent; lia).
  set (e := exponent a) in *.
  assert (a / 2 ^ e == inject_Z (m * 2 ^ (e0 - e))) as Hscaled.
  { unfold a, Qdiv. rewrite inject_Z_mult, <- (pow2_Z (e0 - e)) by lia.
    rewrite <- Qmult_assoc. apply Qmult_comp; [reflexivity|].
    rewrite <- Qpower_opp, <- pow2_add. by replace (e0 + - e)%Z with (e0 - e)%Z by lia. }
  assert (rne (a / 2 ^ e) = (m * 2 ^ (e0 - e))%Z) as Hrne.
  { by rewrite (rne_proper _ _ Hscaled), rne_Z. }
  assert (m * 2 ^ (e0 - e) < 2 ^ 53)%Z as Hlt.
  { apply inject_lt_pow2_inv; [done|]. rewrite <- Hscaled. by apply scaled_lt. }
  split.
  - rewrite Rnd_raw. fold e. rewrite Hrne, <- Hscaled.
    pose proof (pow2_pos e). field. lra.
  - unfold round_mag. cbv zeta. fold e. rewrite Hrne.
    destruct (Z.eqb_spec (m * 2 ^ (e0 - e)) (2 ^ 53)); [lia|done].
Qed.

(** A rounded magnitude below 2^1024 has an exponent of the format. *)
Lemma round_mag_in_range (a : Q) :
  0 < a → Rnd a < 2 ^ 1024 → ((round_mag a).2 ≤ 971)%Z.
Proof.
  intros Ha Hlt. destruct (round_mag_range a Ha) as (_ & _ & [He|Hm]); [lia|].
  apply Z.le_ngt. intros He. apply (Qlt_not_le _ _ Hlt). unfold Rnd.
  apply Qle_trans with (2 ^ 52 * 2 ^ 972).
  - by rewrite <- pow2_add.
  - apply Qle_trans with (2 ^ 52 * 2 ^ (round_mag a).2).
    + apply Qmult_le_l; [done|]. apply pow2_le. lia.
    + apply Qmult_le_compat_r; [|apply Qlt_le_weak, pow2_pos].
      by apply pow2_le_inject.
Qed.

(** *** Floats *)

Lemma F2Q_finite (s : bool) (m : positive) (e : Z) :
  F2Q (S754_finite s m e) = sign_of s * inject_Z (Z.pos m) * 2 ^ e.
Proof. reflexivity. Qed.

Lemma F2Q_abs (s : bool) (m : positive) (e : Z) :
  Qabs (F2Q (S754_finite s m e)) == inject_Z (Z.pos m) * 2 ^ e.
Proof.
  pose proof (pow2_pos e) as Hp.
  assert (0 < inject_Z (Z.pos m)) as Hm by (by rewrite <- (Zlt_Qlt 0)).
  assert (0 < inject_Z (Z.pos m) * 2 ^ e) as H by (by apply Qmult_lt_0_compat).
  rewrite F2Q_finite. destruct s; unfold sign_of.
  - assert (-1 * inject_Z (Z.pos m) * 2 ^ e == - (inject_Z (Z.pos m) * 2 ^ e)) as -> by ring.
    rewrite Qabs_opp. apply Qabs_pos. lra.
  - assert (1 * inject_Z (Z.pos m) * 2 ^ e == inject_Z (Z.pos m) * 2 ^ e) as -> by ring.
    apply Qabs_pos. lra.
Qed.

Lemma F2Q_abs_pos (s : bool) (m : positive) (e : Z) : 0 < Qabs (F2Q (S754_finite s m e)).
Proof.
  rewrite F2Q_abs. apply Qmult_lt_0_compat; [by rewrite <- (Zlt_Qlt 0) | apply pow2_pos].
Qed.

Lemma bounded_lt (s : bool) (m : positive) (e : Z) :
  bounded (S754_finite s m e) → Qabs (F2Q (S754_finite s m e)) < 2 ^ 1024.
Proof.
  intros [Hm He]. rewrite F2Q_abs. pose proof (pow2_pos e) as Hp.
  apply Qlt_le_trans with (2 ^ 53 * 2 ^ e).
  - apply Qmult_lt_r; [done|]. by apply inject_lt_pow2.
  - rewrite <- pow2_add. apply pow2_le. lia.
Qed.

(** What [round_pos] gives: a finite float of the rounded magnitude, or
    an infinity when that magnitude is out of range. *)
Lemma round_pos_spec (s : bool) (a : Q) :
  0 < a →
  bounded (round_pos s a) ∧
  (Rnd a < 2 ^ 1024 →
     is_finite (round_pos s a) = true ∧ F2Q (round_pos s a) == sign_of s * Rnd a) ∧
  (2 ^ 1024 <= Rnd a → round_pos s a = S754_infinity s).
Proof.
  intros Ha. pose proof (round_mag_range a Ha) as ([Hm0 Hm1] & He & Hnorm).
  pose proof (round_mag_in_range a Ha) as Hin. unfold Rnd in *. unfold round_pos.
  destruct (round_mag a) as [m e]. cbn [fst snd] in *. destruct m as [|p|p]; [..|lia].
  - split_and!; [done| |].
    + intros _. split; [done|]. cbn. ring.
    + intros H. exfalso. assert (inject_Z 0 * 2 ^ e == 0) as E by ring.
      rewrite E in H. pose proof (pow2_pos 1024). lra.
  - destruct (Z.ltb_spec 971 e) as [Hbig|Hsmall].
    + split_and!; [done| |done].
      intros H. specialize (Hin H). lia.
    + split_and!; [done| |].
      * intros _. split; [done|]. rewrite F2Q_finite. ring.
      * intros H. exfalso. apply (Qle_not_lt _ _ H).
        pose proof (pow2_pos e) as Hp.
        apply Qlt_le_trans with (2 ^ 53 * 2 ^ e).
        -- apply Qmult_lt_r; [done|]. by apply inject_lt_pow2.
        -- rewrite <- pow2_add. apply pow2_le. lia.
Qed.

Lemma round_pos_bounded (s : bool) (a : Q) : bounded (round_pos s a).
Proof.
  unfold round_pos. destruct (round_mag a) as [m e] eqn:Hr. destruct m as [|p|p]; [done| |done].
  destruct (Z.ltb_spec 971 e); [done|].
  unfold round_mag in Hr. cbv zeta in Hr. pose proof (exponent_ge a) as [He _].
  pose proof (rne_floor (a / 2 ^ exponent a)) as Hf.
  destruct (Z.eqb_spec (rne (a / 2 ^ exponent a)) (2 ^ 53)) as [Heq|Hne].
  - injection Hr as <- <-. split; [done | lia].
  - injection Hr as Hm <-. split; [|lia].
    destruct (Qlt_le_dec 0 a) as [Ha|Ha].
    + destruct (scaled_mantissa a Ha) as [[_ H1] _]. lia.
    + assert (a / 2 ^ exponent a <= 0) as Hle.
      { pose proof (pow2_pos (exponent a)) as Hp.
        apply Qle_shift_div_r; [done|]. lra. }
      assert (rne (a / 2 ^ exponent a) ≤ 0)%Z as H0.
      { rewrite <- (rne_Z 0). by apply rne_mono. }
      lia.
Qed.

Lemma of_Q_bounded (q : Q) : bounded (of_Q q).
Proof. unfold of_Q. destruct (Qcompare q 0); [done|apply round_pos_bounded..]. Qed.

Lemma fmul_bounded (x y : float) : bounded (fmul x y).
Proof. destruct x as [| | |sx mx ex], y as [| | |sy my ey]; try done. apply round_pos_bounded. Qed.

Lemma fsub_bounded (x y : float) : bounded x → bounded y → bounded (fsub x y).
Proof.
  destruct x as [sx|sx| |sx mx ex], y as [sy|sy| |sy my ey]; try done; cbn.
  - by destruct (xorb sx sy).
  - by destruct (xorb sx sy).
  - intros _ _. apply of_Q_bounded.
Qed.

(** [of_Q] on the numbers of the format. *)
Lemma of_Q_spec (q : Q) :
  (q == 0 → of_Q q = S754_zero false) ∧
  (0 < q → of_Q q = round_pos false q) ∧
  (q < 0 → of_Q q = round_pos true (- q)).
Proof.
  unfold of_Q. destruct (Qcompare_spec q 0); split_and!; try done; intros; exfalso; lra.
Qed.

(** *** Truncation *)

Lemma Qfloor_dyadic (m : positive) (e : Z) :
  Qfloor (inject_Z (Z.pos m) * 2 ^ e)
  = if (0 <=? e)%Z then (Z.pos m * 2 ^ e)%Z else (Z.pos m / 2 ^ (- e))%Z.
Proof.
  destruct (Z.leb_spec 0 e) as [He|He].
  - assert (inject_Z (Z.pos m) * 2 ^ e == inject_Z (Z.pos m * 2 ^ e)) as H.
    { by rewrite inject_Z_mult, <- (pow2_Z e). }
    by rewrite (Qfloor_comp _ _ H), Qfloor_Z.
  - rewrite Zdiv_Qdiv. apply Qfloor_comp.
    rewrite <- (pow2_Z (- e)) by lia. rewrite Qpower_opp. unfold Qdiv.
    by rewrite Qinv_involutive.
Qed.

Lemma py_int_spec (x : float) :
  is_finite x = true → py_int x = Ok (Qtrunc (F2Q x)).
Proof.
  destruct x as [s| | |s m e]; try done; intros _.
  cbn [py_int]. f_equal. unfold Qtrunc. rewrite F2Q_finite.
  pose proof (pow2_pos e) as Hp.
  assert (0 < inject_Z (Z.pos m)) as Hm by (by rewrite <- (Zlt_Qlt 0)).
  assert (0 < inject_Z (Z.pos m) * 2 ^ e) as H by (by apply Qmult_lt_0_compat).
  destruct s; unfold sign_of.
  - assert (-1 * inject_Z (Z.pos m) * 2 ^ e == - (inject_Z (Z.pos m) * 2 ^ e)) as E by ring.
    replace (Qle_bool 0 (-1 * inject_Z (Z.pos m) * 2 ^ e)) with false.
    + assert (- (-1 * inject_Z (Z.pos m) * 2 ^ e) == inject_Z (Z.pos m) * 2 ^ e) as E' by ring.
      by rewrite (Qfloor_comp _ _ E'), Qfloor_dyadic.
    + symmetry. apply not_true_iff_false. intros Hle%Qle_bool_iff. lra.
  - assert (1 * inject_Z (Z.pos m) * 2 ^ e == inject_Z (Z.pos m) * 2 ^ e) as E by ring.
    replace (Qle_bool 0 (1 * inject_Z (Z.pos m) * 2 ^ e)) with true.
    + by rewrite (Qfloor_comp _ _ E), Qfloor_dyadic.
    + symmetry. apply Qle_bool_iff. lra.
Qed.

Lemma Qtrunc_nonneg (q : Q) : 0 <= q → Qtrunc q = Qfloor q.
Proof. intros H. unfold Qtrunc. by apply Qle_bool_iff in H as ->. Qed.

Lemma Qtrunc_nonpos (q : Q) : (Qtrunc q ≤ 0)%Z ↔ q < 1.
Proof.
  unfold Qtrunc. destruct (Qle_bool 0 q) eqn:Hq.
  - apply Qle_bool_iff in Hq. split.
    + intros H. pose proof (Qlt_floor q) as Hlt.
      assert (inject_Z (Qfloor q + 1) <= 1) as H1 by (rewrite <- (Zle_Qle _ 1); lia). lra.
    + intros H. assert (Qfloor q < 1)%Z; [|lia].
      rewrite Zlt_Qlt. change (inject_Z 1) with 1. pose proof (Qfloor_le q). lra.
  - assert (q < 0) as Hneg.
    { apply Qnot_le_lt. intros H%Qle_bool_iff. congruence. }
    split; [intros _; lra|]. intros _.
    assert (0 ≤ Qfloor (- q))%Z; [|lia].
    rewrite <- (Qfloor_Z 0). apply Qfloor_resp_le. change (inject_Z 0) with 0. lra.
Qed.

Lemma Qtrunc_ge (q : Q) (k : Z) : (0 ≤ k)%Z → inject_Z k <= q → (k ≤ Qtrunc q)%Z.
Proof.
  intros Hk Hq. assert (0 <= q) as H0.
  { apply Qle_trans with (inject_Z k); [|done]. by rewrite <- (Zle_Qle 0). }
  rewrite Qtrunc_nonneg by done. rewrite <- (Qfloor_Z k). by apply Qfloor_resp_le.
Qed.

Lemma Qtrunc_le (q : Q) : 0 <= q → inject_Z (Qtrunc q) <= q.
Proof. intros H. rewrite Qtrunc_nonneg by done. apply Qfloor_le. Qed.

(** *** Integers as floats *)

Lemma checked_finite (x : float) : is_finite x = true → checked x = Ok x.
Proof. by destruct x. Qed.

(** A positive integer of the format converts exactly. *)
Lemma of_int_exact (m e : Z) :
  (0 < m < 2 ^ 53)%Z → (0 ≤ e)%Z → (m * 2 ^ e < 2 ^ 1024)%Z →
  ∃ y, of_int (m * 2 ^ e) = Ok y ∧ is_finite y = true ∧ bounded y ∧
       F2Q y == inject_Z (m * 2 ^ e).
Proof.
  intros Hm He Hlt. unfold of_int.
  assert (0 < m * 2 ^ e)%Z as Hpos by (apply Z.mul_pos_pos; [lia | by apply Z.pow_pos_nonneg]).
  assert (0 < inject_Z (m * 2 ^ e)) as Hq by (by rewrite <- (Zlt_Qlt 0)).
  destruct (of_Q_spec (inject_Z (m * 2 ^ e))) as (_ & Hof & _). rewrite (Hof Hq).
  assert (inject_Z (m * 2 ^ e) == inject_Z m * 2 ^ e) as Heq.
  { by rewrite inject_Z_mult, <- (pow2_Z e). }
  destruct (Rnd_id m e Hm ltac:(lia)) as [Hid _].
  assert (Rnd (inject_Z (m * 2 ^ e)) == inject_Z (m * 2 ^ e)) as Hrnd.
  { unfold Rnd. rewrite (Rnd_proper _ _ Hq Heq). fold (Rnd (inject_Z m * 2 ^ e)).
    by rewrite Hid, Heq. }
  destruct (round_pos_spec false _ Hq) as (Hb & Hfin & _).
  destruct Hfin as [Hf Hv].
  { rewrite Hrnd. by apply inject_lt_pow2. }
  eexists. split_and!; [by apply checked_finite|done..|].
  rewrite Hv, Hrnd. unfold sign_of. ring.
Qed.

(** The integer part of a positive float of the format converts
    exactly. *)
Lemma of_int_trunc (m : positive) (e : Z) (n : Z) :
  bounded (S754_finite false m e) → py_int (S754_finite false m e) = Ok n → (0 < n)%Z →
  ∃ y, of_int n = Ok y ∧ is_finite y = true ∧ bounded y ∧ F2Q y == inject_Z n.
Proof.
  intros [Hm He] Hn Hpos. cbn [py_int] in Hn. injection Hn as <-.
  destruct (Z.leb_spec 0 e) as [He0|He0].
  - apply of_int_exact; [lia | done |].
    apply Z.lt_le_trans with (2 ^ 53 * 2 ^ e)%Z.
    + apply Z.mul_lt_mono_pos_r; [by apply Z.pow_pos_nonneg | lia].
    + rewrite <- Z.pow_add_r by lia. apply Z.pow_le_mono_r; lia.
  - set (n := (Z.pos m / 2 ^ (- e))%Z) in *.
    assert (n ≤ Z.pos m)%Z as Hle.
    { assert (0 < 2 ^ (- e))%Z as Hp by (apply Z.pow_pos_nonneg; lia).
      apply Z.div_le_upper_bound; [done|]. nia. }
    replace n with (n * 2 ^ 0)%Z by (rewrite Z.pow_0_r; lia).
    apply of_int_exact; [lia | done |].
    rewrite Z.pow_0_r, Z.mul_1_r. apply Z.lt_trans with (2 ^ 53)%Z; [lia | done].
Qed.

(** *** Bounds on rounded values *)

Lemma representable_pos (q : Q) : representable q → 0 < q.
Proof.
  intros (m & e & Hm & _ & ->). apply Qmult_lt_0_compat; [|apply pow2_pos].
  rewrite <- (Zlt_Qlt 0). lia.
Qed.

Lemma Rnd_representable (q : Q) : representable q → Rnd q == q.
Proof.
  intros Hq. pose proof (representable_pos q Hq) as Hpos.
  destruct Hq as (m & e & Hm & He & Heq).
  unfold Rnd. rewrite (Rnd_proper _ _ Hpos Heq). fold (Rnd (inject_Z m * 2 ^ e)).
  rewrite Heq. by apply Rnd_id.
Qed.

Lemma representable_Z (m e : Z) :
  (0 < m < 2 ^ 53)%Z → (0 ≤ e)%Z → representable (inject_Z (m * 2 ^ e)).
Proof.
  intros Hm He. exists m, e. split_and!; [lia..|].
  by rewrite inject_Z_mult, <- (pow2_Z e).
Qed.

Lemma representable_pow2 (k : Z) : (-1074 ≤ k)%Z → representable (2 ^ k).
Proof. intros Hk. exists 1%Z, k. split_and!; [done..|]. ring. Qed.

Lemma representable_F2Q (m : positive) (e : Z) :
  bounded (S754_finite false m e) → representable (F2Q (S754_finite false m e)).
Proof.
  intros [Hm He]. exists (Z.pos m), e. split_and!; [lia..|].
  rewrite F2Q_finite. unfold sign_of. ring.
Qed.

Lemma round_pos_proper (s : bool) (a b : Q) : 0 < a → a == b → round_pos s a = round_pos s b.
Proof. intros Ha Hab. unfold round_pos. by rewrite (Rnd_proper a b Ha Hab). Qed.

(** A positive finite float. *)
Lemma finite_pos (x : float) :
  is_finite x = true → 0 < F2Q x → ∃ m e, x = S754_finite false m e.
Proof.
  destruct x as [s| | |s m e]; try done; intros _ H.
  destruct s; [|by eexists _, _]. exfalso.
  pose proof (F2Q_abs_pos true m e) as Hp. rewrite F2Q_abs in Hp.
  rewrite F2Q_finite in H. unfold sign_of in H. lra.
Qed.

(** Rounding between two numbers of the format. *)
Lemma round_pos_between (a lo hi : Q) :
  representable lo → representable hi → lo <= a → a <= hi → hi < 2 ^ 1024 →
  ∃ m e, round_pos false a = S754_finite false m e ∧ bounded (S754_finite false m e) ∧
         lo <= F2Q (S754_finite false m e) ∧ F2Q (S754_finite false m e) <= hi.
Proof.
  intros Hlo Hhi Hl Hh Hmax.
  pose proof (representable_pos lo Hlo) as Hlo0.
  assert (0 < a) as Ha by lra.
  pose proof (Rnd_mono lo a Hlo0 Hl) as H1. rewrite (Rnd_representable lo Hlo) in H1.
  pose proof (Rnd_mono a hi Ha Hh) as H2. rewrite (Rnd_representable hi Hhi) in H2.
  destruct (round_pos_spec false a Ha) as (Hb & Hfin & _).
  destruct Hfin as [Hf Hv]; [lra|].
  assert (F2Q (round_pos false a) == Rnd a) as Hv' by (rewrite Hv; unfold sign_of; ring).
  destruct (finite_pos _ Hf) as (m & e & Heq); [lra|].
  exists m, e. rewrite Heq in *. split_and!; [done..|lra|lra].
Qed.

(** *** Order *)

Lemma fltb_not_fleb (x y : float) : fltb x y = true → fleb y x = false.
Proof.
  unfold fltb, fleb.
  destruct x as [sx|sx| |sx mx ex], y as [sy|sy| |sy my ey]; cbn [fcompare];
    try done; try (by destruct sx); try (by destruct sy); try (by destruct sx, sy).
  all: rewrite <- (Qcompare_antisym (F2Q _) (F2Q _)); by destruct (Qcompare _ _).
Qed.

Lemma fleb_not_fltb (x y : float) : fleb y x = true → fltb x y = false.
Proof.
  intros H. destruct (fltb x y) eqn:Hlt; [|done].
  apply fltb_not_fleb in Hlt. congruence.
Qed.

Lemma fleb_finite (x y : float) :
  is_finite x = true → is_finite y = true → fleb x y = true ↔ F2Q x <= F2Q y.
Proof.
  intros Hx Hy. unfold fleb.
  assert (fcompare x y = Some (Qcompare (F2Q x) (F2Q y))) as ->.
  { by destruct x, y. }
  destruct (Qcompare_spec (F2Q x) (F2Q y)); split; try done; intros; try lra.
Qed.

Lemma fltb_finite (x y : float) :
  is_finite x = true → is_finite y = true → fltb x y = true ↔ F2Q x < F2Q y.
Proof.
  intros Hx Hy. unfold fltb.
  assert (fcompare x y = Some (Qcompare (F2Q x) (F2Q y))) as ->.
  { by destruct x, y. }
  destruct (Qcompare_spec (F2Q x) (F2Q y)); split; try done; intros; try lra.
Qed.

Lemma py_max_id (d c : float) : fleb c d = true → py_max d c = d.
Proof. intros H. unfold py_max. by rewrite (fleb_not_fltb d c H). Qed.

(** *** Scaling by a power of two *)

Lemma round_pos_shape (s : bool) (a : Q) :
  round_pos s a = S754_zero s ∨ round_pos s a = S754_infinity s ∨
  ∃ m e, round_pos s a = S754_finite s m e.
Proof.
  unfold round_pos. destruct (round_mag a) as [m e]. destruct m as [|p|p]; [by left| |by left].
  destruct (971 <? e)%Z; [right; by left | right; right; by eexists _, _].
Qed.

Lemma F2Q_pow2_float (k : Z) : Qabs (F2Q (pow2_float k)) == 2 ^ k.
Proof.
  unfold pow2_float. rewrite F2Q_abs.
  change (inject_Z 4503599627370496) with (2 ^ 52). rewrite <- pow2_add.
  by replace (52 + (k - 52))%Z with k by lia.
Qed.

(** Multiplying by a power of two is exact, short of overflow. *)
Lemma fmul_pow2 (s : bool) (m : positive) (e k : Z) :
  let x := S754_finite s m e in
  (Z.pos m < 2 ^ 53)%Z → (-1074 ≤ e)%Z → (0 ≤ k)%Z → Qabs (F2Q x) * 2 ^ k < 2 ^ 1024 →
  ∃ m' e', fmul x (pow2_float k) = S754_finite s m' e' ∧
           bounded (S754_finite s m' e') ∧
           Qabs (F2Q (S754_finite s m' e')) == Qabs (F2Q x) * 2 ^ k.
Proof.
  intros x Hm He Hk Hlt.
  change (fmul x (pow2_float k))
    with (round_pos (xorb s false) (Qabs (F2Q x) * Qabs (F2Q (pow2_float k)))).
  rewrite xorb_false_r.
  set (a := Qabs (F2Q x) * Qabs (F2Q (pow2_float k))).
  assert (a == inject_Z (Z.pos m) * 2 ^ (e + k)) as Ha.
  { unfold a, x. rewrite F2Q_pow2_float, F2Q_abs, pow2_add. ring. }
  assert (representable a) as Hrep.
  { exists (Z.pos m), (e + k)%Z. split_and!; [lia..|done]. }
  pose proof (representable_pos a Hrep) as Hpos.
  pose proof (Rnd_representable a Hrep) as Hrnd.
  assert (a == Qabs (F2Q x) * 2 ^ k) as Ha' by (unfold a; by rewrite F2Q_pow2_float).
  destruct (round_pos_spec s a Hpos) as (Hb & Hfin & _).
  destruct Hfin as [Hf Hv]; [by rewrite Hrnd, Ha'|].
  destruct (round_pos_shape s a) as [Hz|[Hi|(m' & e' & Heq)]].
  - exfalso. rewrite Hz in Hv. cbn [F2Q] in Hv. rewrite Hrnd in Hv.
    destruct s; unfold sign_of in Hv; lra.
  - by rewrite Hi in Hf.
  - exists m', e'. rewrite Heq in *. split_and!; [done..|].
    rewrite <- Ha', <- Hrnd. rewrite F2Q_abs.
    rewrite F2Q_finite in Hv. pose proof (pow2_pos e').
    destruct s; unfold sign_of in Hv; lra.
Qed.

(** [target_mb * 1024 * 1024 * 8] is [target_mb * 2^23], exactly. *)
Lemma scaled_target_exact (s : bool) (m : positive) (e : Z) :
  let t := S754_finite s m e in
  (Z.pos m < 2 ^ 53)%Z → (-1074 ≤ e)%Z → Qabs (F2Q t) * 2 ^ 23 < 2 ^ 1024 →
  ∃ m' e', fmul (fmul (fmul t (of_Q 1024)) (of_Q 1024)) (of_Q 8) = S754_finite s m' e' ∧
           bounded (S754_finite s m' e') ∧
           Qabs (F2Q (S754_finite s m' e')) == Qabs (F2Q t) * 2 ^ 23.
Proof.
  cbv zeta. intros Hm He Hlt.
  assert (of_Q 1024 = pow2_float 10) as -> by (by vm_compute).
  assert (of_Q 8 = pow2_float 3) as -> by (by vm_compute).
  pose proof (F2Q_abs_pos s m e) as Ht.
  destruct (fmul_pow2 s m e 10 Hm He ltac:(done)) as (m1 & e1 & -> & [Hm1 He1] & Hv1).
  { eapply Qle_lt_trans; [|exact Hlt]. apply Qmult_le_l; [done|]. by apply pow2_le. }
  destruct (fmul_pow2 s m1 e1 10 Hm1 ltac:(lia) ltac:(done)) as (m2 & e2 & -> & [Hm2 He2] & Hv2).
  { rewrite Hv1, <- Qmult_assoc, <- pow2_add.
    eapply Qle_lt_trans; [|exact Hlt]. apply Qmult_le_l; [done|]. by apply pow2_le. }
  destruct (fmul_pow2 s m2 e2 3 Hm2 ltac:(lia) ltac:(done)) as (m3 & e3 & -> & Hb3 & Hv3).
  { rewrite Hv2, Hv1, <- !Qmult_assoc, <- !pow2_add. exact Hlt. }
  exists m3, e3. split_and!; [done..|].
  rewrite Hv3, Hv2, Hv1, <- !Qmult_assoc, <- !pow2_add. reflexivity.
Qed.

End Binary64.

(** ** The bitrate estimator *)

Import Compress.

Section Estimator.
Local Open Scope Q_scope.

Lemma result_bind_Ok {A B} (a : A) (f : A → result B) : Ok a ≫= f = f a.
Proof. reflexivity. Qed.

Lemma fmul_int_const (x : float) (n : Z) (c : float) :
  of_int n = Ok c → fmul_int x n = Ok (fmul x c).
Proof. intros H. unfold fmul_int. by rewrite H. Qed.

Lemma py_max_nonzero (d c : float) (m : positive) (e : Z) :
  c = S754_finite false m e → ∀ s, py_max d c ≠ S754_zero s.
Proof.
  intros -> s. unfold py_max, fltb. destruct d as [sd|sd| |sd md ed]; cbn [fcompare].
  - replace (Qcompare (F2Q (S754_zero sd)) (F2Q (S754_finite false m e))) with Lt; [done|].
    symmetry. rewrite <- Qlt_alt. pose proof (F2Q_abs_pos false m e) as H.
    rewrite F2Q_abs in H. rewrite F2Q_finite. cbn [F2Q]. unfold sign_of. lra.
  - by destruct sd.
  - done.
  - by destruct (Qcompare _ _).
Qed.

Lemma calc_bitrates_unfold (t d : float) (a : Z) (s : float) :
  _calc_bitrates t d a s =
    audio ← of_int (a * 1000);
    video_bps ← py_int (fsub (total_bps t d s) audio);
    if (video_bps <=? 0)%Z then Raise (RuntimeError Target_size_too_small)
    else Ok (Z.max video_bps 200000).
Proof.
  unfold _calc_bitrates, total_bps.
  rewrite (fmul_int_const _ 1024 (of_Q 1024)), result_bind_Ok by (by vm_compute).
  rewrite (fmul_int_const _ 1024 (of_Q 1024)), result_bind_Ok by (by vm_compute).
  rewrite (fmul_int_const _ 8 (of_Q 8)), result_bind_Ok by (by vm_compute).
  unfold fdiv.
  pose proof (py_max_nonzero d (of_Q 0.001) _ _ ltac:(by vm_compute)) as Hnz.
  destruct (py_max d (of_Q 0.001)) as [sz| | |]; [by destruct (Hnz sz)|..];
    rewrite result_bind_Ok; unfold fsub_int; by destruct (of_int (a * 1000)).
Qed.

Lemma of_int_bounded (n : Z) (y : float) : of_int n = Ok y → bounded y.
Proof.
  unfold of_int, checked. pose proof (of_Q_bounded (inject_Z n)) as H.
  destruct (of_Q (inject_Z n)); try done; by intros [= <-].
Qed.

Lemma py_int_finite (x : float) (n : Z) : py_int x = Ok n → is_finite x = true.
Proof. by destruct x. Qed.

Lemma bounded_F2Q_lt (x : float) : bounded x → F2Q x < 2 ^ 1024.
Proof.
  destruct x as [s| | |s m e]; try (intros _; apply pow2_pos).
  intros H%bounded_lt. eapply Qle_lt_trans; [apply Qle_Qabs | exact H].
Qed.

(** What the estimator returns is at least the floor and below 2^1024. *)
Lemma calc_bitrates_range (t d : float) (a : Z) (s : float) (v : Z) :
  _calc_bitrates t d a s = Ok v → (200000 ≤ v < 2 ^ 1024)%Z.
Proof.
  rewrite calc_bitrates_unfold. destruct (of_int (a * 1000)) as [audio| |] eqn:Ha; [|done..].
  rewrite result_bind_Ok.
  destruct (py_int _) as [n| |] eqn:Hn; [|done..]. rewrite result_bind_Ok.
  destruct (Z.leb_spec n 0) as [|Hpos]; [done|]. intros [= <-].
  split; [lia|]. apply Z.max_lub_lt; [|done].
  pose proof (py_int_finite _ _ Hn) as Hfin.
  rewrite (py_int_spec _ Hfin) in Hn. injection Hn as Hn.
  assert (bounded (fsub (total_bps t d s) audio)) as Hb.
  { apply fsub_bounded; [apply fmul_bounded | by eapply of_int_bounded]. }
  apply bounded_F2Q_lt in Hb. set (q := F2Q _) in *.
  assert (¬ q < 1) as Hq by (rewrite <- Qtrunc_nonpos; lia).
  assert (inject_Z n <= q) as Hle by (rewrite <- Hn; apply Qtrunc_le; lra).
  apply inject_lt_pow2_inv; [done | lra].
Qed.

Lemma F2Q_pos_abs (m : positive) (e : Z) :
  Qabs (F2Q (S754_finite false m e)) == F2Q (S754_finite false m e).
Proof. rewrite F2Q_abs, F2Q_finite. unfold sign_of. ring. Qed.

Lemma Rnd_zero (a : Q) : a == 0 → Rnd a == 0.
Proof.
  intros Ha. rewrite Rnd_raw.
  assert (a / 2 ^ exponent a == inject_Z 0) as H.
  { unfold Qdiv. transitivity (0 * / 2 ^ exponent a); [|apply Qmult_0_l].
    apply Qmult_comp; [exact Ha | reflexivity]. }
  rewrite (rne_proper _ _ H), rne_Z. apply Qmult_0_l.
Qed.

Lemma Rnd_comp (a b : Q) : 0 <= a → a == b → Rnd a == Rnd b.
Proof.
  intros Ha Hab. destruct (Qlt_le_dec 0 a) as [Hpos|H0].
  - unfold Rnd. by rewrite (Rnd_proper a b Hpos Hab).
  - assert (a == 0) as Hz by lra. rewrite (Rnd_zero a Hz). symmetry.
    apply Rnd_zero. by rewrite <- Hab.
Qed.

(** The total bitrate of positive finite arguments, when nothing
    overflows: the quotient of the exact [target_mb * 2^23] by the
    duration, rounded, times the safety factor, rounded. *)
Lemma total_bps_value (mt : positive) (et : Z) (md : positive) (ed : Z)
    (ms : positive) (es : Z) :
  let t := S754_finite false mt et in
  let d := S754_finite false md ed in
  let s := S754_finite false ms es in
  let q := Rnd (F2Q t * 2 ^ 23 / F2Q d) in
  bounded t → fleb (of_Q 0.001) d = true →
  F2Q t * 2 ^ 23 < 2 ^ 1024 → q < 2 ^ 1024 → Rnd (q * F2Q s) < 2 ^ 1024 →
  is_finite (total_bps t d s) = true ∧ F2Q (total_bps t d s) == Rnd (q * F2Q s).
Proof.
  cbv zeta. intros [Hmt Het] Hd Ht Hq Hqs. unfold total_bps.
  rewrite (py_max_id _ _ Hd).
  destruct (scaled_target_exact false mt et Hmt ltac:(lia)) as (mx & ex & -> & Hbx & Hvx).
  { by rewrite F2Q_pos_abs. }
  rewrite (F2Q_pos_abs mt et) in Hvx.
  change (quotient (S754_finite false mx ex) (S754_finite false md ed))
    with (round_pos false (Qabs (F2Q (S754_finite false mx ex))
                           / Qabs (F2Q (S754_finite false md ed)))).
  set (t := S754_finite false mt et) in *. set (d := S754_finite false md ed) in *.
  set (s := S754_finite false ms es) in *.
  pose proof (F2Q_abs_pos false mt et) as Ht0. rewrite F2Q_pos_abs in Ht0. fold t in Ht0.
  pose proof (F2Q_abs_pos false md ed) as Hd0. rewrite F2Q_pos_abs in Hd0. fold d in Hd0.
  pose proof (F2Q_abs_pos false ms es) as Hs0. rewrite F2Q_pos_abs in Hs0. fold s in Hs0.
  set (a := Qabs (F2Q (S754_finite false mx ex)) / Qabs (F2Q d)).
  assert (a == F2Q t * 2 ^ 23 / F2Q d) as Ha.
  { unfold a, d. rewrite Hvx, (F2Q_pos_abs md ed). reflexivity. }
  assert (0 < a) as Ha0.
  { rewrite Ha. apply Qlt_shift_div_l; [done|]. pose proof (pow2_pos 23).
    rewrite Qmult_0_l. by apply Qmult_lt_0_compat. }
  assert (Rnd a == Rnd (F2Q t * 2 ^ 23 / F2Q d)) as HRa by (apply Rnd_comp; [lra | done]).
  destruct (round_pos_spec false a Ha0) as (_ & Hfin & _).
  destruct Hfin as [Hf Hv]; [by rewrite HRa|].
  assert (F2Q (round_pos false a) == Rnd a) as Hv' by (rewrite Hv; unfold sign_of; ring).
  pose proof (Rnd_nonneg a Ha0) as HR0.
  assert (Rnd (F2Q (round_pos false a) * F2Q s) == Rnd (Rnd (F2Q t * 2 ^ 23 / F2Q d) * F2Q s))
    as Hfinal.
  { apply Rnd_comp.
    - apply Qmult_le_0_compat; lra.
    - by rewrite Hv', HRa. }
  destruct (round_pos_shape false a) as [Hz|[Hi|(my & ey & Hy)]].
  - rewrite Hz in *. split; [done|]. rewrite <- Hfinal. cbn [fmul F2Q xorb].
    symmetry. apply Rnd_zero. ring.
  - by rewrite Hi in Hf.
  - rewrite Hy in *.
    change (fmul (S754_finite false my ey) s)
      with (round_pos false (Qabs (F2Q (S754_finite false my ey)) * Qabs (F2Q s))).
    set (b := Qabs (F2Q (S754_finite false my ey)) * Qabs (F2Q s)).
    assert (b == F2Q (S754_finite false my ey) * F2Q s) as Hb.
    { unfold b, s. by rewrite !F2Q_pos_abs. }
    pose proof (F2Q_abs_pos false my ey) as Hy0. rewrite F2Q_pos_abs in Hy0.
    assert (0 < b) as Hb0 by (rewrite Hb; by apply Qmult_lt_0_compat).
    assert (Rnd b == Rnd (Rnd (F2Q t * 2 ^ 23 / F2Q d) * F2Q s)) as HRb.
    { rewrite <- Hfinal. apply Rnd_comp; [lra | done]. }
    destruct (round_pos_spec false b Hb0) as (_ & Hfinb & _).
    destruct Hfinb as [Hfb Hvb]; [by rewrite HRb|].
    split; [done|]. rewrite Hvb, HRb. unfold sign_of. ring.
Qed.

(** C3, as stated, fails where the remainder lies strictly between 0
    and 1: at 1 MB over 2^24 seconds, no audio and safety 1, every
    operation is exact in binary64, the remainder is 1/2, which is
    positive, and [_calc_bitrates] raises. *)
Lemma calc_bitrates_counterexample :
  let target_mb := of_Q 1 in
  let duration_s := of_Q 16777216 in
  let audio_kbps := 0%Z in
  let safety := of_Q 1 in
  let total := total_bps target_mb duration_s safety in
  let remainder := fsub total (S754_zero false) in
  fltb (of_Q 0) target_mb = true ∧ fltb (of_Q 0) duration_s = true ∧
  (0 ≤ audio_kbps)%Z ∧ fltb (of_Q 0) safety = true ∧
  of_int (audio_kbps * 1000) = Ok (S754_zero false) ∧
  is_finite remainder = true ∧ F2Q remainder == 1 # 2 ∧
  fleb remainder (of_Q 0) = false ∧
  _calc_bitrates target_mb duration_s audio_kbps safety
  = Raise (RuntimeError Target_size_too_small).
Proof. vm_compute. repeat (split; [done|]). done. Qed.

(** Below a millisecond the duration is replaced by 0.001: at 1 MB
    over 1/2048 s the estimate is 8388608000, half of what dividing
    by the duration gives; and the estimates on the defaults (50 MB, 96
    kbps, safety 0.96) for a clip of 2 s and for one of 1048.576 s. *)
Lemma calc_bitrates_examples :
  _calc_bitrates (of_Q 1) (of_Q (1 # 2048)) 0 (of_Q 1) = Ok 8388608000%Z ∧
  _calc_bitrates (of_Q 50) (of_Q 2) 96 (of_Q 0.96) = Ok 201230592%Z ∧
  _calc_bitrates (of_Q 50) (of_Q 1048.576) 96 (of_Q 0.96) = Ok 288000%Z ∧
  _calc_bitrates (of_Q 2e301) (of_Q 1) 0 (of_Q 1.2) = Raise OverflowError.
Proof. vm_compute. done. Qed.

(** The operations on the numbers of these examples are those of the
    standard library's specification of binary64. *)
Lemma binary64_examples :
  let x := fmul (fmul (fmul (of_Q 50) (of_Q 1024)) (of_Q 1024)) (of_Q 8) in
  let y := quotient x (of_Q 1048.576) in
  let z := fmul y (of_Q 0.96) in
  fmul (of_Q 50) (of_Q 1024) = SFmul 53 1024 (of_Q 50) (of_Q 1024) ∧
  y = SFdiv 53 1024 x (of_Q 1048.576) ∧
  z = SFmul 53 1024 y (of_Q 0.96) ∧
  fsub z (of_Q 96000) = SFsub 53 1024 z (of_Q 96000) ∧
  fmul (of_Q 0.96) (of_Q 0.9) = SFmul 53 1024 (of_Q 0.96) (of_Q 0.9) ∧
  of_Q 0.9 = S754_finite false 8106479329266893 (-53) ∧
  of_Q 0.001 = S754_finite false 4611686018427388 (-62) ∧
  of_Q 1.07 = S754_finite false 4818851601286431 (-52).
Proof. vm_compute. done. Qed.

(** C3 (amended): [_calc_bitrates] in binary64.  With the total
    [total_bps] and the remainder [total - audio_kbps * 1000], the
    integer converted first: on a finite remainder, [_calc_bitrates]
    raises "Target size too small" exactly when the remainder is below 1,
    that is when its integer part is not positive, and otherwise returns
    the integer part of the remainder, or 200000 if that is greater; on
    a NaN it raises the [ValueError] and on an infinity the
    [OverflowError] of [int()]; and an audio bitrate too large for a
    float raises the [OverflowError] of the conversion.  For a positive
    target, a duration of at least 0.001 and a positive safety factor,
    the total is [target_mb * 2^23] (binary megabytes, in bits: exact)
    divided by the duration, rounded to the nearest float, times the
    safety factor, rounded again, as long as none of these overflows. *)
Theorem calc_bitrates_spec (target_mb duration_s : float) (audio_kbps : Z) (safety : float) :
  let total := total_bps target_mb duration_s safety in
  let outcome := _calc_bitrates target_mb duration_s audio_kbps safety in
  (∀ audio, of_int (audio_kbps * 1000) = Ok audio →
     let remainder := fsub total audio in
     (is_finite remainder = true →
        (outcome = Raise (RuntimeError Target_size_too_small) ↔ F2Q remainder < 1) ∧
        (1 <= F2Q remainder → outcome = Ok (Z.max (Qfloor (F2Q remainder)) 200000))) ∧
     (remainder = S754_nan → outcome = Raise ValueError) ∧
     (∀ s, remainder = S754_infinity s → outcome = Raise OverflowError)) ∧
  (∀ e, of_int (audio_kbps * 1000) = Raise e → outcome = Raise e ∧ e = OverflowError) ∧
  (∀ v, outcome = Ok v → (200000 ≤ v)%Z) ∧
  (∀ mt et md ed ms es,
     target_mb = S754_finite false mt et → bounded target_mb →
     duration_s = S754_finite false md ed → fleb (of_Q 0.001) duration_s = true →
     safety = S754_finite false ms es →
     let quotient := Rnd (F2Q target_mb * 2 ^ 23 / F2Q duration_s) in
     F2Q target_mb * 2 ^ 23 < 2 ^ 1024 → quotient < 2 ^ 1024 →
     Rnd (quotient * F2Q safety) < 2 ^ 1024 →
     is_finite total = true ∧ F2Q total == Rnd (quotient * F2Q safety)).
Proof.
  intros total outcome.
  assert (∀ v, outcome = Ok v → (200000 ≤ v)%Z) as Hrange.
  { intros v Hv. by apply calc_bitrates_range in Hv as [? _]. }
  unfold outcome in *. rewrite calc_bitrates_unfold in *. fold total in Hrange |- *.
  split_and!.
  - intros audio ->. rewrite result_bind_Ok. cbv zeta. split_and!.
    + intros Hfin. rewrite (py_int_spec _ Hfin), result_bind_Ok.
      set (q := F2Q (fsub total audio)).
      destruct (Z.leb_spec (Qtrunc q) 0) as [Hle|Hgt].
      * apply Qtrunc_nonpos in Hle as Hlt. split; [done|]. intros H. exfalso. lra.
      * assert (¬ q < 1) as Hge by (rewrite <- Qtrunc_nonpos; lia).
        split; [done|]. intros _. rewrite Qtrunc_nonneg by lra. done.
    + by intros ->.
    + by intros s ->.
  - intros e He. rewrite He. split; [done|].
    unfold of_int, checked in He. destruct (of_Q _); try done. by injection He as <-.
  - exact Hrange.
  - intros mt et md ed ms es -> Hb -> Hd ->. by apply total_bps_value.
Qed.
End Estimator.

(** ** The retry loop of the transcoder *)

Section RetryLoop.

Variable encoder : encoder_model.
Variable a : args.
Variables in_path out_path : path.
Variable duration : float.

Abbreviation loop := (retry_loop encoder a in_path out_path duration).
Abbreviation estimate_at := (Compress.estimate_at a duration).
Abbreviation cmd_at := (Compress.cmd_at a in_path out_path duration).
Abbreviation measured_at := (Compress.measured_at encoder a in_path out_path duration).
Abbreviation oversized_at := (Compress.oversized_at encoder a in_path out_path duration).
Abbreviation fits_at := (Compress.fits_at encoder a in_path out_path duration).

Lemma decayed_succ (s : float) (k : nat) : decayed s (S k) = decayed (fmul s (of_Q 0.9)) k.
Proof. unfold decayed. by rewrite Nat.iter_succ_r. Qed.

(** One turn of the loop, written out. *)
Lemma retry_loop_unfold (attempt : nat) (attempts : list nat) (s : float) (w : world) :
  loop (attempt :: attempts) s w =
    match _calc_bitrates (target_mb a) duration (audio_bitrate a) s
          ≫= build_cmd a in_path out_path with
    | Ok cmd =>
        match encoder (length (runs w)) cmd with
        | Some size =>
            match size_mb size with
            | Ok q =>
                if fleb q (target_mb a)
                then (Ok q, World (runs w ++ [cmd]) (Some size))
                else loop attempts (fmul s (of_Q 0.9)) (World (runs w ++ [cmd]) (Some size))
            | Raise e => (Raise e, World (runs w ++ [cmd]) (Some size))
            | OutOfFuel => (OutOfFuel, World (runs w ++ [cmd]) (Some size))
            end
        | None => (Raise CalledProcessError, World (runs w ++ [cmd]) (out_size w))
        end
    | Raise e => (Raise e, w)
    | OutOfFuel => (OutOfFuel, w)
    end.
Proof.
  cbn [retry_loop]. rewrite bind_run. unfold lift.
  destruct (_calc_bitrates _ _ _ s) as [v| |]; [|done..].
  rewrite result_bind_Ok, bind_run.
  destruct (build_cmd a in_path out_path v) as [cmd| |]; [|done..].
  rewrite bind_run. unfold _run.
  destruct (encoder _ _) as [size|]; [|done].
  rewrite bind_run. unfold stat_size, size_mb. cbn [out_size]. rewrite bind_run.
  destruct (int_truediv _ _) as [q| |]; [|done..].
  by destruct (fleb _ _).
Qed.

Lemma cmd_at_0 (s : float) (cmd : ffmpeg_cmd) :
  cmd_at s 0 = Some cmd →
  _calc_bitrates (target_mb a) duration (audio_bitrate a) s ≫= build_cmd a in_path out_path
  = Ok cmd.
Proof.
  unfold cmd_at, estimate_at. change (decayed s 0) with s.
  destruct (_ ≫= _) as [c| |]; [|done..]. by intros [= ->].
Qed.

(** One turn of the loop, by what the attempt does. *)
Lemma loop_step_oversized (attempt : nat) (attempts : list nat) (s : float) (w : world)
    (cmd : ffmpeg_cmd) (size : N) (q : float) :
  cmd_at s 0 = Some cmd → encoder (length (runs w)) cmd = Some size →
  size_mb size = Ok q → fltb (target_mb a) q = true →
  loop (attempt :: attempts) s w
  = loop attempts (fmul s (of_Q 0.9)) (World (runs w ++ [cmd]) (Some size)).
Proof.
  intros Hcmd%cmd_at_0 Henc Hq Hbig.
  by rewrite retry_loop_unfold, Hcmd, Henc, Hq, (fltb_not_fleb _ _ Hbig).
Qed.

Lemma loop_step_fits (attempt : nat) (attempts : list nat) (s : float) (w : world)
    (cmd : ffmpeg_cmd) (size : N) (q : float) :
  cmd_at s 0 = Some cmd → encoder (length (runs w)) cmd = Some size →
  size_mb size = Ok q → fleb q (target_mb a) = true →
  loop (attempt :: attempts) s w = (Ok q, World (runs w ++ [cmd]) (Some size)).
Proof.
  intros Hcmd%cmd_at_0 Henc Hq Hfit.
  by rewrite retry_loop_unfold, Hcmd, Henc, Hq, Hfit.
Qed.

Lemma loop_step_infeasible (attempt : nat) (attempts : list nat) (s : float) (w : world)
    (e : exn) :
  estimate_at s 0 = Raise e → loop (attempt :: attempts) s w = (Raise e, w).
Proof.
  unfold estimate_at. change (decayed s 0) with s. intros Hest.
  by rewrite retry_loop_unfold, Hest.
Qed.

(** [k] oversized attempts in a row: the loop goes on with the attempts
    left, at the safety factor decayed [k] times, after exactly the [k]
    commands of these attempts. *)
Lemma loop_oversized_prefix (k : nat) :
  ∀ (attempts : list nat) (s : float) (w : world),
    (k ≤ length attempts)%nat →
    (∀ j, (j < k)%nat → oversized_at s (length (runs w)) j) →
    ∃ cmds o,
      loop attempts s w = loop (drop k attempts) (decayed s k) (World (runs w ++ cmds) o) ∧
      Some <$> cmds = cmd_at s <$> seq 0 k.
Proof.
  induction k as [|k IH]; intros attempts s w Hlen Hover.
  - exists [], (out_size w). rewrite app_nil_r, drop_0. by destruct w.
  - destruct attempts as [|attempt attempts]; [simpl in Hlen; lia|].
    destruct (Hover 0%nat ltac:(lia)) as (size & q & Hm & Hq & Hbig).
    unfold measured_at in Hm. destruct (cmd_at s 0) as [cmd|] eqn:Hcmd; [|done].
    cbn in Hm. rewrite Nat.add_0_r in Hm.
    rewrite (loop_step_oversized attempt attempts s w cmd size q Hcmd Hm Hq Hbig).
    destruct (IH attempts (fmul s (of_Q 0.9)) (World (runs w ++ [cmd]) (Some size)))
      as (cmds & o & Hloop & Hcmds).
    + simpl in Hlen. lia.
    + intros j Hj. destruct (Hover (S j) ltac:(lia)) as (size' & q' & Hm' & Hq' & Hbig').
      exists size', q'. split; [|done].
      unfold measured_at, cmd_at, estimate_at in *. rewrite decayed_succ in Hm'.
      cbn [runs]. rewrite length_app. cbn [length].
      by replace (length (runs w) + 1 + j)%nat with (length (runs w) + S j)%nat by lia.
    + exists (cmd :: cmds), o. cbn [drop runs] in *. split.
      * rewrite Hloop, decayed_succ. by rewrite <- app_assoc.
      * cbn [seq fmap list_fmap]. rewrite Hcmd. f_equal.
        rewrite Hcmds, <- seq_shift, <- list_fmap_compose.
        apply list_fmap_ext. intros i j _. unfold compose, cmd_at, estimate_at.
        by rewrite decayed_succ.
Qed.

Lemma drop_seq_cons (k n : nat) :
  (k < n)%nat → ∃ rest, drop k (seq 0 n) = k :: rest.
Proof.
  intros Hk. rewrite drop_seq. replace (n - k)%nat with (S (n - k - 1)) by lia.
  cbn [seq]. rewrite Nat.add_0_l. by eexists.
Qed.

Lemma cmds_length (s : float) (k : nat) (cmds : list ffmpeg_cmd) :
  Some <$> cmds = cmd_at s <$> seq 0 k → length cmds = k.
Proof.
  intros H. apply (f_equal length) in H. by rewrite !length_fmap, length_seq in H.
Qed.

(** C4 (amended): let [n] be [retries + 1] attempts (for [retries >= 0]).
    If each of the [n] attempts is made and leaves an output over the
    target, the loop makes exactly [n] encoder runs, attempt [k] at the
    safety factor multiplied [k] times by 0.9 (in binary64), and then
    raises "Failed to reach target size", which names the output path.
    The first attempt whose output fits ends the loop with success, no
    further run being made.  And an attempt whose estimate raises ends
    the loop with that error, before the encoder is run again. *)
Theorem retry_loop_spec (o : option N) :
  let n := Z.to_nat (retries a + 1) in
  let outcome := main_loop encoder a in_path out_path duration (World [] o) in
  ((∀ k, (k < n)%nat → oversized_at (safety a) 0 k) →
   ∃ cmds o',
     outcome = (Raise (RuntimeError (Failed_to_reach_target (target_mb a) out_path)),
                World cmds o') ∧
     length cmds = n ∧ Some <$> cmds = cmd_at (safety a) <$> seq 0 n) ∧
  (∀ k size q, (k < n)%nat →
     (∀ j, (j < k)%nat → oversized_at (safety a) 0 j) → fits_at (safety a) 0 k size q →
     ∃ cmds,
       outcome = (Ok q, World cmds (Some size)) ∧
       length cmds = S k ∧ Some <$> cmds = cmd_at (safety a) <$> seq 0 (S k)) ∧
  (∀ k e, (k < n)%nat →
     (∀ j, (j < k)%nat → oversized_at (safety a) 0 j) → estimate_at (safety a) k = Raise e →
     ∃ cmds o',
       outcome = (Raise e, World cmds o') ∧
       length cmds = k ∧ Some <$> cmds = cmd_at (safety a) <$> seq 0 k) ∧
  ((0 ≤ retries a)%Z → Z.of_nat n = (retries a + 1)%Z) ∧
  (∀ k, estimate_at (safety a) k
        = _calc_bitrates (target_mb a) duration (audio_bitrate a) (decayed (safety a) k) ∧
        decayed (safety a) (S k) = fmul (decayed (safety a) k) (of_Q 0.9)).
Proof.
  intros n outcome. unfold outcome, main_loop. fold n. split_and!.
  - intros Hover.
    destruct (loop_oversized_prefix n (seq 0 n) (safety a) (World [] o))
      as (cmds & o' & Hloop & Hcmds).
    + by rewrite length_seq.
    + done.
    + exists cmds, o'. rewrite Hloop. split_and!; [|by eapply cmds_length|done].
      rewrite drop_ge by (rewrite length_seq; lia). done.
  - intros k size q Hk Hover (Hm & Hq & Hfit).
    destruct (loop_oversized_prefix k (seq 0 n) (safety a) (World [] o))
      as (cmds & o' & Hloop & Hcmds).
    + rewrite length_seq. lia.
    + done.
    + destruct (drop_seq_cons k n Hk) as [rest Hrest]. rewrite Hloop, Hrest.
      pose proof (cmds_length _ _ _ Hcmds) as Hlen.
      unfold measured_at in Hm. destruct (cmd_at (safety a) k) as [cmd|] eqn:Hcmd; [|done].
      cbn in Hm. exists (cmds ++ [cmd]).
      rewrite (loop_step_fits k rest _ _ cmd size q); [..|done|done].
      * split_and!; [done | rewrite length_app; simpl; lia |].
        rewrite seq_S, !fmap_app, Hcmds. cbn. by rewrite Hcmd.
      * exact Hcmd.
      * cbn [runs app]. by rewrite Hlen.
  - intros k e Hk Hover Hest.
    destruct (loop_oversized_prefix k (seq 0 n) (safety a) (World [] o))
      as (cmds & o' & Hloop & Hcmds).
    + rewrite length_seq. lia.
    + done.
    + destruct (drop_seq_cons k n Hk) as [rest Hrest]. rewrite Hloop, Hrest.
      exists cmds, o'. rewrite (loop_step_infeasible k rest _ _ e) by exact Hest.
      split_and!; [done | by eapply cmds_length | done].
  - lia.
  - done.
Qed.
End RetryLoop.

(** C4, as stated, fails when the decayed safety factor makes the
    estimate infeasible: with a target of 1 MB for 80 s of video at 96
    kbps of audio, two retries, and an encoder that always leaves a file
    10% over the target, the first attempt is made at the 200 kbps floor,
    and the second estimate raises "Target size too small": one encoder
    run instead of three, and another error than the one of
    exhaustion. *)
Lemma retry_loop_counterexample :
  let stub : encoder_model := λ _ _, Some 1153434%N in
  let a := Args (of_Q 1) 96 "medium" 2 (of_Q 0.96) in
  (0 ≤ retries a)%Z ∧
  (∀ k cmd, ∃ size q, stub k cmd = Some size ∧ size_mb size = Ok q ∧
                      fltb (target_mb a) q = true) ∧
  main_loop stub a "v.mp4" "v_compressed.mp4" (of_Q 80) (World [] None)
  = (Raise (RuntimeError Target_size_too_small),
     World [Ffmpeg "v.mp4" 200 214 400 "medium" 96 "v_compressed.mp4"] (Some 1153434%N)) ∧
  main_loop stub a "v.mp4" "v_compressed.mp4" (of_Q 80) (World [] None)
  ≠ (Raise (RuntimeError (Failed_to_reach_target (of_Q 1) "v_compressed.mp4")),
     World (replicate 3 (Ffmpeg "v.mp4" 200 214 400 "medium" 96 "v_compressed.mp4"))
           (Some 1153434%N)).
Proof.
  cbv zeta. split_and!.
  - done.
  - intros k cmd. exists 1153434%N, (S754_finite false 4953961308094464 (-52)).
    split_and!; [done | by vm_compute | by vm_compute].
  - vm_compute. reflexivity.
  - vm_compute. discriminate.
Qed.

(** The exhaustion case of [retry_loop_spec] on the defaults (50 MB, 96
    kbps, safety 0.96, two retries) for 300 s of video and an encoder
    that leaves 55 MiB for the three commands the loop issues (and a
    small file for any other): the three attempts are made and are over
    the target, so the loop makes three runs and gives up. *)
Lemma retry_loop_spec_witness :
  let stub : encoder_model :=
    λ _ cmd, if ((b_v cmd =? 1246) || (b_v cmd =? 1111) || (b_v cmd =? 991))%Z
             then Some 57671680%N else Some 1024%N in
  let a := Args (of_Q 50) 96 "medium" 2 (of_Q 0.96) in
  ∃ cmds o',
    main_loop stub a "v.mp4" "v_compressed.mp4" (of_Q 300) (World [] None)
    = (Raise (RuntimeError (Failed_to_reach_target (target_mb a) "v_compressed.mp4")),
       World cmds o') ∧
    length cmds = 3 ∧
    Some <$> cmds = cmd_at a "v.mp4" "v_compressed.mp4" (of_Q 300) (safety a) <$> seq 0 3.
Proof.
  cbv zeta.
  apply (proj1 (retry_loop_spec
                  (λ _ cmd, if ((b_v cmd =? 1246) || (b_v cmd =? 1111) || (b_v cmd =? 991))%Z
                            then Some 57671680%N else Some 1024%N)
                  (Args (of_Q 50) 96 "medium" 2 (of_Q 0.96))
                  "v.mp4" "v_compressed.mp4" (of_Q 300) None)).
  intros k Hk.
  change (Z.to_nat (retries (Args (of_Q 50) 96 "medium" 2 (of_Q 0.96)) + 1)) with 3 in Hk.
  exists 57671680%N, (S754_finite false 7740561859543040 (-47)).
  destruct k as [|[|[|k]]]; [split_and!; vm_compute; reflexivity..|lia].
Defined.

(** The loop on the defaults (50 MB, 96 kbps, safety 0.96, two retries)
    for 300 s of video: an encoder that always leaves 55 MiB is run three
    times, at bitrates falling with the safety factor, before the loop
    gives up; one that fits at the second run stops the loop there. *)
Lemma retry_loop_exhausted_example :
  main_loop (λ _ _, Some 57671680%N) (Args (of_Q 50) 96 "medium" 2 (of_Q 0.96))
    "v.mp4" "v_compressed.mp4" (of_Q 300) (World [] None)
  = (Raise (RuntimeError (Failed_to_reach_target (of_Q 50) "v_compressed.mp4")),
     World [Ffmpeg "v.mp4" 1246 1333 2492 "medium" 96 "v_compressed.mp4";
            Ffmpeg "v.mp4" 1111 1188 2222 "medium" 96 "v_compressed.mp4";
            Ffmpeg "v.mp4" 991 1060 1982 "medium" 96 "v_compressed.mp4"]
           (Some 57671680%N)).
Proof. vm_compute. reflexivity. Qed.

Lemma retry_loop_second_fits_example :
  main_loop (λ n _, if n is 0%nat then Some 57671680%N else Some 52428800%N)
    (Args (of_Q 50) 96 "medium" 2 (of_Q 0.96)) "v.mp4" "v_compressed.mp4" (of_Q 300)
    (World [] None)
  = (Ok (of_Q 50),
     World [Ffmpeg "v.mp4" 1246 1333 2492 "medium" 96 "v_compressed.mp4";
            Ffmpeg "v.mp4" 1111 1188 2222 "medium" 96 "v_compressed.mp4"]
           (Some 52428800%N)).
Proof. vm_compute. reflexivity. Qed.

(** Rounding matters: with a target of 1 MB, no audio, a safety factor
    of 1.2345679012345678 and 8388608 s of video, the estimate is the
    safety factor itself, and the factor decayed twice is exactly 1 in
    binary64, where the product of the reals is below 1: the third
    estimate succeeds, and the loop makes three runs at the 200 kbps
    floor before it gives up. *)
Lemma retry_loop_rounding_example :
  let s := of_Q 1.2345679012345678 in
  decayed s 2 = of_Q 1 ∧ (F2Q s * (9 # 10) * (9 # 10) < 1)%Q ∧
  main_loop (λ _ _, Some 1153434%N) (Args (of_Q 1) 0 "medium" 2 s)
    "v.mp4" "v_compressed.mp4" (of_Q 8388608) (World [] None)
  = (Raise (RuntimeError (Failed_to_reach_target (of_Q 1) "v_compressed.mp4")),
     World (replicate 3 (Ffmpeg "v.mp4" 200 214 400 "medium" 0 "v_compressed.mp4"))
           (Some 1153434%N)).
Proof. vm_compute. done. Qed.

(** * Further properties of the deobfuscation, the download and the selection *)

Lemma deobfuscated_involutive (C K : bytes) : deobfuscated (deobfuscated C K) K = C.
Proof.
  destruct (Nat.le_gt_cases (length K) (length C)) as [Hle|Hgt].
  - by apply deobfuscated_twice.
  - rewrite (deobfuscated_short C K) by lia.
    rewrite deobfuscated_short by (rewrite xor_bytes_length; lia).
    apply xor_bytes_involutive. lia.
Qed.

Lemma take_nonempty {A} (n : nat) (l : list A) : 0 < n → l ≠ [] → is_empty (take n l) = false.
Proof. destruct n, l; simpl; intros; (done || lia). Qed.

Lemma deobfuscated_tail (C K : bytes) (i : nat) :
  length K ≤ i → deobfuscated C K !! i = C !! i.
Proof.
  intros Hi. unfold deobfuscated.
  destruct (Nat.le_gt_cases (length K) (length C)) as [Hle|Hgt].
  - rewrite lookup_app_r by (rewrite xor_bytes_length, length_take; lia).
    rewrite xor_bytes_length, length_take, lookup_drop. f_equal. lia.
  - rewrite drop_ge, app_nil_r by lia.
    rewrite !lookup_ge_None_2; [done | lia | rewrite xor_bytes_length, length_take; lia].
Qed.

(** X1: two passes of [_decrypt_file] with the same non-empty keystream
    give back every non-empty ciphertext file in full, whatever its
    length, also when the file is shorter than the keystream. *)
Theorem decrypt_twice_any_length (d : disk) (enc mid out : path) (C K : bytes) :
  d !! enc = Some C → enc ≠ mid → mid ≠ out → C ≠ [] → K ≠ [] →
  _decrypt_file enc mid K d = (Ok tt, <[mid := deobfuscated C K]> d) ∧
  _decrypt_file mid out K (<[mid := deobfuscated C K]> d)
  = (Ok tt, <[out := C]> (<[mid := deobfuscated C K]> d)).
Proof.
  intros Henc Hne1 Hne2 HC HK.
  assert (0 < length K) as HlenK by (destruct K; simpl; [done | lia]).
  split.
  - rewrite (decrypt_file_spec d enc mid K C Henc Hne1).
    by rewrite take_nonempty.
  - rewrite (decrypt_file_spec _ mid out K (deobfuscated C K));
      [|by rewrite lookup_insert_eq|done].
    rewrite take_nonempty; [by rewrite deobfuscated_involutive | done |].
    intros Hnil. apply (f_equal length) in Hnil.
    rewrite deobfuscated_length in Hnil. by destruct C.
Qed.

Lemma decrypt_twice_any_length_witness :
  _decrypt_file "v_encrypted.mp4" "v_decrypted.mp4" [x5a; xc3; x0f]%byte
    {["v_encrypted.mp4" := [x11; x22]%byte]}
  = (Ok tt, <["v_decrypted.mp4" := deobfuscated [x11; x22]%byte [x5a; xc3; x0f]%byte]>
              {["v_encrypted.mp4" := [x11; x22]%byte]}) ∧
  _decrypt_file "v_decrypted.mp4" "v_again.mp4" [x5a; xc3; x0f]%byte
    (<["v_decrypted.mp4" := deobfuscated [x11; x22]%byte [x5a; xc3; x0f]%byte]>
       {["v_encrypted.mp4" := [x11; x22]%byte]})
  = (Ok tt, <["v_again.mp4" := [x11; x22]%byte]>
              (<["v_decrypted.mp4" := deobfuscated [x11; x22]%byte [x5a; xc3; x0f]%byte]>
                 {["v_encrypted.mp4" := [x11; x22]%byte]})).
Proof.
  apply (decrypt_twice_any_length {["v_encrypted.mp4" := [x11; x22]%byte]}
           "v_encrypted.mp4" "v_decrypted.mp4" "v_again.mp4"
           [x11; x22]%byte [x5a; xc3; x0f]%byte).
  - reflexivity.
  - discriminate.
  - discriminate.
  - discriminate.
  - discriminate.
Defined.

(** X2: whatever its arguments and its outcome, [_decrypt_file] changes
    no file but the one at [out_path]: every other path of the disk,
    the ciphertext included when the two paths differ, keeps its content
    or its absence. *)
Theorem decrypt_file_frame (d : disk) (enc out : path) (K : bytes) (p : path) :
  p ≠ out → (_decrypt_file enc out K d).2 !! p = d !! p.
Proof.
  intros Hp. destruct (d !! enc) as [C|] eqn:Henc.
  - destruct (decide (enc = out)) as [<-|Hne].
    + rewrite (decrypt_file_same_path d enc K C Henc). cbn. by rewrite lookup_insert_ne.
    + rewrite (decrypt_file_spec d enc out K C Henc Hne).
      destruct (is_empty _); cbn; by rewrite lookup_insert_ne.
  - unfold _decrypt_file. by rewrite Henc.
Qed.

Lemma decrypt_file_frame_witness :
  (_decrypt_file "v_encrypted.mp4" "v_decrypted.mp4" [x5a]%byte
     {["v_encrypted.mp4" := [x11; x22]%byte]}).2 !! "v_encrypted.mp4"
  = ({["v_encrypted.mp4" := [x11; x22]%byte]} : disk) !! "v_encrypted.mp4".
Proof.
  apply (decrypt_file_frame {["v_encrypted.mp4" := [x11; x22]%byte]}
           "v_encrypted.mp4" "v_decrypted.mp4" [x5a]%byte "v_encrypted.mp4").
  discriminate.
Defined.

(** X3: when [_decrypt_file] succeeds, the ciphertext file exists, is
    not empty and is not the output file, the keystream is not empty, and
    the output file has exactly the size of the ciphertext, with every
    byte from offset [len(keystream)] on equal to the ciphertext's. *)
Theorem decrypt_file_success (d d' : disk) (enc out : path) (K : bytes) :
  _decrypt_file enc out K d = (Ok tt, d') →
  ∃ C P : bytes,
    d !! enc = Some C ∧ C ≠ [] ∧ K ≠ [] ∧ enc ≠ out ∧
    d' = <[out := P]> d ∧ length P = length C ∧
    ∀ i, length K ≤ i → P !! i = C !! i.
Proof.
  intros Hrun. destruct (d !! enc) as [C|] eqn:Henc.
  - destruct (decide (enc = out)) as [<-|Hne].
    + by rewrite (decrypt_file_same_path d enc K C Henc) in Hrun.
    + rewrite (decrypt_file_spec d enc out K C Henc Hne) in Hrun.
      destruct (take (length K) C) as [|b head] eqn:Hhead; [done|].
      cbn [is_empty] in Hrun. injection Hrun as <-.
      exists C, (deobfuscated C K). split_and!; try done.
      * intros ->. by rewrite take_nil in Hhead.
      * intros ->. by rewrite take_0 in Hhead.
      * apply deobfuscated_length.
      * intros i Hi. by apply deobfuscated_tail.
  - unfold _decrypt_file in Hrun. by rewrite Henc in Hrun.
Qed.

Lemma decrypt_file_success_witness :
  ∃ C P : bytes,
    ({["v_encrypted.mp4" := [x11; x22; x33]%byte]} : disk) !! "v_encrypted.mp4" = Some C ∧
    C ≠ [] ∧ [x5a]%byte ≠ [] ∧ "v_encrypted.mp4" ≠ "v_decrypted.mp4" ∧
    ({["v_encrypted.mp4" := [x11; x22; x33]%byte; "v_decrypted.mp4" := [x4b; x22; x33]%byte]} : disk)
    = <["v_decrypted.mp4" := P]> {["v_encrypted.mp4" := [x11; x22; x33]%byte]} ∧
    length P = length C ∧
    ∀ i, length [x5a]%byte ≤ i → P !! i = C !! i.
Proof.
  apply (decrypt_file_success {["v_encrypted.mp4" := [x11; x22; x33]%byte]}
           {["v_encrypted.mp4" := [x11; x22; x33]%byte; "v_decrypted.mp4" := [x4b; x22; x33]%byte]}
           "v_encrypted.mp4" "v_decrypted.mp4" [x5a]%byte).
  vm_compute. reflexivity.
Defined.

(** X4: decrypting a file onto itself ([out_path] equal to [enc_path])
    destroys it: opening the output truncates the file before the first
    read, so the call raises "Encrypted file is empty" and leaves the file
    empty, whatever it held and whatever the keystream. *)
Theorem decrypt_in_place_truncates (d : disk) (p : path) (K C : bytes) :
  d !! p = Some C →
  (_decrypt_file p p K d).1 = Raise (RuntimeError Encrypted_file_is_empty) ∧
  (_decrypt_file p p K d).2 !! p = Some [].
Proof.
  intros Hp. rewrite (decrypt_file_same_path d p K C Hp). cbn.
  by rewrite lookup_insert_eq.
Qed.

Lemma decrypt_in_place_truncates_witness :
  (_decrypt_file "v.mp4" "v.mp4" [x5a]%byte {["v.mp4" := [x11; x22]%byte]}).1
  = Raise (RuntimeError Encrypted_file_is_empty) ∧
  (_decrypt_file "v.mp4" "v.mp4" [x5a]%byte {["v.mp4" := [x11; x22]%byte]}).2 !! "v.mp4"
  = Some [].
Proof.
  apply (decrypt_in_place_truncates {["v.mp4" := [x11; x22]%byte]} "v.mp4"
           [x5a]%byte [x11; x22]%byte).
  reflexivity.
Defined.

(** [_download_file] on a status that [raise_for_status] lets through. *)
Lemma download_file_run (resp : stream_response) (out : path) (d : disk) :
  ¬ (400 ≤ stream_status resp < 600)%Z →
  _download_file resp out d
  = (if broken resp then Raise TransportError else Ok PyNone,
     <[out := concat (chunks resp)]> d).
Proof.
  intros Hs. unfold _download_file. rewrite bind_run. unfold lift, raise_for_status.
  replace ((400 <=? stream_status resp)%Z && (stream_status resp <? 600)%Z) with false
    by (symmetry; apply andb_false_iff; rewrite Z.leb_gt, Z.ltb_ge; lia).
  rewrite bind_run. unfold modify. rewrite !bind_run.
  rewrite (write_chunks_spec out (chunks resp) _ []) by by rewrite lookup_insert_eq.
  rewrite insert_insert_eq. cbn [app]. by destruct (broken resp).
Qed.

Lemma download_file_refused (resp : stream_response) (out : path) (d : disk) :
  (400 ≤ stream_status resp < 600)%Z →
  _download_file resp out d = (Raise (HTTPError (stream_status resp)), d).
Proof.
  intros Hs. unfold _download_file. rewrite bind_run. unfold lift, raise_for_status.
  replace ((400 <=? stream_status resp)%Z && (stream_status resp <? 600)%Z) with true
    by (symmetry; apply andb_true_iff; rewrite Z.leb_le, Z.ltb_lt; lia).
  done.
Qed.

(** X5: download followed by deobfuscation, as [main] chains them: after a
    complete transfer of a non-empty payload to [enc_path], decrypting
    [enc_path] into another path with a non-empty keystream succeeds, the
    downloaded file still holds the payload, and the decrypted file has
    exactly as many bytes as the chunks received. *)
Theorem download_then_decrypt (resp : stream_response) (enc dec : path) (K : bytes)
    (d : disk) :
  ¬ (400 ≤ stream_status resp < 600)%Z → broken resp = false →
  enc ≠ dec → K ≠ [] → concat (chunks resp) ≠ [] →
  let payload := concat (chunks resp) in
  let downloaded := _download_file resp enc d in
  let decrypted := _decrypt_file enc dec K downloaded.2 in
  downloaded.1 = Ok PyNone ∧
  decrypted = (Ok tt, <[dec := deobfuscated payload K]> (<[enc := payload]> d)) ∧
  decrypted.2 !! enc = Some payload ∧
  length (deobfuscated payload K) = sum_list (length <$> chunks resp).
Proof.
  intros Hs Hb Hne HK Hpay payload downloaded decrypted.
  unfold decrypted, downloaded. rewrite (download_file_run resp enc d Hs), Hb. cbn [fst snd].
  rewrite (decrypt_file_spec _ enc dec K payload) by (by rewrite ?lookup_insert_eq).
  rewrite take_nonempty; [|destruct K; simpl; [done | lia]|done].
  split_and!; try done.
  - cbn. rewrite lookup_insert_ne by done. by rewrite lookup_insert_eq.
  - rewrite deobfuscated_length. unfold payload. clear.
    induction (chunks resp) as [|c l IH]; [done|]. cbn. rewrite length_app. lia.
Qed.

Lemma download_then_decrypt_witness :
  let resp := StreamResponse 200 [[x11]%byte; []; [x22; x33]%byte] false in
  let payload := concat (chunks resp) in
  let downloaded := _download_file resp "v_encrypted.mp4" ∅ in
  let decrypted := _decrypt_file "v_encrypted.mp4" "v_decrypted.mp4" [x5a]%byte downloaded.2 in
  downloaded.1 = Ok PyNone ∧
  decrypted = (Ok tt, <["v_decrypted.mp4" := deobfuscated payload [x5a]%byte]>
                        (<["v_encrypted.mp4" := payload]> ∅)) ∧
  decrypted.2 !! "v_encrypted.mp4" = Some payload ∧
  length (deobfuscated payload [x5a]%byte) = sum_list (length <$> chunks resp).
Proof.
  apply (download_then_decrypt (StreamResponse 200 [[x11]%byte; []; [x22; x33]%byte] false)
           "v_encrypted.mp4" "v_decrypted.mp4" [x5a]%byte ∅).
  - cbn. lia.
  - reflexivity.
  - discriminate.
  - discriminate.
  - discriminate.
Defined.

(** X6: what [_download_file] does depends on the chunks only through
    their concatenation: two responses of the same status that deliver
    the same bytes, cut into chunks differently (empty chunks included)
    and both complete or both broken, give the same outcome and leave the
    same disk. *)
Theorem download_chunking_irrelevant (r1 r2 : stream_response) (out : path) (d : disk) :
  stream_status r1 = stream_status r2 → broken r1 = broken r2 →
  concat (chunks r1) = concat (chunks r2) →
  _download_file r1 out d = _download_file r2 out d.
Proof.
  intros Hs Hb Hc. destruct (decide (400 ≤ stream_status r1 < 600)%Z) as [Herr|Hok].
  - rewrite (download_file_refused r1) by done.
    rewrite (download_file_refused r2) by (by rewrite <- Hs). by rewrite Hs.
  - rewrite (download_file_run r1) by done.
    rewrite (download_file_run r2) by (by rewrite <- Hs).
    by rewrite Hb, Hc.
Qed.

Lemma download_chunking_irrelevant_witness :
  _download_file (StreamResponse 200 [[x11]%byte; []; [x22; x33]%byte] false) "v.mp4" ∅
  = _download_file (StreamResponse 200 [[x11; x22]%byte; [x33]%byte] false) "v.mp4" ∅.
Proof.
  apply (download_chunking_irrelevant
           (StreamResponse 200 [[x11]%byte; []; [x22; x33]%byte] false)
           (StreamResponse 200 [[x11; x22]%byte; [x33]%byte] false) "v.mp4" ∅);
    reflexivity.
Defined.

(** X7: a record whose timestamp is strictly greater than that of every
    other record is the one [select_latest] returns, wherever it stands
    in the list: with a single latest record the selection does not
    depend on the order of the timeline. *)
Theorem select_latest_unique_max (x : video) (others videos : list video) :
  (∀ y, y ∈ others → (timestamp_of y < timestamp_of x)%Z) →
  videos ≡ₚ x :: others →
  select_latest videos = Ok x.
Proof.
  intros Hless Hperm. destruct videos as [|v vs].
  { by apply Permutation_nil_cons in Hperm. }
  unfold select_latest, py_max_key. cbn [is_empty]. f_equal.
  destruct (max_from_spec (λ y, or_0 (get_createtime y)) vs v) as (i & Hi & Hall & _).
  set (r := max_from _ v vs) in *.
  assert (r ∈ x :: others) as Hr.
  { rewrite <- Hperm. by eapply list_elem_of_lookup_2. }
  assert (x ∈ v :: vs) as Hx by (rewrite Hperm; constructor).
  apply list_elem_of_lookup_1 in Hx as [j Hj].
  specialize (Hall j x Hj). rewrite !key_timestamp in Hall.
  apply elem_of_cons in Hr as [->|Hr]; [done|].
  specialize (Hless r Hr). lia.
Qed.

Lemma select_latest_unique_max_witness :
  select_latest [Video "a" (Stamp 5); Video "b" Null; Video "c" (Stamp 9)]
  = Ok (Video "c" (Stamp 9)).
Proof.
  apply (select_latest_unique_max (Video "c" (Stamp 9))
           [Video "a" (Stamp 5); Video "b" Null]).
  - intros y Hy. repeat (apply elem_of_cons in Hy as [->|Hy]; [cbn; lia|]).
    by apply elem_of_nil in Hy.
  - apply Permutation_sym, Permutation_cons_append.
Defined.

(** * Further properties of the retry loop *)

Section RetryLoopMore.
Local Open Scope Q_scope.

Variable encoder : encoder_model.
Variable a : args.
Variables in_path out_path : path.
Variable duration : float.

Abbreviation loop' := (retry_loop encoder a in_path out_path duration).
Abbreviation cmd_of := (build_cmd a in_path out_path).
Abbreviation well_formed_cmd := (CompressMore.well_formed_cmd a in_path out_path).

(** The command of a bitrate that the estimator can return: no
    conversion fails, the video bitrate is at least 200k and the maximum
    rate is not below it. *)
Lemma build_cmd_spec (v : Z) :
  (200000 ≤ v < 2 ^ 1024)%Z →
  ∃ video_k maxrate_k,
    cmd_of v = Ok (Ffmpeg in_path video_k maxrate_k (video_k * 2) (preset a)
                     (audio_bitrate a) out_path) ∧
    (200 ≤ video_k)%Z ∧ (video_k ≤ maxrate_k)%Z.
Proof.
  intros [Hv1 Hv2]. unfold build_cmd, int_truediv.
  destruct (Z.eqb_spec v 0) as [|_]; [lia|]. cbn [Z.eqb].
  replace (v <? 0)%Z with false by (symmetry; apply Z.ltb_ge; lia).
  cbn [Z.ltb Z.compare xorb]. rewrite (Z.abs_eq v) by lia. change (Z.abs 1000) with 1000%Z.
  assert (0 < inject_Z v) as Hv0 by (rewrite <- (Zlt_Qlt 0); lia).
  assert (inject_Z v < 2 ^ 1024) as Hv3 by (by apply inject_lt_pow2).
  assert (inject_Z 200000 <= inject_Z v) as Hv4 by (by rewrite <- Zle_Qle).
  destruct (round_pos_between (inject_Z v / inject_Z 1000) (inject_Z (25 * 2 ^ 3)) (2 ^ 1015))
    as (m & e & Hy & Hby & Hy1 & Hy2).
  { by apply representable_Z. }
  { by apply representable_pow2. }
  { apply Qle_shift_div_l; [done|]. change (inject_Z (25 * 2 ^ 3) * inject_Z 1000) with (inject_Z 200000).
    done. }
  { apply Qle_shift_div_r; [done|].
    assert (2 ^ 1024 <= 2 ^ 1015 * inject_Z 1000) as H; [|lra].
    change (2 ^ 1024) with (2 ^ (1015 + 9)). rewrite pow2_add.
    apply Qmult_le_l; [apply pow2_pos | done]. }
  { by apply pow2_lt. }
  rewrite Hy. cbn [checked]. rewrite result_bind_Ok.
  set (y := S754_finite false m e) in *.
  pose proof (py_int_spec y eq_refl) as Hpy. set (k := Qtrunc (F2Q y)) in *.
  rewrite Hpy, result_bind_Ok.
  assert (200 ≤ k)%Z as Hk200 by (by apply Qtrunc_ge).
  assert (inject_Z k <= F2Q y) as Hky.
  { apply Qtrunc_le. change (inject_Z (25 * 2 ^ 3)) with 200 in Hy1. lra. }
  destruct (of_int_trunc m e k Hby Hpy) as (fk & Hfk & Hfin & Hbk & Hvk); [lia|].
  unfold int_fmul. rewrite Hfk, !result_bind_Ok.
  assert (0 < inject_Z k) as Hk0 by (rewrite <- (Zlt_Qlt 0); lia).
  destruct (finite_pos fk Hfin) as (mk & ek & ->); [by rewrite Hvk|].
  assert (of_Q 1.07 = S754_finite false 4818851601286431 (-52)) as -> by (by vm_compute).
  change (fmul (S754_finite false mk ek) (S754_finite false 4818851601286431 (-52)))
    with (round_pos false (Qabs (F2Q (S754_finite false mk ek))
                           * Qabs (F2Q (S754_finite false 4818851601286431 (-52))))).
  set (c := S754_finite false 4818851601286431 (-52)).
  assert (Qabs (F2Q (S754_finite false mk ek)) == inject_Z k) as Habs.
  { rewrite Qabs_pos; [done|]. rewrite Hvk. lra. }
  assert (1 <= Qabs (F2Q c)) as Hc1 by (by vm_compute).
  assert (Qabs (F2Q c) <= 2) as Hc2 by (by vm_compute).
  destruct (round_pos_between (Qabs (F2Q (S754_finite false mk ek)) * Qabs (F2Q c))
              (F2Q (S754_finite false mk ek)) (2 ^ 1016))
    as (m' & e' & Hz & Hbz & Hz1 & Hz2).
  { by apply representable_F2Q. }
  { by apply representable_pow2. }
  { rewrite Habs, Hvk. rewrite <- (Qmult_1_r (inject_Z k)) at 1.
    apply Qmult_le_l; [done|]. exact Hc1. }
  { rewrite Habs. change (2 ^ 1016) with (2 ^ (1015 + 1)). rewrite pow2_add.
    change (2 ^ 1) with 2.
    apply Qle_trans with (inject_Z k * 2).
    - apply Qmult_le_l; [done|]. exact Hc2.
    - apply Qmult_le_compat_r; [lra|done]. }
  { by apply pow2_lt. }
  rewrite Hz. set (z := S754_finite false m' e') in *.
  rewrite (py_int_spec z eq_refl), result_bind_Ok.
  eexists _, _. split_and!; [done..|].
  apply Qtrunc_ge; [lia|]. rewrite Hvk in Hz1. exact Hz1.
Qed.

Lemma attempt_well_formed (s : float) (cmd : ffmpeg_cmd) :
  _calc_bitrates (target_mb a) duration (audio_bitrate a) s ≫= cmd_of = Ok cmd →
  well_formed_cmd cmd.
Proof.
  destruct (_calc_bitrates _ _ _ s) as [v| |] eqn:Hest; [|done..].
  rewrite result_bind_Ok. apply calc_bitrates_range in Hest.
  destruct (build_cmd_spec v Hest) as (video_k & maxrate_k & -> & Hk & Hm).
  intros [= <-]. unfold CompressMore.well_formed_cmd. cbn. split_and!; try done. lia.
Qed.

(** What any run of the loop does to the list of commands, and what its
    outcomes imply. *)
Lemma retry_loop_runs (attempts : list nat) :
  ∀ (s : float) (w : world),
    ∃ new,
      runs (loop' attempts s w).2 = runs w ++ new ∧
      (length new ≤ length attempts)%nat ∧
      Forall well_formed_cmd new ∧
      (∀ q, (loop' attempts s w).1 = Ok q →
         ∃ size cmd, out_size (loop' attempts s w).2 = Some size ∧ size_mb size = Ok q ∧
                     fleb q (target_mb a) = true ∧ last new = Some cmd ∧
                     encoder (length (runs w ++ new) - 1) cmd = Some size) ∧
      ((loop' attempts s w).1 = Raise (RuntimeError (Failed_to_reach_target (target_mb a) out_path)) →
         length new = length attempts).
Proof.
  induction attempts as [|attempt attempts IH]; intros s w.
  - exists []. cbn. rewrite app_nil_r. split_and!; try done.
  - rewrite retry_loop_unfold.
    destruct (_ ≫= _) as [cmd|e|] eqn:Hcmd.
    + pose proof (attempt_well_formed s cmd Hcmd) as Hwf.
      destruct (encoder _ _) as [size|] eqn:Henc.
      * destruct (size_mb size) as [q'|e|] eqn:Hsize.
        -- destruct (fleb q' (target_mb a)) eqn:Hfit.
           ++ exists [cmd]. cbn [fst snd runs out_size length]. split_and!; try done.
              ** lia.
              ** by constructor.
              ** intros q [= <-]. exists size, cmd. split_and!; try done.
                 rewrite length_app. cbn. by rewrite Nat.add_sub.
           ++ destruct (IH (fmul s (of_Q 0.9)) (World (runs w ++ [cmd]) (Some size)))
                as (new & Hruns & Hlen & Hall & Hok & Hfail).
              exists (cmd :: new). cbn [runs] in *. split_and!.
              ** by rewrite Hruns, <- app_assoc.
              ** cbn. lia.
              ** by constructor.
              ** intros q Hq. destruct (Hok q Hq) as (size' & c & Ho & Hs & Hle & Hlast & He).
                 exists size', c. split_and!; try done.
                 --- destruct new; [done|]. done.
                 --- by rewrite <- app_assoc in He.
              ** intros Hq. cbn. by rewrite Hfail.
        -- exists [cmd]. cbn [fst snd runs length]. split_and!; try done.
           ++ lia.
           ++ by constructor.
           ++ intros [= ->]. exfalso. unfold size_mb, int_truediv, checked in Hsize.
              cbn [Z.eqb] in Hsize. destruct (Z.of_N size =? 0)%Z; [done|].
              by destruct (round_pos _ _).
        -- exists [cmd]. cbn [fst snd runs length]. split_and!; try done.
           ++ lia.
           ++ by constructor.
      * exists [cmd]. cbn [fst snd runs length]. split_and!; try done.
        -- lia.
        -- by constructor.
    + exists []. cbn [fst snd]. rewrite app_nil_r. split_and!; try done.
      * cbn. lia.
      * intros [= ->]. exfalso.
        destruct (_calc_bitrates _ _ _ s) as [v|e'|] eqn:Hest.
        -- rewrite result_bind_Ok in Hcmd. apply calc_bitrates_range in Hest.
           destruct (build_cmd_spec v Hest) as (? & ? & Hb & _). congruence.
        -- cbn in Hcmd. injection Hcmd as ->.
           rewrite calc_bitrates_unfold in Hest.
           destruct (of_int _) as [audio|e''|] eqn:Ha; cbn in Hest.
           ++ destruct (py_int _) as [n| |] eqn:Hn; cbn in Hest.
              ** by destruct (n <=? 0)%Z.
              ** destruct (fsub _ _); cbn in Hn; congruence.
              ** done.
           ++ unfold of_int, checked in Ha. destruct (of_Q _); congruence.
           ++ done.
        -- done.
    + exists []. cbn [fst snd]. rewrite app_nil_r. split_and!; try done. cbn. lia.
Qed.

(** X9: whatever the encoder does, [main]'s retry loop runs it at most
    [retries + 1] times and never fewer than that before giving up with
    "Failed to reach target size"; the commands it has run are added
    after those run before, none of which is touched. *)
Theorem main_loop_run_bound (w : world) :
  let after := main_loop encoder a in_path out_path duration w in
  ∃ new,
    runs after.2 = runs w ++ new ∧
    (length new ≤ Z.to_nat (retries a + 1))%nat ∧
    (after.1 = Raise (RuntimeError (Failed_to_reach_target (target_mb a) out_path)) →
       length new = Z.to_nat (retries a + 1)).
Proof.
  cbv zeta. unfold main_loop.
  destruct (retry_loop_runs (seq 0 (Z.to_nat (retries a + 1))) (safety a) w)
    as (new & Hruns & Hlen & _ & _ & Hfail).
  rewrite length_seq in *. by exists new.
Qed.

(** X10: whatever the encoder does, when the loop of [main] ends with
    success the file at the output path is the one the last encoder run
    left, its size in MB is at most the target, and at least one run was
    made. *)
Theorem main_loop_success (w : world) (q : float) :
  let after := main_loop encoder a in_path out_path duration w in
  after.1 = Ok q →
  ∃ size cmd,
    out_size after.2 = Some size ∧ size_mb size = Ok q ∧ fleb q (target_mb a) = true ∧
    last (runs after.2) = Some cmd ∧
    encoder (length (runs after.2) - 1) cmd = Some size.
Proof.
  cbv zeta. unfold main_loop. intros Hq.
  destruct (retry_loop_runs (seq 0 (Z.to_nat (retries a + 1))) (safety a) w)
    as (new & Hruns & _ & _ & Hok & _).
  destruct (Hok q Hq) as (size & cmd & Ho & Hs & Hle & Hlast & He).
  exists size, cmd. rewrite Hruns. split_and!; try done.
  destruct new as [|c new]; [done|]. by rewrite last_app, Hlast.
Qed.

(** X11: every command the loop of [main] hands to the encoder, whatever
    the encoder does, asks for a video bitrate of at least 200k, a maximum
    rate not below the video bitrate, a buffer of twice the video
    bitrate, the audio bitrate and preset of the options, and reads and
    writes the paths of the call. *)
Theorem main_loop_commands (w : world) :
  let after := main_loop encoder a in_path out_path duration w in
  ∃ new, runs after.2 = runs w ++ new ∧ Forall well_formed_cmd new.
Proof.
  cbv zeta. unfold main_loop.
  destruct (retry_loop_runs (seq 0 (Z.to_nat (retries a + 1))) (safety a) w)
    as (new & Hruns & _ & Hall & _).
  by exists new.
Qed.

(** X13: a failure of the encoder is not retried: when the attempts
    before attempt [k] each left an oversized output and the encoder
    exits with an error on attempt [k], the loop of [main] raises
    [CalledProcessError] right after that run, [k + 1] runs having been
    made of the [retries + 1] allowed. *)
Theorem encoder_failure_is_fatal (k : nat) (cmd : ffmpeg_cmd) (o : option N) :
  (k < Z.to_nat (retries a + 1))%nat →
  (∀ j, (j < k)%nat → oversized_at encoder a in_path out_path duration (safety a) 0 j) →
  cmd_at a in_path out_path duration (safety a) k = Some cmd →
  encoder k cmd = None →
  ∃ cmds o',
    main_loop encoder a in_path out_path duration (World [] o)
    = (Raise CalledProcessError, World (cmds ++ [cmd]) o') ∧
    length cmds = k ∧
    Some <$> cmds = cmd_at a in_path out_path duration (safety a) <$> seq 0 k.
Proof.
  intros Hk Hover Hcmd Hfail. unfold main_loop.
  destruct (loop_oversized_prefix encoder a in_path out_path duration k
              (seq 0 (Z.to_nat (retries a + 1))) (safety a) (World [] o))
    as (cmds & o' & Hloop & Hcmds).
  - rewrite length_seq. lia.
  - done.
  - pose proof (cmds_length a in_path out_path duration _ _ _ Hcmds) as Hlen.
    destruct (drop_seq_cons k _ Hk) as [rest Hrest].
    exists cmds, o'. rewrite Hloop, Hrest, retry_loop_unfold. cbn [runs app out_size].
    unfold cmd_at, estimate_at in Hcmd.
    destruct (_ ≫= _) as [c| |]; [|done..].
    injection Hcmd as <-. rewrite Hlen, Hfail. done.
Qed.
End RetryLoopMore.

Lemma encoder_failure_is_fatal_witness :
  ∃ cmds o',
    main_loop (λ n _, if n is 0%nat then Some 57671680%N else None)
      (Args (of_Q 50) 96 "medium" 2 (of_Q 0.96)) "v.mp4" "v_compressed.mp4" (of_Q 300)
      (World [] None)
    = (Raise CalledProcessError,
       World (cmds ++ [Ffmpeg "v.mp4" 1111 1188 2222 "medium" 96 "v_compressed.mp4"]) o') ∧
    length cmds = 1 ∧
    Some <$> cmds
    = cmd_at (Args (of_Q 50) 96 "medium" 2 (of_Q 0.96)) "v.mp4" "v_compressed.mp4" (of_Q 300)
        (of_Q 0.96) <$> seq 0 1.
Proof.
  apply (encoder_failure_is_fatal (λ n _, if n is 0%nat then Some 57671680%N else None)
           (Args (of_Q 50) 96 "medium" 2 (of_Q 0.96)) "v.mp4" "v_compressed.mp4" (of_Q 300) 1
           (Ffmpeg "v.mp4" 1111 1188 2222 "medium" 96 "v_compressed.mp4") None).
  - cbn. lia.
  - intros j Hj. assert (j = 0)%nat as -> by lia.
    exists 57671680%N, (S754_finite false 7740561859543040 (-47)).
    split_and!; by vm_compute.
  - by vm_compute.
  - reflexivity.
Defined.

Lemma main_loop_success_witness :
  ∃ size cmd,
    out_size (main_loop (λ _ _, Some 52428800%N) (Args (of_Q 50) 96 "medium" 2 (of_Q 0.96))
                "v.mp4" "v_compressed.mp4" (of_Q 300) (World [] None)).2 = Some size ∧
    size_mb size = Ok (of_Q 50) ∧ fleb (of_Q 50) (of_Q 50) = true ∧
    last (runs (main_loop (λ _ _, Some 52428800%N) (Args (of_Q 50) 96 "medium" 2 (of_Q 0.96))
                  "v.mp4" "v_compressed.mp4" (of_Q 300) (World [] None)).2) = Some cmd ∧
    (λ _ _, Some 52428800%N)
      (length (runs (main_loop (λ _ _, Some 52428800%N)
                       (Args (of_Q 50) 96 "medium" 2 (of_Q 0.96))
                       "v.mp4" "v_compressed.mp4" (of_Q 300) (World [] None)).2) - 1)%nat cmd
    = Some size.
Proof.
  apply (main_loop_success (λ _ _, Some 52428800%N) (Args (of_Q 50) 96 "medium" 2 (of_Q 0.96))
           "v.mp4" "v_compressed.mp4" (of_Q 300) (World [] None) (of_Q 50)).
  by vm_compute.
Defined.

(** ** The estimates of successive attempts *)

Section RetryLoopOrder.
Local Open Scope Q_scope.

Lemma Qtrunc_mono (p q : Q) : p <= q → (Qtrunc p ≤ Qtrunc q)%Z.
Proof.
  intros Hpq. unfold Qtrunc.
  destruct (Qle_bool 0 p) eqn:Hp; destruct (Qle_bool 0 q) eqn:Hq.
  - by apply Qfloor_resp_le.
  - apply Qle_bool_iff in Hp. exfalso.
    assert (¬ 0 <= q) as H by (intros H%Qle_bool_iff; congruence). lra.
  - apply Qle_bool_iff in Hq.
    assert (¬ 0 <= p) as H by (intros H%Qle_bool_iff; congruence).
    assert (0 ≤ Qfloor (- p))%Z as H1.
    { rewrite <- (Qfloor_Z 0). apply Qfloor_resp_le. change (inject_Z 0) with 0. lra. }
    assert (0 ≤ Qfloor q)%Z as H2.
    { rewrite <- (Qfloor_Z 0). apply Qfloor_resp_le. by change (inject_Z 0) with 0. }
    lia.
  - assert (Qfloor (- q) ≤ Qfloor (- p))%Z; [|lia]. apply Qfloor_resp_le. lra.
Qed.

(** The value of a finite rounded magnitude. *)
Lemma round_pos_value (s : bool) (x : Q) :
  0 < x → is_finite (round_pos s x) = true → F2Q (round_pos s x) == sign_of s * Rnd x.
Proof.
  intros Hx Hfin. destruct (round_pos_spec s x Hx) as (_ & Hlt & Hge).
  destruct (Qlt_le_dec (Rnd x) (2 ^ 1024)) as [H|H]; [by apply Hlt|].
  by rewrite (Hge H) in Hfin.
Qed.

(** The value of the float nearest to a real, when it is finite. *)
Lemma of_Q_value (q : Q) :
  is_finite (of_Q q) = true →
  (0 <= q → F2Q (of_Q q) == Rnd q) ∧ (q < 0 → F2Q (of_Q q) == - Rnd (- q)).
Proof.
  intros Hfin. destruct (of_Q_spec q) as (Hz & Hp & Hn). split.
  - intros H0. destruct (Qlt_le_dec 0 q) as [Hpos|Hle].
    + rewrite (Hp Hpos) in *. rewrite (round_pos_value false q Hpos Hfin).
      unfold sign_of. ring.
    + assert (q == 0) as H by lra. rewrite (Hz H), (Rnd_zero q H). reflexivity.
  - intros Hneg. rewrite (Hn Hneg) in *.
    rewrite (round_pos_value true (- q) ltac:(lra) Hfin). unfold sign_of. ring.
Qed.

(** Rounding a real to a float is monotone. *)
Lemma of_Q_mono (p q : Q) :
  p <= q → is_finite (of_Q p) = true → is_finite (of_Q q) = true →
  F2Q (of_Q p) <= F2Q (of_Q q).
Proof.
  intros Hpq Hfp Hfq.
  destruct (of_Q_value p Hfp) as [Hp0 Hp1]. destruct (of_Q_value q Hfq) as [Hq0 Hq1].
  destruct (Qlt_le_dec p 0) as [Hpn|Hpp]; destruct (Qlt_le_dec q 0) as [Hqn|Hqp].
  - rewrite (Hp1 Hpn), (Hq1 Hqn).
    pose proof (Rnd_mono (- q) (- p) ltac:(lra) ltac:(lra)). lra.
  - rewrite (Hp1 Hpn), (Hq0 Hqp).
    pose proof (Rnd_nonneg (- p) ltac:(lra)).
    destruct (Qlt_le_dec 0 q) as [Hq|Hq].
    + pose proof (Rnd_nonneg q Hq). lra.
    + assert (q == 0) as H0 by lra. rewrite (Rnd_zero q H0). lra.
  - exfalso. lra.
  - rewrite (Hp0 Hpp), (Hq0 Hqp).
    destruct (Qlt_le_dec 0 p) as [Hp|Hp].
    + by apply Rnd_mono.
    + assert (p == 0) as H0 by lra. rewrite (Rnd_zero p H0).
      destruct (Qlt_le_dec 0 q) as [Hq|Hq].
      * by apply Rnd_nonneg.
      * assert (q == 0) as H1 by lra. rewrite (Rnd_zero q H1). lra.
Qed.

Lemma plus_shaped_finite (x : float) : is_finite x = true → 0 <= F2Q x → plus_shaped x.
Proof.
  destruct x as [s| | |s m e]; try done. destruct s; [|done]. intros _ H. exfalso.
  pose proof (F2Q_abs_pos true m e) as Hp. rewrite F2Q_abs in Hp.
  rewrite F2Q_finite in H. unfold sign_of in H. lra.
Qed.

(** The product by a fixed float is monotone in a non-negative factor. *)
Lemma fmul_mono (x s s' : float) :
  not_negative x → plus_shaped s → plus_shaped s' →
  F2Q s' <= F2Q s →
  is_finite (fmul x s) = true → is_finite (fmul x s') = true →
  F2Q (fmul x s') <= F2Q (fmul x s).
Proof.
  intros Hx Hs Hs' Hle.
  destruct x as [sx|sx| |sx mx ex]; try done.
  - destruct s as [?| | |[] ? ?], s' as [?| | |[] ? ?]; try done; cbn; intros; lra.
  - destruct s as [?| | |[] ? ?]; try done.
  - cbn in Hx. subst sx.
    destruct s as [ss| | |[] ms es], s' as [ss'| | |[] ms' es']; try done.
    + exfalso. pose proof (F2Q_abs_pos false ms' es') as Hp. rewrite F2Q_pos_abs in Hp.
      change (F2Q (S754_zero ss)) with 0 in Hle. lra.
    + intros Hf _.
      change (fmul (S754_finite false mx ex) (S754_zero ss')) with (S754_zero ss').
      change (F2Q (S754_zero ss')) with 0.
      change (fmul (S754_finite false mx ex) (S754_finite false ms es))
        with (round_pos false (Qabs (F2Q (S754_finite false mx ex))
                               * Qabs (F2Q (S754_finite false ms es)))) in *.
      pose proof (F2Q_abs_pos false mx ex) as H1. pose proof (F2Q_abs_pos false ms es) as H2.
      rewrite (round_pos_value false _ (Qmult_lt_0_compat _ _ H1 H2) Hf).
      pose proof (Rnd_nonneg _ (Qmult_lt_0_compat _ _ H1 H2)). unfold sign_of. lra.
    + change (fmul (S754_finite false mx ex) (S754_finite false ms es))
        with (round_pos false (Qabs (F2Q (S754_finite false mx ex))
                               * Qabs (F2Q (S754_finite false ms es)))).
      change (fmul (S754_finite false mx ex) (S754_finite false ms' es'))
        with (round_pos false (Qabs (F2Q (S754_finite false mx ex))
                               * Qabs (F2Q (S754_finite false ms' es')))).
      intros Hf Hf'.
      pose proof (F2Q_abs_pos false mx ex) as H1. pose proof (F2Q_abs_pos false ms es) as H2.
      pose proof (F2Q_abs_pos false ms' es') as H3.
      rewrite (round_pos_value false _ (Qmult_lt_0_compat _ _ H1 H2) Hf).
      rewrite (round_pos_value false _ (Qmult_lt_0_compat _ _ H1 H3) Hf').
      assert (Rnd (Qabs (F2Q (S754_finite false mx ex)) * Qabs (F2Q (S754_finite false ms' es')))
              <= Rnd (Qabs (F2Q (S754_finite false mx ex)) * Qabs (F2Q (S754_finite false ms es))))
        as H; [|unfold sign_of; lra].
      apply Rnd_mono; [by apply Qmult_lt_0_compat|].
      apply Qmult_le_l; [done|]. by rewrite !F2Q_pos_abs.
Qed.


Lemma of_Q_proper (p q : Q) : p == q → of_Q p = of_Q q.
Proof.
  intros H. destruct (of_Q_spec p) as (Hz & Hp & Hn), (of_Q_spec q) as (Hz' & Hp' & Hn').
  destruct (Q_dec p 0) as [[Hlt|Hgt]|Heq].
  - rewrite (Hn Hlt), (Hn' ltac:(lra)). apply round_pos_proper; lra.
  - rewrite (Hp Hgt), (Hp' ltac:(lra)). apply round_pos_proper; lra.
  - rewrite (Hz Heq), (Hz' ltac:(lra)). reflexivity.
Qed.

(** A float is the float nearest to its value. *)
Lemma of_Q_exact (x : float) :
  is_finite x = true → bounded x →
  is_finite (of_Q (F2Q x)) = true ∧ F2Q (of_Q (F2Q x)) == F2Q x.
Proof.
  destruct x as [s| | |s m e]; try done.
  intros _ Hb. destruct (of_Q_spec (F2Q (S754_finite s m e))) as (_ & Hp & Hn).
  pose proof (F2Q_abs_pos false m e) as Hpos. rewrite F2Q_pos_abs in Hpos.
  assert (bounded (S754_finite false m e)) as Hb' by done.
  pose proof (Rnd_representable _ (representable_F2Q m e Hb')) as HR.
  pose proof (bounded_F2Q_lt _ Hb') as Hlt.
  destruct (round_pos_spec s (F2Q (S754_finite false m e)) Hpos) as (_ & H & _).
  destruct (H ltac:(lra)) as [Hf Hval].
  destruct s.
  - assert (F2Q (S754_finite true m e) == - F2Q (S754_finite false m e)) as Hneg
      by (rewrite !F2Q_finite; unfold sign_of; ring).
    rewrite (Hn ltac:(lra)).
    rewrite (round_pos_proper true (- F2Q (S754_finite true m e))
               (F2Q (S754_finite false m e)) ltac:(lra) ltac:(lra)).
    split; [done|]. rewrite Hval. unfold sign_of. lra.
  - rewrite (Hp Hpos). split; [done|]. rewrite Hval. unfold sign_of. lra.
Qed.

(** A finite difference is the float nearest to the real difference. *)
Lemma fsub_value (x y : float) :
  is_finite x = true → bounded x → bounded y → is_finite (fsub x y) = true →
  is_finite (of_Q (F2Q x - F2Q y)) = true ∧
  F2Q (fsub x y) == F2Q (of_Q (F2Q x - F2Q y)).
Proof.
  intros Hfx Hbx Hby.
  destruct x as [sx| | |sx mx ex]; try done; destruct y as [sy| | |sy my ey]; try done.
  - intros _. by destruct sx, sy.
  - intros _. change (fsub (S754_zero sx) (S754_finite sy my ey))
      with (S754_finite (negb sy) my ey).
    assert (bounded (S754_finite (negb sy) my ey)) as Hb by done.
    destruct (of_Q_exact (S754_finite (negb sy) my ey) eq_refl Hb) as [Hf Hv].
    assert (F2Q (S754_finite (negb sy) my ey)
            == F2Q (S754_zero sx) - F2Q (S754_finite sy my ey)) as Heq.
    { rewrite !F2Q_finite. change (F2Q (S754_zero sx)) with 0.
      destruct sy; unfold sign_of; cbn [negb]; ring. }
    rewrite <- (of_Q_proper _ _ Heq). split; [done|]. by rewrite Hv.
  - intros _. change (fsub (S754_finite sx mx ex) (S754_zero sy))
      with (S754_finite sx mx ex).
    destruct (of_Q_exact (S754_finite sx mx ex) eq_refl Hbx) as [Hf Hv].
    assert (F2Q (S754_finite sx mx ex)
            == F2Q (S754_finite sx mx ex) - F2Q (S754_zero sy)) as Heq.
    { change (F2Q (S754_zero sy)) with 0. ring. }
    rewrite <- (of_Q_proper _ _ Heq). split; [done|]. by rewrite Hv.
Qed.

(** The difference is monotone in its first operand. *)
Lemma fsub_mono (x x' y : float) :
  is_finite x = true → is_finite x' = true → bounded x → bounded x' → bounded y →
  F2Q x' <= F2Q x →
  is_finite (fsub x y) = true → is_finite (fsub x' y) = true →
  F2Q (fsub x' y) <= F2Q (fsub x y).
Proof.
  intros Hfx Hfx' Hbx Hbx' Hby Hle Hf Hf'.
  destruct (fsub_value x y Hfx Hbx Hby Hf) as [H1 ->].
  destruct (fsub_value x' y Hfx' Hbx' Hby Hf') as [H2 ->].
  apply of_Q_mono; [lra|done..].
Qed.

Lemma fsub_finite_inv (x y : float) : is_finite (fsub x y) = true → is_finite x = true.
Proof. by destruct x as [[]|[]| |[] ? ?], y as [[]|[]| |[] ? ?]. Qed.

Lemma round_pos_not_negative (x : Q) : not_negative (round_pos false x).
Proof. by destruct (round_pos_shape false x) as [->|[->|(m & e & ->)]]. Qed.

Lemma fmul_not_negative (x c : float) :
  plus_shaped c → not_negative x → not_negative (fmul x c).
Proof.
  intros Hc Hx.
  destruct c as [sc| | |[] mc ec]; try done;
    destruct x as [sx|sx| |sx mx ex]; try done; cbn in Hx; subst sx; [done|].
  apply round_pos_not_negative.
Qed.

Lemma not_negative_value (x : float) : not_negative x → 0 <= F2Q x.
Proof.
  destruct x as [s|s| |s m e]; try done. cbn. intros ->.
  pose proof (F2Q_abs_pos false m e) as Hp. rewrite F2Q_pos_abs in Hp.
  by apply Qlt_le_weak.
Qed.

Lemma quotient_not_negative (x p : float) :
  not_negative x → not_negative_or_zero p → not_negative (quotient x p).
Proof.
  intros Hx Hp.
  destruct x as [sx|sx| |sx mx ex], p as [sp|sp| |sp mp ep]; try done;
    cbn in Hx, Hp; subst; try done.
  apply round_pos_not_negative.
Qed.

Lemma py_max_not_negative (d : float) : not_negative_or_zero (py_max d (of_Q 0.001)).
Proof.
  assert (of_Q 0.001 = S754_finite false 4611686018427388 (-62)) as -> by (by vm_compute).
  unfold py_max. destruct (fltb d _) eqn:Hlt; [done|].
  destruct d as [sd|sd| |sd md ed]; try done.
  - by destruct sd.
  - destruct sd; [|done]. exfalso.
    assert (fltb (S754_finite true md ed) (S754_finite false 4611686018427388 (-62)) = true)
      as H; [|congruence].
    apply fltb_finite; [done..|].
    pose proof (F2Q_abs_pos true md ed) as H1. rewrite F2Q_abs in H1.
    pose proof (F2Q_abs_pos false 4611686018427388 (-62)) as H2. rewrite F2Q_pos_abs in H2.
    rewrite (F2Q_finite true). unfold sign_of. lra.
Qed.

(** The total bitrate before the safety factor is not negative when the
    target is not. *)
Lemma scaled_quotient_not_negative (t d : float) :
  plus_shaped t →
  not_negative
    (quotient (fmul (fmul (fmul t (of_Q 1024)) (of_Q 1024)) (of_Q 8))
              (py_max d (of_Q 0.001))).
Proof.
  intros Ht.
  assert (not_negative t) as H0 by (by destruct t as [?| | |[] ? ?]).
  assert (plus_shaped (of_Q 1024)) as E1 by (by vm_compute).
  assert (plus_shaped (of_Q 8)) as E2 by (by vm_compute).
  pose proof (fmul_not_negative _ _ E1 H0) as H1.
  pose proof (fmul_not_negative _ _ E1 H1) as H2.
  pose proof (fmul_not_negative _ _ E2 H2) as H3.
  exact (quotient_not_negative _ _ H3 (py_max_not_negative d)).
Qed.

(** One decay of a non-negative safety factor. *)
Lemma decay_step (x : float) :
  plus_shaped x → bounded x →
  plus_shaped (fmul x (of_Q 0.9)) ∧ bounded (fmul x (of_Q 0.9)) ∧
  F2Q (fmul x (of_Q 0.9)) <= F2Q x.
Proof.
  intros Hx Hb. split_and!; [| apply fmul_bounded |];
    assert (of_Q 0.9 = S754_finite false 8106479329266893 (-53)) as -> by (by vm_compute);
    destruct x as [s| | |[] m e]; try done.
  - change (fmul (S754_finite false m e) (S754_finite false 8106479329266893 (-53)))
      with (round_pos false (Qabs (F2Q (S754_finite false m e))
                             * Qabs (F2Q (S754_finite false 8106479329266893 (-53))))).
    pose proof (F2Q_abs_pos false m e) as H1.
    pose proof (F2Q_abs_pos false 8106479329266893 (-53)) as H2.
    pose proof (Qmult_lt_0_compat _ _ H1 H2) as Hpos.
    destruct (round_pos_spec false _ Hpos) as (_ & Hlt & _).
    assert (Qabs (F2Q (S754_finite false 8106479329266893 (-53))) <= 1) as Hc by (by vm_compute).
    pose proof (Rnd_representable _ (representable_F2Q m e Hb)) as HR.
    pose proof (bounded_F2Q_lt _ Hb) as Hlt'.
    rewrite F2Q_pos_abs in H1.
    assert (Qabs (F2Q (S754_finite false m e))
            * Qabs (F2Q (S754_finite false 8106479329266893 (-53)))
            <= F2Q (S754_finite false m e)) as Hle.
    { rewrite (F2Q_pos_abs m e). nra. }
    pose proof (Rnd_mono _ _ Hpos Hle) as Hm.
    destruct (Hlt ltac:(lra)) as [Hf _].
    destruct (round_pos_shape false (Qabs (F2Q (S754_finite false m e))
        * Qabs (F2Q (S754_finite false 8106479329266893 (-53))))) as [E|[E|(m' & e' & E)]];
      rewrite E in *; done.
  - change (fmul (S754_finite false m e) (S754_finite false 8106479329266893 (-53)))
      with (round_pos false (Qabs (F2Q (S754_finite false m e))
                             * Qabs (F2Q (S754_finite false 8106479329266893 (-53))))).
    pose proof (F2Q_abs_pos false m e) as H1.
    pose proof (F2Q_abs_pos false 8106479329266893 (-53)) as H2.
    pose proof (Qmult_lt_0_compat _ _ H1 H2) as Hpos.
    destruct (round_pos_spec false _ Hpos) as (_ & Hlt & _).
    assert (Qabs (F2Q (S754_finite false 8106479329266893 (-53))) <= 1) as Hc by (by vm_compute).
    pose proof (Rnd_representable _ (representable_F2Q m e Hb)) as HR.
    pose proof (bounded_F2Q_lt _ Hb) as Hlt'.
    rewrite F2Q_pos_abs in H1.
    assert (Qabs (F2Q (S754_finite false m e))
            * Qabs (F2Q (S754_finite false 8106479329266893 (-53)))
            <= F2Q (S754_finite false m e)) as Hle.
    { rewrite (F2Q_pos_abs m e). nra. }
    pose proof (Rnd_mono _ _ Hpos Hle) as Hm.
    destruct (Hlt ltac:(lra)) as [_ ->]. unfold sign_of. lra.
Qed.

Lemma decayed_shape (s : float) (k : nat) :
  plus_shaped s → bounded s → plus_shaped (decayed s k) ∧ bounded (decayed s k).
Proof.
  intros Hs Hb. induction k as [|k [IH1 IH2]]; [done|].
  change (decayed s (S k)) with (fmul (decayed s k) (of_Q 0.9)).
  destruct (decay_step _ IH1 IH2) as (? & ? & _). done.
Qed.

(** The safety factor never grows from one attempt to a later one. *)
Lemma decayed_le (s : float) (j k : nat) :
  plus_shaped s → bounded s → (j ≤ k)%nat → F2Q (decayed s k) <= F2Q (decayed s j).
Proof.
  intros Hs Hb. induction 1 as [|k Hjk IH]; [lra|].
  change (decayed s (S k)) with (fmul (decayed s k) (of_Q 0.9)).
  destruct (decayed_shape s k Hs Hb) as [H1 H2].
  destruct (decay_step _ H1 H2) as (_ & _ & H). lra.
Qed.

(** Finiteness carries over to a smaller magnitude. *)
Lemma round_pos_finite_le (s s' : bool) (p q : Q) :
  0 < p → p <= q → is_finite (round_pos s q) = true → is_finite (round_pos s' p) = true.
Proof.
  intros Hp Hpq Hf. assert (0 < q) as Hq by lra.
  destruct (round_pos_spec s q Hq) as (_ & _ & Hge).
  destruct (round_pos_spec s' p Hp) as (_ & Hlt & _).
  pose proof (Rnd_mono p q Hp Hpq) as Hm.
  destruct (Qlt_le_dec (Rnd q) (2 ^ 1024)) as [H|H].
  - by destruct (Hlt ltac:(lra)).
  - by rewrite (Hge H) in Hf.
Qed.

Lemma of_Q_finite_between (p q r : Q) :
  p <= q → q <= r → is_finite (of_Q p) = true → is_finite (of_Q r) = true →
  is_finite (of_Q q) = true.
Proof.
  intros Hpq Hqr Hfp Hfr.
  destruct (of_Q_spec p) as (_ & _ & Hpn), (of_Q_spec r) as (_ & Hrp & _).
  destruct (of_Q_spec q) as (Hqz & Hqp & Hqn).
  destruct (Q_dec q 0) as [[Hlt|Hgt]|Heq].
  - rewrite (Hqn Hlt). rewrite (Hpn ltac:(lra)) in Hfp.
    apply (round_pos_finite_le true true (- q) (- p)); [lra|lra|done].
  - rewrite (Hqp Hgt). rewrite (Hrp ltac:(lra)) in Hfr.
    apply (round_pos_finite_le false false q r); [lra|lra|done].
  - by rewrite (Hqz Heq).
Qed.

(** A product by a smaller non-negative factor stays finite. *)
Lemma fmul_finite_mono (x s s' : float) :
  plus_shaped s → plus_shaped s' → F2Q s' <= F2Q s →
  is_finite (fmul x s) = true → is_finite (fmul x s') = true.
Proof.
  intros Hs Hs' Hle.
  destruct x as [sx|sx| |sx mx ex]; try done.
  - by destruct s as [?| | |[] ? ?], s' as [?| | |[] ? ?].
  - by destruct s as [?| | |[] ? ?].
  - destruct s as [ss| | |[] ms es], s' as [ss'| | |[] ms' es']; try done.
    + exfalso. pose proof (F2Q_abs_pos false ms' es') as Hp. rewrite F2Q_pos_abs in Hp.
      change (F2Q (S754_zero ss)) with 0 in Hle. lra.
    + change (fmul (S754_finite sx mx ex) (S754_finite false ms es))
        with (round_pos (xorb sx false) (Qabs (F2Q (S754_finite sx mx ex))
                               * Qabs (F2Q (S754_finite false ms es)))).
      change (fmul (S754_finite sx mx ex) (S754_finite false ms' es'))
        with (round_pos (xorb sx false) (Qabs (F2Q (S754_finite sx mx ex))
                               * Qabs (F2Q (S754_finite false ms' es')))).
      pose proof (F2Q_abs_pos sx mx ex) as H1.
      pose proof (F2Q_abs_pos false ms' es') as H3.
      apply round_pos_finite_le; [exact (Qmult_lt_0_compat _ _ H1 H3)|].
      apply Qmult_le_l; [done|]. by rewrite !F2Q_pos_abs.
Qed.

(** When a difference of finite floats is finite. *)
Lemma fsub_finite (x y : float) :
  is_finite x = true → is_finite y = true →
  is_finite (of_Q (F2Q x - F2Q y)) = true → is_finite (fsub x y) = true.
Proof. by destruct x as [[]| | |sx mx ex], y as [[]| | |sy my ey]. Qed.

Lemma of_int_finite (n : Z) (y : float) : of_int n = Ok y → is_finite y = true.
Proof.
  unfold of_int, checked. destruct (of_Q_spec (inject_Z n)) as (Hz & Hp & Hn).
  destruct (Q_dec (inject_Z n) 0) as [[Hlt|Hgt]|Heq].
  - rewrite (Hn Hlt).
    destruct (round_pos_shape true (- inject_Z n)) as [->|[->|(m & e & ->)]];
      try done; by intros [= <-].
  - rewrite (Hp Hgt).
    destruct (round_pos_shape false (inject_Z n)) as [->|[->|(m & e & ->)]];
      try done; by intros [= <-].
  - rewrite (Hz Heq). by intros [= <-].
Qed.

Variable a : args.
Variable duration : float.

(** X12: with a finite target that is not negative and a finite safety
    factor that is not negative, the estimates of the retry loop only go
    down: if the estimate of attempt [j] succeeds with video bitrate [v],
    the estimate of a later attempt [k] either raises "Target size too
    small" or succeeds with a video bitrate of at most [v]. *)
Theorem retry_bitrates_decrease (j k : nat) (v : Z) :
  is_finite (target_mb a) = true → 0 <= F2Q (target_mb a) →
  is_finite (safety a) = true → bounded (safety a) → 0 <= F2Q (safety a) →
  (j ≤ k)%nat →
  estimate_at a duration (safety a) j = Ok v →
  estimate_at a duration (safety a) k = Raise (RuntimeError Target_size_too_small) ∨
  ∃ v', estimate_at a duration (safety a) k = Ok v' ∧ (v' ≤ v)%Z.
Proof.
  intros Hft Ht Hfs Hbs Hs Hjk Hj.
  pose proof (plus_shaped_finite _ Hft Ht) as Hpt.
  pose proof (plus_shaped_finite _ Hfs Hs) as Hps.
  unfold estimate_at in *. rewrite calc_bitrates_unfold in *.
  destruct (of_int (audio_bitrate a * 1000)) as [y| |] eqn:Hy; try done.
  rewrite result_bind_Ok in *.
  pose proof (of_int_finite _ _ Hy) as Hfy. pose proof (of_int_bounded _ _ Hy) as Hby.
  destruct (py_int (fsub (total_bps (target_mb a) duration (decayed (safety a) j)) y))
    as [n| |] eqn:Hn; try done.
  rewrite result_bind_Ok in Hj.
  destruct (Z.leb_spec n 0) as [|Hpos]; [done|]. injection Hj as <-.
  pose proof (py_int_finite _ _ Hn) as Hf.
  rewrite (py_int_spec _ Hf) in Hn. injection Hn as <-.
  destruct (decayed_shape (safety a) j Hps Hbs) as [Hsj _].
  destruct (decayed_shape (safety a) k Hps Hbs) as [Hsk _].
  pose proof (decayed_le (safety a) j k Hps Hbs Hjk) as Hdec.
  pose proof (fsub_finite_inv _ _ Hf) as Hfj.
  unfold total_bps in *.
  set (X := quotient _ _) in *.
  assert (not_negative X) as HX by (by apply scaled_quotient_not_negative).
  pose proof (fmul_finite_mono X _ _ Hsj Hsk Hdec Hfj) as Hfk.
  pose proof (fmul_mono X _ _ HX Hsj Hsk Hdec Hfj Hfk) as Hle.
  assert (0 <= F2Q (fmul X (decayed (safety a) k))) as H0.
  { by apply not_negative_value, fmul_not_negative. }
  destruct (fsub_value _ _ Hfj (fmul_bounded _ _) Hby Hf) as [Hqj _].
  destruct (fsub_value (S754_zero false) y eq_refl I Hby) as [Hq0 _].
  { by destruct y as [[]| | |sy my ey]. }
  change (F2Q (S754_zero false)) with 0 in Hq0.
  assert (is_finite (fsub (fmul X (decayed (safety a) k)) y) = true) as Hf'.
  { apply fsub_finite; [done..|].
    apply (of_Q_finite_between (0 - F2Q y) _
             (F2Q (fmul X (decayed (safety a) j)) - F2Q y)); [lra|lra|done..]. }
  rewrite (py_int_spec _ Hf'), result_bind_Ok.
  assert (Qtrunc (F2Q (fsub (fmul X (decayed (safety a) k)) y))
          ≤ Qtrunc (F2Q (fsub (fmul X (decayed (safety a) j)) y)))%Z as Hv.
  { apply Qtrunc_mono, fsub_mono; try done; apply fmul_bounded. }
  destruct (Z.leb_spec (Qtrunc (F2Q (fsub (fmul X (decayed (safety a) k)) y))) 0).
  - by left.
  - right. eexists. split; [done|]. lia.
Qed.

End RetryLoopOrder.

Lemma retry_bitrates_decrease_witness :
  let a := Args (of_Q 50) 96 "medium" 2 (of_Q 0.96) in
  estimate_at a (of_Q 300) (safety a) 0 = Ok 1246177%Z ∧
  (estimate_at a (of_Q 300) (safety a) 2 = Raise (RuntimeError Target_size_too_small) ∨
   ∃ v', estimate_at a (of_Q 300) (safety a) 2 = Ok v' ∧ (v' ≤ 1246177)%Z).
Proof.
  intros a. split; [by vm_compute|].
  apply (retry_bitrates_decrease a (of_Q 300) 0 2); first [lia | by vm_compute].
Defined.

(** * The keystream client *)

Lemma hex_of_byte_decodes (b : byte) :
  is_space (hex_digit (Byte.to_N b / 16)) = false ∧
  hex_value (hex_digit (Byte.to_N b / 16)) = Some (Byte.to_N b / 16)%N ∧
  hex_value (hex_digit (Byte.to_N b mod 16)) = Some (Byte.to_N b mod 16)%N ∧
  Byte.of_N (16 * (Byte.to_N b / 16) + Byte.to_N b mod 16) = Some b.
Proof. destruct b; vm_compute; done. Qed.

Lemma fromhex_hex (K : bytes) : fromhex (hex K) = Some K.
Proof.
  induction K as [|b K IH]; [done|].
  destruct (hex_of_byte_decodes b) as (Hsp & Hhi & Hlo & Hb).
  cbn [hex foldr hex_of_byte fromhex]. rewrite Hsp, Hhi, Hlo, Hb.
  fold (hex K). rewrite IH. done.
Qed.

Lemma hex_nonempty (K : bytes) : K ≠ [] → String.eqb (hex K) "" = false.
Proof. by destruct K. Qed.

Lemma hex_digit_not_space (c : Ascii.ascii) : is_Some (hex_value c) → is_space c = false.
Proof.
  unfold is_space, hex_value. cbv zeta. generalize (Ascii.N_of_ascii c). intros n.
  repeat match goal with
         | |- context [(?x <=? ?y)%N] => destruct (N.leb_spec x y)
         | |- context [(?x =? ?y)%N] => destruct (N.eqb_spec x y)
         end; cbn; intros [? ?]; try done; lia.
Qed.

(** What a successful decoding says of the string. *)
Lemma fromhex_digits_bounded (n : nat) :
  ∀ s K, String.length s ≤ n → fromhex s = Some K →
         length (digits s) = 2 * length K ∧
         Forall (λ c, is_Some (hex_value c)) (digits s).
Proof.
  induction n as [|n IH]; intros s K Hn.
  { destruct s; [by intros [= <-] | cbn in Hn; lia]. }
  destruct s as [|c s]; [by intros [= <-]|].
  cbn [fromhex digits]. cbn in Hn. destruct (is_space c) eqn:Hsp.
  - apply IH. lia.
  - destruct (hex_value c) as [top|] eqn:Htop; [|done].
    destruct s as [|c' s]; [done|].
    destruct (hex_value c') as [bot|] eqn:Hbot; [|done].
    destruct (Byte.of_N _) as [b|]; [|done]. cbn.
    destruct (fromhex s) as [rest|] eqn:Hrest; [|done]. cbn. intros [= <-].
    cbn in Hn. destruct (IH s rest ltac:(lia) Hrest) as [Hlen Hall].
    cbn [digits]. rewrite (hex_digit_not_space c') by by rewrite Hbot.
    cbn [length]. split; [lia|].
    repeat constructor; by rewrite ?Htop, ?Hbot.
Qed.

Lemma fromhex_digits (s : string) (K : bytes) :
  fromhex s = Some K →
  length (digits s) = 2 * length K ∧ Forall (λ c, is_Some (hex_value c)) (digits s).
Proof. by apply (fromhex_digits_bounded (String.length s)). Qed.

Lemma status_lets_through (status : Z) :
  ¬ (400 ≤ status < 600)%Z → raise_for_status status = Ok tt.
Proof.
  intros Hs. unfold raise_for_status.
  replace ((400 <=? status)%Z && (status <? 600)%Z) with false; [done|].
  symmetry. apply andb_false_iff. rewrite Z.leb_gt, Z.ltb_ge. lia.
Qed.

Lemma status_refused (status : Z) :
  (400 ≤ status < 600)%Z → raise_for_status status = Raise (HTTPError status).
Proof.
  intros Hs. unfold raise_for_status.
  replace ((400 <=? status)%Z && (status <? 600)%Z) with true; [done|].
  symmetry. apply andb_true_iff. rewrite Z.leb_le, Z.ltb_lt. lia.
Qed.

(** X14: the keystream client decodes what [bytes.hex()] encodes: for a
    response that [raise_for_status] lets through and whose JSON body is
    an object with the hexadecimal text of a non-empty byte sequence
    under ["keystream"], [_fetch_keystream] returns exactly that
    sequence. *)
Theorem fetch_keystream_roundtrip (resp : response) (data : gmap string json) (K : bytes) :
  ¬ (400 ≤ status_code resp < 600)%Z →
  json_body resp = Some (JObj data) →
  data !! "keystream" = Some (JStr (hex K)) →
  K ≠ [] →
  _fetch_keystream resp = Done K.
Proof.
  intros Hs Hbody Hk HK. unfold _fetch_keystream.
  rewrite (status_lets_through _ Hs), Hbody. cbn. rewrite Hk. cbn.
  rewrite (hex_nonempty K HK). cbn. by rewrite fromhex_hex.
Qed.

Lemma fetch_keystream_roundtrip_witness :
  _fetch_keystream
    (Response 200 "" (Some (JObj {["keystream" := JStr (hex [x5a; xc3; x0f]%byte)]})))
  = Done [x5a; xc3; x0f]%byte.
Proof.
  apply (fetch_keystream_roundtrip
           (Response 200 "" (Some (JObj {["keystream" := JStr (hex [x5a; xc3; x0f]%byte)]})))
           {["keystream" := JStr (hex [x5a; xc3; x0f]%byte)]} [x5a; xc3; x0f]%byte).
  - cbn. lia.
  - reflexivity.
  - reflexivity.
  - discriminate.
Defined.

(** X15: when [_fetch_keystream] returns a keystream, the status was not
    an error status, the body was a JSON object, and its ["keystream"]
    entry was a non-empty string made of hexadecimal digits and
    whitespace only, with exactly two digits for each byte returned. *)
Theorem fetch_keystream_success (resp : response) (K : bytes) :
  _fetch_keystream resp = Done K →
  ¬ (400 ≤ status_code resp < 600)%Z ∧
  ∃ data s,
    json_body resp = Some (JObj data) ∧ data !! "keystream" = Some (JStr s) ∧
    s ≠ "" ∧ fromhex s = Some K ∧
    length (digits s) = 2 * length K ∧
    Forall (λ c, is_Some (hex_value c)) (digits s).
Proof.
  unfold _fetch_keystream. intros Hrun.
  destruct (decide (400 ≤ status_code resp < 600)%Z) as [Hs|Hs].
  { by rewrite (status_refused _ Hs) in Hrun. }
  split; [done|]. rewrite (status_lets_through _ Hs) in Hrun.
  destruct (json_body resp) as [[| | | | | |data]|]; try done.
  cbn in Hrun. destruct (data !! "keystream") as [v|] eqn:Hk; [|done].
  cbn in Hrun. destruct (truthy v) eqn:Hv; [|done]. cbn in Hrun.
  destruct v as [| | | |s| |]; try done.
  destruct (fromhex s) as [K'|] eqn:Hhex; [|done]. injection Hrun as ->.
  exists data, s. destruct (fromhex_digits s K Hhex) as [Hlen Hall].
  split_and!; try done. intros ->. done.
Qed.

Lemma fetch_keystream_success_witness :
  ¬ (400 ≤ status_code (Response 200 "" (Some (JObj {["keystream" := JStr "5a C3"]}))) < 600)%Z ∧
  ∃ data s,
    json_body (Response 200 "" (Some (JObj {["keystream" := JStr "5a C3"]})))
    = Some (JObj data) ∧ data !! "keystream" = Some (JStr s) ∧
    s ≠ "" ∧ fromhex s = Some [x5a; xc3]%byte ∧
    length (digits s) = 2 * length [x5a; xc3]%byte ∧
    Forall (λ c, is_Some (hex_value c)) (digits s).
Proof.
  apply (fetch_keystream_success
           (Response 200 "" (Some (JObj {["keystream" := JStr "5a C3"]}))) [x5a; xc3]%byte).
  vm_compute. reflexivity.
Defined.

Lemma fromhex_blank (s : string) : digits s = [] → fromhex s = Some [].
Proof.
  induction s as [|c s IH]; [done|]. cbn [digits fromhex].
  destruct (is_space c); [done | discriminate].
Qed.

(** X16: the failures of [_fetch_keystream]: an error status (400 to 599)
    raises [HTTPError] whatever the body; "No keystream in response" is
    raised exactly when the status is let through, the body is a JSON
    object, and its ["keystream"] entry is absent or falsy ([null], empty
    string, zero, ...); and a ["keystream"] string with an odd number of
    non-blank characters is refused with the [ValueError] of
    [bytes.fromhex]. *)
Theorem fetch_keystream_failures (resp : response) :
  ((400 ≤ status_code resp < 600)%Z →
     _fetch_keystream resp = Fail (Exn (HTTPError (status_code resp)))) ∧
  (∀ v, _fetch_keystream resp = Fail (RuntimeError' (No_keystream_in_response v)) ↔
        ¬ (400 ≤ status_code resp < 600)%Z ∧
        ∃ data, v = JObj data ∧ json_body resp = Some (JObj data) ∧
                (data !! "keystream" = None ∨
                 ∃ x, data !! "keystream" = Some x ∧ truthy x = false)) ∧
  (¬ (400 ≤ status_code resp < 600)%Z →
     ∀ data s, json_body resp = Some (JObj data) → data !! "keystream" = Some (JStr s) →
               Nat.Odd (length (digits s)) →
               _fetch_keystream resp = Fail (Exn ValueError)).
Proof.
  unfold _fetch_keystream. split_and!.
  - intros Hs. by rewrite (status_refused _ Hs).
  - intros v. destruct (decide (400 ≤ status_code resp < 600)%Z) as [Hs|Hs].
    { rewrite (status_refused _ Hs). split; [done | by intros [? _]]. }
    rewrite (status_lets_through _ Hs).
    destruct (json_body resp) as [[| | | | | |data]|];
      try (split; [done | by intros (_ & ? & _ & [=] & _)]).
    cbn. destruct (data !! "keystream") as [x|] eqn:Hk; cbn.
    + destruct (truthy x) eqn:Hx; cbn.
      * split.
        -- destruct x; try done. by destruct (fromhex _).
        -- intros (_ & data' & _ & [= <-] & [H | (x' & H & Hx')]); [by rewrite Hk in H|].
           rewrite Hk in H. injection H as <-. congruence.
      * split.
        -- intros [= <-]. split; [done|]. exists data. split_and!; try done.
           right. by exists x.
        -- by intros (_ & data' & -> & [= <-] & _).
    + split.
      * intros [= <-]. split; [done|]. exists data. split_and!; try done. by left.
      * by intros (_ & data' & -> & [= <-] & _).
  - intros Hs data s Hbody Hk Hodd. rewrite (status_lets_through _ Hs), Hbody. cbn.
    rewrite Hk. cbn.
    assert (s ≠ "") as Hne by (intros ->; cbn in Hodd; by destruct Hodd as [[|?] ?]).
    replace (String.eqb s "") with false by (symmetry; by apply String.eqb_neq).
    cbn. destruct (fromhex s) as [K|] eqn:Hhex; [|done].
    destruct (fromhex_digits s K Hhex) as [Hlen _].
    destruct Hodd as [m Hm]. lia.
Qed.

(** X17: a ["keystream"] entry that is a non-empty string of whitespace
    passes the "No keystream" check and decodes to the empty keystream;
    with it [_decrypt_file] raises "Encrypted file is empty" on every
    existing file, empty or not. *)
Theorem blank_keystream_fails_decrypt (resp : response) (data : gmap string json)
    (s : string) (d : disk) (enc out : path) (C : bytes) :
  ¬ (400 ≤ status_code resp < 600)%Z →
  json_body resp = Some (JObj data) → data !! "keystream" = Some (JStr s) →
  s ≠ "" → digits s = [] → d !! enc = Some C →
  _fetch_keystream resp = Done [] ∧
  (_decrypt_file enc out [] d).1 = Raise (RuntimeError Encrypted_file_is_empty).
Proof.
  intros Hs Hbody Hk Hne Hblank Henc. split.
  - unfold _fetch_keystream. rewrite (status_lets_through _ Hs), Hbody. cbn.
    rewrite Hk. cbn.
    replace (String.eqb s "") with false by (symmetry; by apply String.eqb_neq).
    cbn. by rewrite (fromhex_blank s Hblank).
  - destruct (decide (enc = out)) as [<-|Hne'].
    + by rewrite (decrypt_file_same_path d enc [] C Henc).
    + by rewrite (decrypt_file_spec d enc out [] C Henc Hne').
Qed.

Lemma blank_keystream_fails_decrypt_witness :
  _fetch_keystream (Response 200 "" (Some (JObj {["keystream" := JStr "  "]}))) = Done [] ∧
  (_decrypt_file "v_encrypted.mp4" "v_decrypted.mp4" []
     {["v_encrypted.mp4" := [x11; x22]%byte]}).1
  = Raise (RuntimeError Encrypted_file_is_empty).
Proof.
  apply (blank_keystream_fails_decrypt
           (Response 200 "" (Some (JObj {["keystream" := JStr "  "]})))
           {["keystream" := JStr "  "]} "  " {["v_encrypted.mp4" := [x11; x22]%byte]}
           "v_encrypted.mp4" "v_decrypted.mp4" [x11; x22]%byte).
  - cbn. lia.
  - reflexivity.
  - reflexivity.
  - discriminate.
  - reflexivity.
  - reflexivity.
Defined.

(** * Default output paths *)

Lemma string_app_cons (c : ascii) (a b : string) : String c a +:+ b = String c (a +:+ b).
Proof. reflexivity. Qed.

Lemma string_app_nil (b : string) : "" +:+ b = b.
Proof. reflexivity. Qed.

Lemma string_app_nil_r (a : string) : a +:+ "" = a.
Proof. induction a as [|x a IH]; [done|]. rewrite string_app_cons. by rewrite IH. Qed.

Lemma string_app_inv_head (a b c : string) : a +:+ b = a +:+ c → b = c.
Proof.
  induction a as [|x a IH]; [done|]. rewrite !string_app_cons. intros [= H]. by apply IH.
Qed.

Lemma string_app_length (a b : string) :
  String.length (a +:+ b) = String.length a + String.length b.
Proof.
  induction a as [|x a IH]; [done|]. rewrite string_app_cons. cbn. by rewrite IH.
Qed.

Lemma substring_all (b : string) : String.substring 0 (String.length b) b = b.
Proof. induction b as [|x b IH]; cbn; [done|]. by rewrite IH. Qed.

Lemma substring_app_head (a b : string) : String.substring 0 (String.length a) (a +:+ b) = a.
Proof.
  induction a as [|x a IH].
  - rewrite string_app_nil. by destruct b.
  - rewrite string_app_cons. cbn. by rewrite IH.
Qed.

Lemma substring_app_tail (a b : string) :
  String.substring (String.length a) (String.length b) (a +:+ b) = b.
Proof.
  induction a as [|x a IH].
  - rewrite string_app_nil. apply substring_all.
  - rewrite string_app_cons. cbn. exact IH.
Qed.

Lemma has_sep_app (a b : string) : has_sep (a +:+ b) = has_sep a || has_sep b.
Proof.
  induction a as [|x a IH]; [done|]. rewrite string_app_cons. cbn.
  by rewrite IH, orb_assoc.
Qed.

Lemma rfind_dot_split (s : string) (i : nat) :
  rfind_dot s = Some i →
  ∃ a r, s = a +:+ String "."%char r ∧ String.length a = i.
Proof.
  revert i; induction s as [|c s IH]; intros i; cbn; [done|].
  destruct (rfind_dot s) as [j|].
  - intros [= <-]. destruct (IH j eq_refl) as (a & r & -> & Ha).
    exists (String c a), r. rewrite string_app_cons. cbn. by rewrite Ha.
  - destruct (Ascii.eqb_spec c "."%char) as [->|_]; [|done].
    intros [= <-]. by exists "", s.
Qed.

(** A name is its stem followed by its suffix; the suffix is empty or
    starts with a dot; the stem of a name is not empty, and has no
    separator when the name has none. *)
Lemma stem_suffix_spec (p : pure_path) :
  name p = stem p +:+ suffix p ∧
  (suffix p = "" ∨ ∃ r, suffix p = String "."%char r) ∧
  (name p ≠ "" → stem p ≠ "") ∧
  (has_sep (name p) = false → has_sep (stem p) = false).
Proof.
  unfold stem, suffix, suffix_start.
  destruct (rfind_dot (name p)) as [i|] eqn:Hfind.
  - destruct (rfind_dot_split _ _ Hfind) as (a & r & Hname & Ha).
    destruct ((0 <? i) && (i <? String.length (name p) - 1)) eqn:Hcond.
    + apply andb_true_iff in Hcond as [Hi%Nat.ltb_lt _].
      assert (String.substring 0 i (name p) = a) as ->.
      { rewrite Hname, <- Ha. apply substring_app_head. }
      assert (String.substring i (String.length (name p) - i) (name p) = String "."%char r) as ->.
      { rewrite Hname, string_app_length, <- Ha, Nat.add_comm, Nat.add_sub.
        apply substring_app_tail. }
      split_and!; [done | right; by eexists | |].
      * intros _ ->. cbn in Ha. lia.
      * rewrite Hname, has_sep_app. by intros [? _]%orb_false_iff.
    + split_and!; [by rewrite string_app_nil_r | by left | done | done].
  - split_and!; [by rewrite string_app_nil_r | by left | done | done].
Qed.

(** X18: the default output of the compressor: for an input path with a
    name, [_default_output] keeps the directory, names the file by the
    stem of the input followed by [_compressed.mp4], and never gives back
    the input path itself, so that the encoder is never asked to
    overwrite its input by default; for a path without a name (a root,
    or [.]) it raises [ValueError]. *)
Theorem compress_default_output_spec (p : pure_path) :
  has_sep (name p) = false →
  (name p = "" → CompressMore._default_output p = Raise ValueError) ∧
  (name p ≠ "" →
     ∃ out, CompressMore._default_output p = Ok out ∧
            parents out = parents p ∧
            name out = stem p +:+ "_compressed.mp4" ∧
            out ≠ p).
Proof.
  intros Hsep. destruct (stem_suffix_spec p) as (Hname & Hsfx & _ & Hstem).
  unfold CompressMore._default_output, with_name.
  assert (String.eqb (stem p +:+ "_compressed.mp4") "" = false) as ->.
  { apply String.eqb_neq. intros H%(f_equal String.length).
    rewrite string_app_length in H. cbn in H. lia. }
  assert (String.eqb (stem p +:+ "_compressed.mp4") "." = false) as ->.
  { apply String.eqb_neq. intros H%(f_equal String.length).
    rewrite string_app_length in H. cbn in H. lia. }
  rewrite has_sep_app, (Hstem Hsep). cbn [orb has_sep Ascii.eqb Bool.eqb andb].
  split.
  - intros ->. done.
  - intros Hne. replace (String.eqb (name p) "") with false
      by (symmetry; by apply String.eqb_neq).
    eexists. split_and!; try done.
    intros Heq%(f_equal name). cbn in Heq. rewrite Hname in Heq.
    apply string_app_inv_head in Heq.
    destruct Hsfx as [Hs | [r Hs]]; rewrite Hs in Heq; discriminate.
Qed.

Lemma compress_default_output_spec_witness :
  (name (PurePath "output" "v_decrypted.mp4") = "" →
     CompressMore._default_output (PurePath "output" "v_decrypted.mp4") = Raise ValueError) ∧
  (name (PurePath "output" "v_decrypted.mp4") ≠ "" →
     ∃ out, CompressMore._default_output (PurePath "output" "v_decrypted.mp4") = Ok out ∧
            parents out = parents (PurePath "output" "v_decrypted.mp4") ∧
            name out = stem (PurePath "output" "v_decrypted.mp4") +:+ "_compressed.mp4" ∧
            out ≠ PurePath "output" "v_decrypted.mp4").
Proof.
  apply (compress_default_output_spec (PurePath "output" "v_decrypted.mp4")).
  reflexivity.
Defined.

Lemma extension_cases (codec : string) :
  ExtractAudio.extension codec ∈ ["m4a"; "mp3"; "flac"; "opus"].
Proof.
  unfold ExtractAudio.extension.
  repeat (destruct (String.eqb codec _); [set_solver|]). set_solver.
Qed.

(** X19: the default output of the audio extraction: for an input path
    with a name, [_default_output] keeps the directory and the stem and
    gives the file one of the extensions m4a, mp3, flac, opus (m4a for aac
    and for any codec it does not know); the result is the input path
    itself exactly when the input already has that extension as its
    suffix; for a path without a name it raises [ValueError]. *)
Theorem audio_default_output_spec (p : pure_path) (codec : string) :
  let ext := ExtractAudio.extension codec in
  ext ∈ ["m4a"; "mp3"; "flac"; "opus"] ∧
  (name p = "" → ExtractAudio._default_output p codec = Raise ValueError) ∧
  (name p ≠ "" →
     ∃ out, ExtractAudio._default_output p codec = Ok out ∧
            parents out = parents p ∧
            name out = stem p +:+ "." +:+ ext ∧
            (out = p ↔ suffix p = "." +:+ ext)).
Proof.
  intros ext. pose proof (extension_cases codec) as Hext. fold ext in Hext.
  split; [done|].
  destruct (stem_suffix_spec p) as (Hname & _).
  unfold ExtractAudio._default_output, with_suffix. cbv zeta. fold ext.
  assert (has_sep ("." +:+ ext)
          || (negb (String.eqb ("." +:+ ext) "") && negb (String.prefix "." ("." +:+ ext)))
          || String.eqb ("." +:+ ext) "." = false) as ->.
  { repeat (apply elem_of_cons in Hext as [->|Hext]; [by vm_compute|]).
    by apply elem_of_nil in Hext. }
  split.
  - intros ->. done.
  - intros Hne. replace (String.eqb (name p) "") with false
      by (symmetry; by apply String.eqb_neq).
    eexists. split_and!; try done. split.
    + intros Heq%(f_equal name). cbn in Heq. rewrite Hname in Heq.
      by apply string_app_inv_head in Heq.
    + intros Hs. transitivity (PurePath (parents p) (name p)); [|by destruct p].
      by rewrite Hname, Hs.
Qed.

(** * The media of the latest video *)

Lemma bind_done {A B} (r : outcome A) (k : A → outcome B) (b : B) :
  r ≫= k = Done b → ∃ a, r = Done a ∧ k a = Done b.
Proof. destruct r as [a|f]; [by exists a | done]. Qed.

Lemma py_get_done (v : json) (k : string) (dflt x : json) :
  py_get v k dflt = Done x → ∃ d, v = JObj d ∧ x = from_option id dflt (d !! k).
Proof. destruct v; try done. intros [= <-]. by eexists. Qed.

Lemma replace_newlines_clean (s : string) : has_newline (replace_newlines s) = false.
Proof.
  induction s as [|c s IH]; [done|]. cbn [replace_newlines has_newline].
  rewrite IH, orb_false_r. destruct (Ascii.eqb c "010"%char) eqn:Hc; [done | exact Hc].
Qed.

(** X20: when the selection of the media succeeds, the URL and the decode
    key it found are truthy (neither absent, [null], empty nor zero), the
    description is a string without line breaks, the token is the empty
    string unless the record gave a truthy one, and the full URL is the
    URL followed by the token. *)
Theorem select_media_success (latest : json) (m : selection) :
  select_media latest = Done m →
  truthy (sel_url m) = true ∧ truthy (sel_decode_key m) = true ∧
  (∃ s, sel_desc m = JStr s ∧ has_newline s = false) ∧
  (sel_url_token m = JStr "" ∨ truthy (sel_url_token m) = true) ∧
  py_add (sel_url m) (sel_url_token m) = Done (sel_full_url m) ∧
  (∀ u, sel_url m = JStr u →
        ∃ t, sel_url_token m = JStr t ∧ sel_full_url m = JStr (u +:+ t)).
Proof.
  unfold select_media. intros H.
  apply bind_done in H as (lid & _ & H). apply bind_done in H as (od & _ & H).
  apply bind_done in H as (description & _ & H). apply bind_done in H as (dsc & Hdesc & H).
  apply bind_done in H as (ct & _ & H). apply bind_done in H as (od' & _ & H).
  apply bind_done in H as (media & _ & H).
  destruct (negb (truthy media)); [done|].
  apply bind_done in H as (f1 & _ & H). apply bind_done in H as (u & _ & H).
  apply bind_done in H as (f2 & _ & H). apply bind_done in H as (token & _ & H).
  cbv zeta in H.
  apply bind_done in H as (f3 & _ & H). apply bind_done in H as (key & _ & H).
  destruct (truthy u) eqn:Hu; [|done]. destruct (truthy key) eqn:Hkey; [|done].
  cbn [negb orb] in H. apply bind_done in H as (full & Hadd & [= <-]). cbn.
  split_and!; try done.
  - unfold py_replace_newlines in Hdesc. destruct (py_or _ _); try done.
    injection Hdesc as <-. eexists. split; [done | apply replace_newlines_clean].
  - unfold py_or. destruct (truthy token) eqn:Ht; [by right | by left].
  - intros u' ->. destruct (py_or token (JStr "")) as [| | | |t| |]; cbn in Hadd; try done.
    exists t. by injection Hadd as <-.
Qed.

Lemma select_media_success_witness :
  let m := Selection (JInt 7) (JStr "a b") JNull (JStr "https://cdn/v") (JStr "&t=1")
             (JStr "123") (JStr "https://cdn/v&t=1") in
  truthy (sel_url m) = true ∧ truthy (sel_decode_key m) = true ∧
  (∃ s, sel_desc m = JStr s ∧ has_newline s = false) ∧
  (sel_url_token m = JStr "" ∨ truthy (sel_url_token m) = true) ∧
  py_add (sel_url m) (sel_url_token m) = Done (sel_full_url m) ∧
  (∀ u, sel_url m = JStr u →
        ∃ t, sel_url_token m = JStr t ∧ sel_full_url m = JStr (u +:+ t)).
Proof.
  apply (select_media_success
           (JObj {["id" := JInt 7;
                   "object_desc" :=
                     JObj {["description" := JStr (String "a" (String "010" "b"));
                            "media" := JArr [JObj {["url" := JStr "https://cdn/v";
                                                    "url_token" := JStr "&t=1";
                                                    "decode_key" := JStr "123"]}]]}]})).
  vm_compute. reflexivity.
Defined.

Lemma size_lookup_Some {V} (d : gmap string V) (k : string) (v : V) :
  d !! k = Some v → bool_decide (size d = 0) = false.
Proof.
  intros Hk. apply bool_decide_eq_false_2. intros H%map_size_empty_iff. by subst.
Qed.

Lemma bind_of_done {A B} (a : A) (k : A → outcome B) : Done a ≫= k = k a.
Proof. reflexivity. Qed.

Lemma bind_of_fail {A B} (f : failure) (k : A → outcome B) : Fail f ≫= k = Fail f.
Proof. reflexivity. Qed.

Lemma py_get_obj (d : gmap string json) (k : string) (dflt : json) :
  py_get (JObj d) k dflt = Done (default dflt (d !! k)).
Proof. unfold py_get. by destruct (d !! k). Qed.

Lemma py_get_not_obj (v : json) (k : string) (dflt : json) :
  (∀ d, v ≠ JObj d) → py_get v k dflt = Fail (Exn AttributeError).
Proof. intros Hv. destruct v as [| | | | | |d]; try done. by destruct (Hv d). Qed.

Lemma truthy_empty_obj : truthy (JObj ∅) = false.
Proof. cbn. by rewrite map_size_empty. Qed.

Lemma truthy_null : truthy JNull = false.
Proof. reflexivity. Qed.

Lemma truthy_empty_list : truthy (JArr []) = false.
Proof. reflexivity. Qed.

Ltac media_step :=
  first [ rewrite bind_of_done | rewrite bind_of_fail | rewrite py_get_obj
        | rewrite lookup_empty | rewrite truthy_empty_obj | rewrite truthy_null
        | rewrite truthy_empty_list
        | progress cbn [default py_or py_replace_newlines negb orb getitem_0] ].

(** X21: the faults of the record that the selection of the media meets
    first: a record without ["object_desc"] is refused with "Latest video
    has no media"; one whose ["object_desc"] is present but is not an
    object, [null] included, raises [AttributeError] on the description,
    before the media are looked at; and "Latest video has no media" is
    raised only for a record that is an object whose ["object_desc"] is
    absent or an object. *)
Theorem select_media_object_desc (d : gmap string json) :
  (d !! "object_desc" = None →
     select_media (JObj d) = Fail (RuntimeError' Latest_video_has_no_media)) ∧
  (∀ v, d !! "object_desc" = Some v → (∀ od, v ≠ JObj od) →
        select_media (JObj d) = Fail (Exn AttributeError)) ∧
  (select_media (JObj d) = Fail (RuntimeError' Latest_video_has_no_media) →
     d !! "object_desc" = None ∨ ∃ od, d !! "object_desc" = Some (JObj od)).
Proof.
  unfold select_media. rewrite !py_get_obj, !bind_of_done.
  destruct (d !! "object_desc") as [v|] eqn:Hod; cbn [default].
  - split_and!; [done| |].
    + intros v' [= <-] Hv. by rewrite (py_get_not_obj v) by done.
    + destruct v as [| | | | | |od]; try done. intros _. right. by eexists.
  - split_and!; [|done|by left]. intros _. by repeat media_step.
Qed.

(** X22: on a well-formed record the selection succeeds: when
    ["object_desc"] is an object whose ["media"] is a list that starts
    with an object holding a non-empty string ["url"] and a truthy
    ["decode_key"], the description and the token being strings where
    present, the URL, the decode key, the id and the creation time are
    those of the record, the description is the record's with its line
    breaks replaced by spaces, and the full URL is the URL followed by
    the token (by nothing when there is no token). *)
Theorem select_media_well_formed (d od m : gmap string json) (rest : list json)
    (u : string) (k : json) (description token : option string) :
  d !! "object_desc" = Some (JObj od) →
  od !! "media" = Some (JArr (JObj m :: rest)) →
  od !! "description" = JStr <$> description →
  m !! "url" = Some (JStr u) → u ≠ "" →
  m !! "decode_key" = Some k → truthy k = true →
  m !! "url_token" = JStr <$> token →
  select_media (JObj d)
  = Done (Selection (default JNull (d !! "id"))
            (JStr (replace_newlines (default "" description)))
            (default JNull (d !! "createtime"))
            (JStr u) (JStr (default "" token)) k
            (JStr (u +:+ default "" token))).
Proof.
  intros Hod Hmedia Hdesc Hurl Hu Hkey Hk Htoken.
  assert (truthy (JStr u) = true) as Htu.
  { cbn. by replace (String.eqb u "") with false by (symmetry; by apply String.eqb_neq). }
  assert (py_or (default JNull (JStr <$> description)) (JStr "")
          = JStr (default "" description)) as Hd.
  { destruct description as [s|]; [|done]. unfold py_or. cbn.
    destruct (String.eqb_spec s ""); by subst. }
  assert (py_or (default JNull (JStr <$> token)) (JStr "") = JStr (default "" token)) as Ht.
  { destruct token as [t|]; [|done]. unfold py_or. cbn.
    destruct (String.eqb_spec t ""); by subst. }
  unfold select_media. rewrite !py_get_obj, !bind_of_done, Hod. cbn [default id].
  rewrite py_get_obj, bind_of_done, Hdesc, Hd. cbn [py_replace_newlines].
  rewrite !bind_of_done.
  replace (py_or (JObj od) (JObj ∅)) with (JObj od)
    by (unfold py_or; cbn [truthy]; by rewrite (size_lookup_Some od "media" _ Hmedia)).
  rewrite py_get_obj, Hmedia, bind_of_done. cbn [default id truthy is_empty negb getitem_0].
  repeat first [rewrite bind_of_done | rewrite py_get_obj | rewrite Hurl
               | rewrite Htoken | rewrite Hkey | progress cbn [default id]].
  rewrite Htu, Hk, Ht. cbn [negb orb py_add]. by rewrite ?bind_of_done.
Qed.

Lemma select_media_well_formed_witness :
  select_media
    (JObj {["id" := JInt 7;
            "object_desc" :=
              JObj {["media" := JArr [JObj {["url" := JStr "https://cdn/v";
                                             "decode_key" := JInt 123]}]]}]})
  = Done (Selection (JInt 7) (JStr "") JNull (JStr "https://cdn/v") (JStr "") (JInt 123)
            (JStr "https://cdn/v")).
Proof.
  etrans; [apply (select_media_well_formed
           {["id" := JInt 7;
             "object_desc" :=
               JObj {["media" := JArr [JObj {["url" := JStr "https://cdn/v";
                                              "decode_key" := JInt 123]}]]}]}
           {["media" := JArr [JObj {["url" := JStr "https://cdn/v";
                                     "decode_key" := JInt 123]}]]}
           {["url" := JStr "https://cdn/v"; "decode_key" := JInt 123]}
           [] "https://cdn/v" (JInt 123) None None)|].
  - reflexivity.
  - reflexivity.
  - reflexivity.
  - reflexivity.
  - discriminate.
  - reflexivity.
  - reflexivity.
  - reflexivity.
  - reflexivity.
Defined.

(** * The tail of the pipeline: download, metadata, deobfuscation *)

Import Pipeline.

Lemma download_file_other (resp : stream_response) (out p : path) (d : disk) :
  p ≠ out → (_download_file resp out d).2 !! p = d !! p.
Proof.
  intros Hp. destruct (decide (400 ≤ stream_status resp < 600)%Z) as [Herr|Hok].
  - by rewrite (download_file_refused resp out d Herr).
  - rewrite (download_file_run resp out d Hok). cbn. by rewrite lookup_insert_ne.
Qed.

Lemma decrypt_file_other (d : disk) (enc out : path) (K : bytes) (p : path) :
  p ≠ out → (_decrypt_file enc out K d).2 !! p = d !! p.
Proof.
  intros Hp. destruct (d !! enc) as [C|] eqn:Henc.
  - destruct (decide (enc = out)) as [<-|Hne].
    + rewrite (decrypt_file_same_path d enc K C Henc). cbn. by rewrite lookup_insert_ne.
    + rewrite (decrypt_file_spec d enc out K C Henc Hne).
      destruct (is_empty _); cbn; by rewrite lookup_insert_ne.
  - unfold _decrypt_file. by rewrite Henc.
Qed.

Lemma decrypt_file_ok_inv (d d' : disk) (enc out : path) (K : bytes) (r : result unit) :
  _decrypt_file enc out K d = (r, d') → ending_of r = Returned →
  ∃ C, d !! enc = Some C ∧ enc ≠ out ∧ C ≠ [] ∧ K ≠ [] ∧
       d' = <[out := deobfuscated C K]> d.
Proof.
  intros Hrun Hr. destruct (d !! enc) as [C|] eqn:Henc.
  - destruct (decide (enc = out)) as [<-|Hne].
    + rewrite (decrypt_file_same_path d enc K C Henc) in Hrun. by injection Hrun as <- <-.
    + rewrite (decrypt_file_spec d enc out K C Henc Hne) in Hrun.
      destruct (take (length K) C) as [|b head] eqn:Hhead.
      * by injection Hrun as <- <-.
      * cbn [is_empty] in Hrun. injection Hrun as <- <-.
        exists C. split_and!; try done.
        -- intros ->. by rewrite take_nil in Hhead.
        -- intros ->. by rewrite take_0 in Hhead.
  - unfold _decrypt_file in Hrun. rewrite Henc in Hrun. by injection Hrun as <- <-.
Qed.

Lemma fetch_keystream_message (resp : response) (msg : message') :
  _fetch_keystream resp = Fail (RuntimeError' msg) →
  ∃ data, msg = No_keystream_in_response data.
Proof.
  unfold _fetch_keystream. destruct (raise_for_status _); [|done|].
  all: destruct (json_body resp) as [data|]; [|done].
  all: destruct data as [| | | | | |o]; try done; cbn.
  all: destruct (negb (truthy _)); [intros [= <-]; by eexists|].
  all: destruct (from_option _ _ _) as [| | | |s| |]; try done.
  all: by destruct (fromhex s).
Qed.

Section TailProperties.

Variable format_value : json → string.
Variable in_outdir : string → path.
Variable strftime_utc : json → outcome string.
Variable dumps : list (string * json) → bytes.

Local Abbreviation enc_path := (enc_path format_value in_outdir).
Local Abbreviation dec_path := (dec_path format_value in_outdir).
Local Abbreviation meta_path := (meta_path format_value in_outdir).
Local Abbreviation _human_time := (_human_time strftime_utc).
Local Abbreviation fetch_step := (fetch_step format_value in_outdir).
Local Abbreviation main_tail := (main_tail format_value in_outdir strftime_utc dumps).

Lemma fetch_step_other (o : options) (m : selection) (download : stream_response)
    (d : disk) (p : path) :
  p ≠ enc_path m → (fetch_step o m download d).2 !! p = d !! p.
Proof.
  intros Hp. unfold Pipeline.fetch_step. destruct (skip_download o).
  - by destruct (negb _).
  - pose proof (download_file_other download (enc_path m) p d Hp) as H.
    by destruct (_download_file _ _ _).
Qed.

Lemma fetch_step_skip (o : options) (m : selection) (download : stream_response)
    (d : disk) :
  skip_download o = true → (fetch_step o m download d).2 = d.
Proof. intros Ho. unfold Pipeline.fetch_step. rewrite Ho. by destruct (negb _). Qed.

(** X23: whatever the options, the replies and the way the run ends, the
    tail of [main] changes no file but the three it names: every path
    other than [enc_path], [dec_path] and [meta_path] keeps its content
    or its absence. *)
Theorem main_tail_frame (o : options) (username : json) (m : selection)
    (download : stream_response) (keystream_resp : response) (d : disk) (p : path) :
  p ≠ enc_path m → p ≠ dec_path m → p ≠ meta_path m →
  (main_tail o username m download keystream_resp d).2 !! p = d !! p.
Proof.
  intros Henc Hdec Hmeta. unfold Pipeline.main_tail.
  destruct (_human_time _) as [utc|f]; [|done].
  pose proof (fetch_step_other o m download d p Henc) as Hd1.
  destruct (fetch_step _ _ _ _) as [[| |] d1]; cbn in Hd1; [|done..].
  destruct (skip_decrypt o); cbn; [by rewrite lookup_insert_ne|].
  destruct (_fetch_keystream _) as [K|f]; cbn; [|by rewrite lookup_insert_ne].
  pose proof (decrypt_file_other (<[meta_path m := dumps (meta username m utc)]> d1)
                (enc_path m) (dec_path m) K p Hdec) as Hd3.
  destruct (_decrypt_file _ _ _ _) as [r d3]. cbn in *.
  by rewrite Hd3, lookup_insert_ne.
Qed.

(** X24: the two switches keep their files: with [--skip-download] no run
    changes the encrypted file, and with [--skip-decrypt] no run changes
    the decrypted file, the three paths being distinct. *)
Theorem main_tail_skips (o : options) (username : json) (m : selection)
    (download : stream_response) (keystream_resp : response) (d : disk) :
  enc_path m ≠ dec_path m → enc_path m ≠ meta_path m → dec_path m ≠ meta_path m →
  (skip_download o = true →
     (main_tail o username m download keystream_resp d).2 !! enc_path m = d !! enc_path m) ∧
  (skip_decrypt o = true →
     (main_tail o username m download keystream_resp d).2 !! dec_path m = d !! dec_path m).
Proof.
  intros Hed Hem Hdm. unfold Pipeline.main_tail.
  destruct (_human_time _) as [utc|f]; [|done].
  split; intros Ho.
  - pose proof (fetch_step_skip o m download d Ho) as Hd1.
    destruct (fetch_step _ _ _ _) as [[| |] d1]; cbn in Hd1; subst d1; [|done..].
    destruct (skip_decrypt o); cbn; [by rewrite lookup_insert_ne|].
    destruct (_fetch_keystream _) as [K|f]; cbn; [|by rewrite lookup_insert_ne].
    pose proof (decrypt_file_other (<[meta_path m := dumps (meta username m utc)]> d)
                  (enc_path m) (dec_path m) K (enc_path m) Hed) as Hd3.
    destruct (_decrypt_file _ _ _ _) as [r d3]. cbn in *.
    by rewrite Hd3, lookup_insert_ne.
  - pose proof (fetch_step_other o m download d (dec_path m) (not_eq_sym Hed)) as Hd1.
    destruct (fetch_step _ _ _ _) as [[| |] d1]; cbn in Hd1; [|done..].
    rewrite Ho. cbn. by rewrite lookup_insert_ne.
Qed.

(** X25: "Encrypted file not found" is the error of [--skip-download]
    without a file, and of nothing else: when the creation time can be
    formatted, the tail raises it exactly when [--skip-download] is given
    and there is no file at [enc_path], the path of the message being
    [enc_path]; and the disk is then as it was, no metadata being
    written. *)
Theorem main_tail_not_found (o : options) (username : json) (m : selection)
    (download : stream_response) (keystream_resp : response) (d d' : disk)
    (p : path) (utc : string) :
  _human_time (sel_createtime m) = Done utc →
  main_tail o username m download keystream_resp d
  = (Raised (RuntimeError' (Encrypted_file_not_found p)), d')
  ↔ skip_download o = true ∧ p = enc_path m ∧ d !! enc_path m = None ∧ d' = d.
Proof.
  intros Hutc. unfold Pipeline.main_tail, Pipeline.fetch_step. rewrite Hutc.
  unfold dict_contains. destruct (skip_download o).
  - destruct (d !! enc_path m) as [C|] eqn:Henc.
    + rewrite bool_decide_eq_true_2 by by eexists. cbn [negb].
      split; [|by intros (_ & _ & ? & _)].
      destruct (skip_decrypt o); [done|].
      destruct (_fetch_keystream _) as [K|f] eqn:HK.
      * destruct (_decrypt_file _ _ _ _) as [[| |] d3]; done.
      * intros [= -> _]. by apply fetch_keystream_message in HK as [? ?].
    + rewrite bool_decide_eq_false_2 by by intros [? ?]. cbn [negb].
      split; [by intros [= <- <-] | by intros (_ & -> & _ & ->)].
  - split; [|by intros (? & _)].
    destruct (_download_file _ _ _) as [[| |] d1]; cbn; [|done..].
    destruct (skip_decrypt o); [done|].
    destruct (_fetch_keystream _) as [K|f] eqn:HK.
    + destruct (_decrypt_file _ _ _ _) as [[| |] d3]; done.
    + intros [= -> _]. by apply fetch_keystream_message in HK as [? ?].
Qed.



(** X28: a run that returned can be resumed: after the tail has returned
    without [--skip-decrypt], running it again on the disk it left, with
    [--skip-download] and the same keystream reply, returns and leaves the
    disk as it is, whatever the download would have delivered. *)
Theorem main_tail_resume (o : options) (username : json) (m : selection)
    (download download' : stream_response) (keystream_resp : response) (d d' : disk) :
  skip_decrypt o = false →
  meta_path m ≠ dec_path m →
  main_tail o username m download keystream_resp d = (Returned, d') →
  main_tail (Options true false) username m download' keystream_resp d' = (Returned, d').
Proof.
  intros Ho Hmd. unfold Pipeline.main_tail. rewrite Ho.
  destruct (_human_time _) as [utc|f]; [|done].
  destruct (Pipeline.fetch_step _ _ o m download d) as [[| |] d1]; [|done..].
  destruct (_fetch_keystream _) as [K|f]; [|done].
  destruct (_decrypt_file _ _ _ _) as [r d3] eqn:Hdec. intros [= Hr ->].
  destruct (decrypt_file_ok_inv _ _ _ _ _ _ Hdec Hr) as (C & Henc & Hed & HC & HK & ->).
  assert (<[dec_path m := deobfuscated C K]>
            (<[meta_path m := dumps (meta username m utc)]> d1) !! enc_path m = Some C)
    as Henc' by by rewrite lookup_insert_ne.
  unfold Pipeline.fetch_step, dict_contains. cbn [skip_download skip_decrypt].
  rewrite bool_decide_eq_true_2 by (by eexists). cbn [negb].
  rewrite (insert_id _ (meta_path m) (dumps (meta username m utc)))
    by (by rewrite lookup_insert_ne, lookup_insert_eq).
  rewrite (decrypt_file_spec _ (enc_path m) (dec_path m) K C Henc' Hed).
  rewrite take_nonempty; [|destruct K; simpl; [done | lia]|done].
  cbn [ending_of]. by rewrite insert_insert_eq.
Qed.

(** X29: what a run that returned leaves behind: when the tail returns
    without [--skip-decrypt], the creation time could be formatted, the
    keystream client returned a non-empty keystream, and at the end the
    metadata file holds the dump of [meta], the encrypted file is not
    empty and the decrypted file is its deobfuscation by that keystream,
    of the same length. *)
Theorem main_tail_returned (o : options) (username : json) (m : selection)
    (download : stream_response) (keystream_resp : response) (d d' : disk) :
  skip_decrypt o = false →
  meta_path m ≠ dec_path m →
  main_tail o username m download keystream_resp d = (Returned, d') →
  ∃ (utc : string) (K C : bytes),
    _human_time (sel_createtime m) = Done utc ∧
    _fetch_keystream keystream_resp = Done K ∧ K ≠ [] ∧
    d' !! meta_path m = Some (dumps (meta username m utc)) ∧
    d' !! enc_path m = Some C ∧ C ≠ [] ∧
    d' !! dec_path m = Some (deobfuscated C K) ∧
    length (deobfuscated C K) = length C.
Proof.
  intros Ho Hmd. unfold Pipeline.main_tail. rewrite Ho.
  destruct (_human_time _) as [utc|f]; [|done].
  destruct (Pipeline.fetch_step _ _ o m download d) as [[| |] d1]; [|done..].
  destruct (_fetch_keystream _) as [K|f]; [|done].
  destruct (_decrypt_file _ _ _ _) as [r d3] eqn:Hdec. intros [= Hr ->].
  destruct (decrypt_file_ok_inv _ _ _ _ _ _ Hdec Hr) as (C & Henc & Hed & HC & HK & ->).
  exists utc, K, C. split_and!; try done.
  - by rewrite lookup_insert_ne, lookup_insert_eq.
  - by rewrite lookup_insert_ne.
  - by rewrite lookup_insert_eq.
  - apply deobfuscated_length.
Qed.

End TailProperties.

Lemma main_tail_skips_witness :
  let run := Pipeline.main_tail (λ _, "7") (String.append "output/") (λ _, Done "")
               (λ _, [x7b; x7d]%byte) (Options true true) (JStr "u")
               (Selection (JInt 7) (JStr "") JNull (JStr "https://cdn/v") (JStr "")
                  (JInt 123) (JStr "https://cdn/v"))
               (StreamResponse 200 [] false) (Response 200 "" None)
               {["output/7_encrypted.mp4" := [x11]%byte]} in
  (true = true →
   run.2 !! "output/7_encrypted.mp4"
   = ({["output/7_encrypted.mp4" := [x11]%byte]} : disk) !! "output/7_encrypted.mp4") ∧
  (true = true →
   run.2 !! "output/7_decrypted.mp4"
   = ({["output/7_encrypted.mp4" := [x11]%byte]} : disk) !! "output/7_decrypted.mp4").
Proof.
  apply (main_tail_skips (λ _, "7") (String.append "output/") (λ _, Done "")
           (λ _, [x7b; x7d]%byte) (Options true true) (JStr "u")
           (Selection (JInt 7) (JStr "") JNull (JStr "https://cdn/v") (JStr "")
              (JInt 123) (JStr "https://cdn/v"))
           (StreamResponse 200 [] false) (Response 200 "" None)
           {["output/7_encrypted.mp4" := [x11]%byte]}); discriminate.
Defined.

Lemma main_tail_frame_witness :
  (Pipeline.main_tail (λ _, "7") (String.append "output/") (λ _, Done "")
     (λ _, [x7b; x7d]%byte) (Options false false) (JStr "u")
     (Selection (JInt 7) (JStr "") JNull (JStr "https://cdn/v") (JStr "")
        (JInt 123) (JStr "https://cdn/v"))
     (StreamResponse 200 [[x11; x22]%byte] false)
     (Response 200 "" (Some (JObj {["keystream" := JStr "5a"]})))
     {["notes.txt" := [x01]%byte]}).2 !! "notes.txt"
  = ({["notes.txt" := [x01]%byte]} : disk) !! "notes.txt".
Proof.
  apply (main_tail_frame (λ _, "7") (String.append "output/") (λ _, Done "")
           (λ _, [x7b; x7d]%byte) (Options false false) (JStr "u")
           (Selection (JInt 7) (JStr "") JNull (JStr "https://cdn/v") (JStr "")
              (JInt 123) (JStr "https://cdn/v"))
           (StreamResponse 200 [[x11; x22]%byte] false)
           (Response 200 "" (Some (JObj {["keystream" := JStr "5a"]})))
           {["notes.txt" := [x01]%byte]} "notes.txt"); discriminate.
Defined.

Lemma main_tail_not_found_witness :
  Pipeline.main_tail (λ _, "7") (String.append "output/") (λ _, Done "")
    (λ _, [x7b; x7d]%byte) (Options true false) (JStr "u")
    (Selection (JInt 7) (JStr "") JNull (JStr "https://cdn/v") (JStr "")
       (JInt 123) (JStr "https://cdn/v"))
    (StreamResponse 200 [[x11; x22]%byte] false)
    (Response 200 "" (Some (JObj {["keystream" := JStr "5a"]}))) ∅
  = (Raised (RuntimeError' (Encrypted_file_not_found "output/7_encrypted.mp4")), ∅)
  ↔ true = true ∧ "output/7_encrypted.mp4" = "output/7_encrypted.mp4" ∧
    (∅ : disk) !! "output/7_encrypted.mp4" = None ∧ (∅ : disk) = ∅.
Proof.
  apply (main_tail_not_found (λ _, "7") (String.append "output/") (λ _, Done "")
           (λ _, [x7b; x7d]%byte) (Options true false) (JStr "u")
           (Selection (JInt 7) (JStr "") JNull (JStr "https://cdn/v") (JStr "")
              (JInt 123) (JStr "https://cdn/v"))
           (StreamResponse 200 [[x11; x22]%byte] false)
           (Response 200 "" (Some (JObj {["keystream" := JStr "5a"]}))) ∅ ∅
           "output/7_encrypted.mp4" "").
  reflexivity.
Defined.



Lemma main_tail_resume_witness :
  let d' : disk :=
    <["output/7_decrypted.mp4" := deobfuscated [x11; x22]%byte [x5a]%byte]>
      (<["output/7_meta.json" := [x7b; x7d]%byte]>
         (<["output/7_encrypted.mp4" := [x11; x22]%byte]> ∅)) in
  Pipeline.main_tail (λ _, "7") (String.append "output/") (λ _, Done "")
    (λ _, [x7b; x7d]%byte) (Options true false) (JStr "u")
    (Selection (JInt 7) (JStr "") JNull (JStr "https://cdn/v") (JStr "")
       (JInt 123) (JStr "https://cdn/v"))
    (StreamResponse 404 [] false)
    (Response 200 "" (Some (JObj {["keystream" := JStr "5a"]}))) d'
  = (Returned, d').
Proof.
  apply (main_tail_resume (λ _, "7") (String.append "output/") (λ _, Done "")
           (λ _, [x7b; x7d]%byte) (Options false false) (JStr "u")
           (Selection (JInt 7) (JStr "") JNull (JStr "https://cdn/v") (JStr "")
              (JInt 123) (JStr "https://cdn/v"))
           (StreamResponse 200 [[x11; x22]%byte] false) (StreamResponse 404 [] false)
           (Response 200 "" (Some (JObj {["keystream" := JStr "5a"]}))) ∅).
  - reflexivity.
  - discriminate.
  - vm_compute. reflexivity.
Defined.

Lemma main_tail_returned_witness :
  let m := Selection (JInt 7) (JStr "") JNull (JStr "https://cdn/v") (JStr "")
             (JInt 123) (JStr "https://cdn/v") in
  let keystream_resp := Response 200 "" (Some (JObj {["keystream" := JStr "5a"]})) in
  let d' : disk :=
    <["output/7_decrypted.mp4" := deobfuscated [x11; x22]%byte [x5a]%byte]>
      (<["output/7_meta.json" := [x7b; x7d]%byte]>
         (<["output/7_encrypted.mp4" := [x11; x22]%byte]> ∅)) in
  ∃ (utc : string) (K C : bytes),
    Pipeline._human_time (λ _, Done "") (sel_createtime m) = Done utc ∧
    _fetch_keystream keystream_resp = Done K ∧ K ≠ [] ∧
    d' !! "output/7_meta.json" = Some [x7b; x7d]%byte ∧
    d' !! "output/7_encrypted.mp4" = Some C ∧ C ≠ [] ∧
    d' !! "output/7_decrypted.mp4" = Some (deobfuscated C K) ∧
    length (deobfuscated C K) = length C.
Proof.
  apply (main_tail_returned (λ _, "7") (String.append "output/") (λ _, Done "")
           (λ _, [x7b; x7d]%byte) (Options false false) (JStr "u")
           (Selection (JInt 7) (JStr "") JNull (JStr "https://cdn/v") (JStr "")
              (JInt 123) (JStr "https://cdn/v"))
           (StreamResponse 200 [[x11; x22]%byte] false)
           (Response 200 "" (Some (JObj {["keystream" := JStr "5a"]}))) ∅).
  - reflexivity.
  - discriminate.
  - vm_compute. reflexivity.
Defined.

(** * The search: from the results to the username *)

Import Search.

Lemma select_user_ok {A} (data : list A) (index : Z) (x : A) :
  _select_user data index = Ok x ↔
  (0 ≤ index < Z.of_nat (length data))%Z ∧ data !! Z.to_nat index = Some x.
Proof.
  unfold _select_user, list_getitem, len. destruct data as [|y data]; cbn [is_empty].
  { split; [done|]. cbn. lia. }
  set (l := y :: data). rewrite nat_N_Z.
  destruct (Z.ltb_spec index 0) as [Hneg|Hpos]; cbn [orb].
  { split; [done | lia]. }
  destruct (Z.geb_spec index (Z.of_nat (length l))) as [Hge|Hlt].
  { split; [done | lia]. }
  destruct (Z.ltb_spec index 0); [lia|].
  destruct (l !! Z.to_nat index) as [z|] eqn:Hz.
  - split; [intros [= <-]; split; [lia | done] | by intros [_ [= <-]]].
  - apply lookup_ge_None_1 in Hz. lia.
Qed.

Lemma list_entry_listable (item : json) : list_entry item = Done tt ↔ listable item.
Proof.
  unfold list_entry, listable. split.
  - intros H. apply bind_done in H as (contact & Hc & H).
    apply py_get_done in Hc as (entry & -> & ->). exists entry. split; [done|].
    apply bind_done in H as (nickname & Hn & H).
    apply py_get_done in Hn as (c & Hc & _).
    destruct (entry !! "contact") as [v|] eqn:Hv; [|by left].
    cbn [from_option id] in Hc, H. subst v.
    right. exists c. split; [done|]. intros sig Hsig Htruthy.
    apply bind_done in H as (_ & _ & H). apply bind_done in H as (sg & Hsg & H).
    rewrite py_get_obj, Hsig in Hsg. cbn in Hsg. injection Hsg as <-.
    apply bind_done in H as (x & Hx & _). unfold py_or in Hx. rewrite Htruthy in Hx.
    destruct sig; try done. by eexists.
  - intros (entry & -> & Hcontact). rewrite py_get_obj, bind_of_done.
    destruct Hcontact as [->|(contact & -> & Hsig)]; cbn [default id].
    + repeat media_step. done.
    + rewrite !py_get_obj, !bind_of_done.
      destruct (contact !! "signature") as [sig|] eqn:Hs; cbn [default id].
      * unfold py_or. destruct (truthy sig) eqn:Ht; [|done].
        by destruct (Hsig sig eq_refl Ht) as [s ->].
      * done.
Qed.

Lemma list_entries_all (items : list json) :
  list_entries items = Done tt ↔ Forall listable items.
Proof.
  induction items as [|item items IH]; cbn [list_entries].
  - split; [by constructor | done].
  - rewrite Forall_cons, <- IH, <- list_entry_listable. split.
    + intros H. apply bind_done in H as ([] & H1 & H2). done.
    + intros [-> ->]. done.
Qed.

(** X30: the username the search settles on: for a list of results,
    [main] gets a username exactly when the index is within the list,
    every one of the first ten results can be listed (an object whose
    contact, if any, is an object with a signature that is absent, falsy
    or a string), and the result at the index is an object whose contact
    is an object with a truthy ["username"], which is the username.
    A result that cannot be listed fails the search even when it is not
    the selected one; results after the tenth are not looked at unless
    selected. *)
Theorem select_username_spec (data : list json) (user_index : Z) (username : json) :
  select_username data user_index = Some (Done username) ↔
  (0 ≤ user_index < Z.of_nat (length data))%Z ∧
  (∀ i item, i < 10 → data !! i = Some item → listable item) ∧
  ∃ user contact : gmap string json,
    data !! Z.to_nat user_index = Some (JObj user) ∧
    user !! "contact" = Some (JObj contact) ∧
    contact !! "username" = Some username ∧ truthy username = true.
Proof.
  assert (list_entries (take 10 data) = Done tt ↔
          ∀ i item, i < 10 → data !! i = Some item → listable item) as Hlist.
  { rewrite list_entries_all, Forall_lookup. split.
    - intros H i item Hi Hitem. apply (H i). by rewrite lookup_take_lt.
    - intros H i item Hitem. destruct (decide (i < 10)) as [Hi|Hi].
      + rewrite lookup_take_lt in Hitem by done. by apply (H i).
      + by rewrite lookup_take_ge in Hitem by lia. }
  unfold select_username. split.
  - destruct (list_entries _) as [[]|f] eqn:Hl; [|done].
    destruct (_select_user data user_index) as [x| |] eqn:Hsel; [|done..].
    apply select_user_ok in Hsel as [Hrange Hx]. cbn. intros [= H].
    split_and!; [lia..|by apply Hlist|].
    apply bind_done in H as (contact & Hc & H).
    apply py_get_done in Hc as (user & -> & ->).
    apply bind_done in H as (u & Hu & H).
    apply py_get_done in Hu as (c & Hc & ->).
    destruct (user !! "contact") as [v|] eqn:Hv; cbn in Hc.
    + subst v. destruct (c !! "username") as [w|] eqn:Hw; cbn in H; [|done].
      destruct (truthy w) eqn:Ht; [|done]. injection H as <-.
      by exists user, c.
    + injection Hc as <-. by rewrite lookup_empty in H.
  - intros (Hrange & Hall & user & contact & Hx & Hc & Hu & Ht).
    apply Hlist in Hall. rewrite Hall.
    assert (_select_user data user_index = Ok (JObj user)) as -> by by apply select_user_ok.
    cbn. rewrite Hc. cbn. rewrite Hu. cbn. by rewrite Ht.
Qed.
